(** * SandboxBridge: origin trust, envelope validation and request/response
      correlation of the cross-context communication bridge.

    The development embeds the class [SandboxBridge] of the repository
    (constructor, [allowOrigins], [postMessage], [registerHandler],
    [onMessage], [respondToMessage], the 'message' listener installed by
    [_initMessageListener], [_validateMessage], [_generateMessageId] and
    [_isOriginAllowed]) as state-passing functions over an explicit world:
    the bridge object, the host's timers, the promises the bridge created,
    the queue of promise reactions and the trace of observable effects.

    Scope of the model.  Strings are sequences of code units below 256.
    Numbers are integers or [NaN].  Message data are JSON shapes; converting
    a data object to a primitive takes the built-in path ([toString] and
    [valueOf] are not shadowed by members of the data).  A handler is
    modelled by its outcome; what it calls back into the bridge is an
    operation of its own.  The catch-all callback is modelled by the data it
    passes to [respond] and by what it throws; an exception of [respond]
    ends its run and passes through it.  What the engine itself provides
    (clock, random source, regular expressions, numeric strings, JSON, the
    parsing of target origins, the members of function objects) is a
    parameter, the class [Host]; a reference host makes every definition
    run.  [postMessage] is called with a string as target origin; the
    target of a reply is any value, as the source of a message is.

    The module of the bridge is embedded as it stands: it imports nothing,
    so the name [UniCanvasError], which it uses in every [throw] and in both
    [reject] calls, is bound to no class in it.

    The other classes of the repository that the development covers, the
    event emitter, the resource hub and the error handler, are embedded
    after the bridge, each in a module of its own. *)

From Stdlib Require Import ZArith Ascii String DecimalString DecimalZ.
From stdpp Require Import gmap strings list.

Set Warnings "-register-all".
Local Open Scope string_scope.

(** ** Characters and strings *)

Definition chr (n : nat) : string := String (Ascii.ascii_of_nat n) EmptyString.

(** The double quote, used when JSON text is written down. *)
Definition dquote : string := chr 34.

Definition chars (s : string) : list ascii := list_ascii_of_string s.

(** [s.includes('*')] *)
Definition includes_star (s : string) : bool :=
  existsb (Ascii.eqb "*"%char) (chars s).

(** [s.replace(/\*/g, '.*')] *)
Fixpoint replace_stars (s : string) : string :=
  match s with
  | EmptyString => EmptyString
  | String c s' =>
      if Ascii.eqb c "*"%char then String "."%char (String "*"%char (replace_stars s'))
      else String c (replace_stars s')
  end.

(** ** Numbers and structured values

    Numbers are modelled at integer precision, which is what timestamps,
    counters and sizes are; [NaN] is kept because the coercions of the
    language produce it.  Values are the structured data a message can carry
    through the transport (no functions, no cycles). *)

Inductive number := NaN | Int (z : Z).

Inductive value :=
  | VUndefined
  | VNull
  | VBool (b : bool)
  | VNum (n : number)
  | VStr (s : string)
  | VArr (items : list value)
  | VObj (fields : list (string * value)).

(** Decimal rendering of an integer, as [Number.prototype.toString] prints
    integers of magnitude below 10^21. *)
Definition dec (z : Z) : string := NilEmpty.string_of_int (Z.to_int z).

Definition Number_toString (n : number) : string :=
  match n with NaN => "NaN" | Int z => dec z end.

Fixpoint join_comma (l : list string) : string :=
  match l with
  | [] => ""
  | [x] => x
  | x :: l' => x ++ "," ++ join_comma l'
  end.

(** [String(v)] for data values: an ordinary object prints as
    [[object Object]], an array as the comma-joined rendering of its
    elements, [null] and [undefined] elements printing as the empty string. *)
Fixpoint ToString (v : value) : string :=
  match v with
  | VUndefined => "undefined"
  | VNull => "null"
  | VBool true => "true"
  | VBool false => "false"
  | VNum n => Number_toString n
  | VStr s => s
  | VArr items =>
      join_comma (map (fun x => match x with
                                | VUndefined | VNull => ""
                                | _ => ToString x
                                end) items)
  | VObj _ => "[object Object]"
  end.

(** Truthiness ([!v] is its negation). *)
Definition truthy (v : value) : bool :=
  match v with
  | VUndefined | VNull => false
  | VBool b => b
  | VNum NaN => false
  | VNum (Int z) => negb (z =? 0)%Z
  | VStr s => negb (String.eqb s "")
  | VArr _ | VObj _ => true
  end.

(** [typeof v === 'object'] *)
Definition typeof_object (v : value) : bool :=
  match v with
  | VNull | VArr _ | VObj _ => true
  | _ => false
  end.

Fixpoint assoc (k : string) (fields : list (string * value)) : option value :=
  match fields with
  | [] => None
  | (k', v) :: rest => if String.eqb k k' then Some v else assoc k rest
  end.

(** Property read [v.k] on a value that is neither [null] nor [undefined],
    for the member names the bridge reads ([id], [timestamp], [source],
    [payload], [isResponse], [responseToId], [status], [requiresResponse],
    [type], [message], [details]); none of them is defined by a prototype. *)
Definition get (v : value) (k : string) : value :=
  match v with
  | VObj fields => default VUndefined (assoc k fields)
  | _ => VUndefined
  end.

(** [a || b] *)
Definition js_or (a b : value) : value := if truthy a then a else b.

(** [a === 'literal'] *)
Definition is_string (v : value) (s : string) : bool :=
  match v with VStr s' => String.eqb s' s | _ => false end.

(** ** Application code the bridge calls

    A handler is a function of the payload and of the message's metadata.  It
    returns a value, throws, or returns a deferred value that later fulfils,
    rejects, or never settles. *)

Record meta := { source : value; messageId : value; timestamp : value }.

Inductive settlement :=
  | Fulfils (v : value)
  | Rejects (e : value)
  | NeverSettles.

Inductive outcome :=
  | Returns (v : value)
  | Throws (e : value)
  | ReturnsPromise (s : settlement).

Definition handler := value → meta → outcome.

(** The catch-all callback also receives [respond]; a run of it is the list
    of data it passed to [respond] before returning, and the value it threw,
    if it threw. *)
Record callback_run := { responded : list value; thrown : option value }.

Definition callback := value → meta → callback_run.

(** ** The host

    What the bridge calls but does not define: the page's own origin, the
    clock, the random source, the regular-expression engine, the parsing of
    numeric strings, the JSON serializer, the URL parser of the transport
    and the members of function objects.  The clock and the random source
    are oracles indexed by the number of readings made so far. *)

Class Host := {
  (** [window.location.origin] *)
  location_origin : string;
  (** the n-th reading of [Date.now()] *)
  Date_now : nat → Z;
  (** the n-th draw of [Math.random().toString(36).substr(2, 9)] *)
  random_suffix : nat → string;
  (** [new RegExp(source).test(s)]; [None] when the constructor rejects the
      source with a SyntaxError *)
  RegExp_test : string → string → option bool;
  (** the numeric value of a string *)
  StringToNumber : string → number;
  (** a string with no numeric reading converts to [NaN] *)
  StringToNumber_object : StringToNumber "[object Object]" = NaN;
  (** [JSON.stringify(v)] of a data object *)
  JSON_stringify : value → string;
  (** calling, as a handler, the member of that name which a plain object
      inherits from its prototype *)
  inherited_call : string → handler;
  (** whether the URL parser accepts a string, as [postMessage] parses the
      target origin it is given *)
  URL_parses : string → bool;
  (** calling, as a handler, the member of that name which an object finds
      through a function that is its prototype; [None] when the function has
      and inherits no such member, or a falsy one *)
  function_member : handler → string → option handler;
  (** whether an assignment to that name on such an object is refused: the
      function has or inherits a member of that name that cannot be written *)
  function_member_readonly : handler → string → bool;
  (** the text the engine puts in the errors it raises *)
  engine_message : string;
}.

(** [Number(v)], as the subtraction in [_validateMessage] coerces its operand. *)
Definition ToNumber `{Host} (v : value) : number :=
  match v with
  | VUndefined => NaN
  | VNull => Int 0
  | VBool b => Int (if b then 1 else 0)
  | VNum n => n
  | VStr s => StringToNumber s
  | VArr _ | VObj _ => StringToNumber (ToString v)
  end.

(** [a - b] *)
Definition num_sub (a b : number) : number :=
  match a, b with
  | Int x, Int y => Int (x - y)
  | _, _ => NaN
  end.

(** [a < k] and [a > k]: every comparison with [NaN] is false. *)
Definition num_lt (a : number) (k : Z) : bool :=
  match a with Int x => (x <? k)%Z | NaN => false end.
Definition num_gt (a : number) (k : Z) : bool :=
  match a with Int x => (k <? x)%Z | NaN => false end.

(** ** Origin policy *)

(** [Array.prototype.some] over a callback that may throw: stops at the
    first element the callback accepts, and at the first throw. *)
Fixpoint array_some (f : string → option bool) (l : list string) : option bool :=
  match l with
  | [] => Some false
  | x :: rest =>
      match f x with
      | None => None
      | Some true => Some true
      | Some false => array_some f rest
      end
  end.

(** The callback of [_isOriginAllowed]: exact match, else the anchored
    regular expression built from a pattern that contains a star. *)
Definition origin_matches `{Host} (origin allowedOrigin : string) : option bool :=
  if String.eqb allowedOrigin origin then Some true
  else if includes_star allowedOrigin then
    RegExp_test ("^" ++ replace_stars allowedOrigin ++ "$") origin
  else Some false.

(** [_isOriginAllowed(origin)]; [None] when building a pattern throws. *)
Definition _isOriginAllowed `{Host} (allowedOrigins : list string) (origin : string)
  : option bool :=
  if (length allowedOrigins =? 0)%nat then Some false
  else if existsb (String.eqb "*") allowedOrigins then Some true
  else array_some (origin_matches origin) allowedOrigins.

(** ** Errors, effects and the world *)

(** Thrown things: an instance of the class [UniCanvasError] of
    UniCanvasError.js with the members its constructor sets (the module of
    the bridge names the class but does not import it, so the bridge makes
    no such instance), an error raised by the engine or by the transport, or
    a value thrown by application code. *)
Inductive exn :=
  | UniCanvasError (code : string) (message : string) (details : value) (timestamp : Z)
  | ReferenceError
  | TypeError
  | SyntaxError
  | DOMException (name : string)
  | Raised (v : value).

Inductive console_level := Log | Warn | Error.

(** What an observer of the page sees the bridge do, in order. *)
Inductive effect :=
  | EPostMessage (message : value) (targetOrigin : value)
  | ESetTimeout (t : nat) (delay : Z)
  | EClearTimeout (t : nat)
  | EResolve (p : nat) (v : value)
  | EReject (p : nat) (e : exn)
  | EHandler (type : string) (payload : value) (m : meta)
  | ECallback (payload : value) (m : meta)
  | EConsole (level : console_level)
  | EThrown (e : exn)
  | EUncaught (e : exn)
  | EUnhandledRejection (reason : exn).

(** An entry of [pendingResponses]: the two continuations of the promise
    (each named by the promise it settles) and the timer handle. *)
Record PendingResponse := { resolve : nat; reject : nat; timeoutId : nat }.

Record options := {
  allowedOrigins : list string;
  messageTimeout : Z;
  maxMessageSize : Z;
  securityLevel : string;
  debug : bool;
}.

(** [messageHandlers] is a plain object: its entries, and its prototype
    when a function was put in the place of [Object.prototype]. *)
Record SandboxBridge := {
  opts : options;
  messageHandlers : gmap string handler;
  messageHandlers_prototype : option handler;
  globalMessageCallback : option callback;
  pendingResponses : gmap string PendingResponse;
  messageCounter : nat;
}.

Inductive promise_state :=
  | Pending
  | Fulfilled (v : value)
  | Rejected (e : exn).

(** The closure given to [setTimeout] in [postMessage]: it captures the
    message id and the [reject] continuation. *)
Record timer_callback := { timer_messageId : string; timer_reject : nat }.

(** A reaction registered by [Promise.resolve(result).then(..).catch(..)]:
    how [result] settles and the message being answered. *)
Record reaction := { settled : settlement; answered : value }.

Record world := {
  bridge : SandboxBridge;
  timers : gmap nat timer_callback;
  next_timer : nat;
  promises : gmap nat promise_state;
  next_promise : nat;
  jobs : list reaction;
  clock_reads : nat;
  random_draws : nat;
  trace : list effect;
}.

Definition with_bridge (f : SandboxBridge → SandboxBridge) (w : world) : world :=
  {| bridge := f (bridge w); timers := timers w; next_timer := next_timer w;
     promises := promises w; next_promise := next_promise w; jobs := jobs w;
     clock_reads := clock_reads w; random_draws := random_draws w;
     trace := trace w |}.

Definition set_allowedOrigins (l : list string) (b : SandboxBridge) : SandboxBridge :=
  {| opts := {| allowedOrigins := l;
                messageTimeout := messageTimeout (opts b);
                maxMessageSize := maxMessageSize (opts b);
                securityLevel := securityLevel (opts b);
                debug := debug (opts b) |};
     messageHandlers := messageHandlers b;
     messageHandlers_prototype := messageHandlers_prototype b;
     globalMessageCallback := globalMessageCallback b;
     pendingResponses := pendingResponses b;
     messageCounter := messageCounter b |}.

Definition set_messageHandlers (m : gmap string handler) (b : SandboxBridge) : SandboxBridge :=
  {| opts := opts b; messageHandlers := m;
     messageHandlers_prototype := messageHandlers_prototype b;
     globalMessageCallback := globalMessageCallback b;
     pendingResponses := pendingResponses b;
     messageCounter := messageCounter b |}.

Definition set_messageHandlers_prototype (p : option handler) (b : SandboxBridge)
  : SandboxBridge :=
  {| opts := opts b; messageHandlers := messageHandlers b;
     messageHandlers_prototype := p;
     globalMessageCallback := globalMessageCallback b;
     pendingResponses := pendingResponses b;
     messageCounter := messageCounter b |}.

Definition set_globalMessageCallback (c : option callback) (b : SandboxBridge) : SandboxBridge :=
  {| opts := opts b; messageHandlers := messageHandlers b;
     messageHandlers_prototype := messageHandlers_prototype b;
     globalMessageCallback := c;
     pendingResponses := pendingResponses b;
     messageCounter := messageCounter b |}.

Definition set_pendingResponses (m : gmap string PendingResponse) (b : SandboxBridge) : SandboxBridge :=
  {| opts := opts b; messageHandlers := messageHandlers b;
     messageHandlers_prototype := messageHandlers_prototype b;
     globalMessageCallback := globalMessageCallback b;
     pendingResponses := m;
     messageCounter := messageCounter b |}.

Definition set_messageCounter (n : nat) (b : SandboxBridge) : SandboxBridge :=
  {| opts := opts b; messageHandlers := messageHandlers b;
     messageHandlers_prototype := messageHandlers_prototype b;
     globalMessageCallback := globalMessageCallback b;
     pendingResponses := pendingResponses b;
     messageCounter := n |}.

Definition set_timers (t : gmap nat timer_callback) (n : nat) (w : world) : world :=
  {| bridge := bridge w; timers := t; next_timer := n;
     promises := promises w; next_promise := next_promise w; jobs := jobs w;
     clock_reads := clock_reads w; random_draws := random_draws w;
     trace := trace w |}.

Definition set_promises (p : gmap nat promise_state) (n : nat) (w : world) : world :=
  {| bridge := bridge w; timers := timers w; next_timer := next_timer w;
     promises := p; next_promise := n; jobs := jobs w;
     clock_reads := clock_reads w; random_draws := random_draws w;
     trace := trace w |}.

Definition set_jobs (j : list reaction) (w : world) : world :=
  {| bridge := bridge w; timers := timers w; next_timer := next_timer w;
     promises := promises w; next_promise := next_promise w; jobs := j;
     clock_reads := clock_reads w; random_draws := random_draws w;
     trace := trace w |}.

Definition set_clock_reads (n : nat) (w : world) : world :=
  {| bridge := bridge w; timers := timers w; next_timer := next_timer w;
     promises := promises w; next_promise := next_promise w; jobs := jobs w;
     clock_reads := n; random_draws := random_draws w;
     trace := trace w |}.

Definition set_random_draws (n : nat) (w : world) : world :=
  {| bridge := bridge w; timers := timers w; next_timer := next_timer w;
     promises := promises w; next_promise := next_promise w; jobs := jobs w;
     clock_reads := clock_reads w; random_draws := n;
     trace := trace w |}.

Definition set_trace (t : list effect) (w : world) : world :=
  {| bridge := bridge w; timers := timers w; next_timer := next_timer w;
     promises := promises w; next_promise := next_promise w; jobs := jobs w;
     clock_reads := clock_reads w; random_draws := random_draws w;
     trace := t |}.

(** ** The monad of bridge code: state, and exceptions that keep the state *)

Inductive result (A : Type) :=
  | Ok (a : A)
  | Threw (e : exn).
Arguments Ok {A} a.
Arguments Threw {A} e.

Definition M (A : Type) : Type := world → result A * world.

Definition ret {A} (a : A) : M A := fun w => (Ok a, w).

Definition bind {A B} (m : M A) (k : A → M B) : M B :=
  fun w => match m w with
           | (Ok a, w') => k a w'
           | (Threw e, w') => (Threw e, w')
           end.

Definition throw {A} (e : exn) : M A := fun w => (Threw e, w).

(** [try { m } catch (error) { h error }] *)
Definition try_catch {A} (m : M A) (h : exn → M A) : M A :=
  fun w => match m w with
           | (Ok a, w') => (Ok a, w')
           | (Threw e, w') => h e w'
           end.

Definition gets {A} (f : world → A) : M A := fun w => (Ok (f w), w).
Definition modify (f : world → world) : M unit := fun w => (Ok tt, f w).

Declare Scope bridge_scope.
Delimit Scope bridge_scope with bridge.
Notation "x <- m ;; k" := (bind m (fun x => k))
  (at level 100, m at next level, right associativity) : bridge_scope.
Notation "'do' m ;; k" := (bind m (fun _ => k))
  (at level 100, m at next level, right associativity) : bridge_scope.
Local Open Scope bridge_scope.

Definition when (c : bool) (m : M unit) : M unit := if c then m else ret tt.

Definition emit (e : effect) : M unit :=
  modify (fun w => set_trace (trace w ++ [e]) w).

(** [if (this.options.debug) console.<level>(...)] *)
Definition debug_console (l : console_level) : M unit :=
  d <- gets (fun w => debug (opts (bridge w))) ;;
  when d (emit (EConsole l)).

(** ** Plain objects used as tables

    [table[key]] finds an own entry, or else a member every plain object
    inherits from [Object.prototype], or else nothing. *)

Definition Object_prototype_members : list string :=
  [ "constructor"; "__defineGetter__"; "__defineSetter__"; "hasOwnProperty";
    "__lookupGetter__"; "__lookupSetter__"; "isPrototypeOf";
    "propertyIsEnumerable"; "toString"; "valueOf"; "__proto__";
    "toLocaleString" ].

Inductive member (A : Type) :=
  | Own (a : A)
  | Inherited
  | Missing.
Arguments Own {A} a.
Arguments Inherited {A}.
Arguments Missing {A}.

Definition js_lookup {A} (table : gmap string A) (key : string) : member A :=
  match table !! key with
  | Some a => Own a
  | None =>
      if existsb (String.eqb key) Object_prototype_members then Inherited
      else Missing
  end.

(** ** Host services used by the bridge *)

Section Bridge.
Context `{Host}.

(** [this.messageHandlers[key]]: an own entry; or else, while the prototype
    is [Object.prototype], a member of it; or else, once a function was made
    the prototype, that function under [__proto__] and otherwise the member
    found through it. *)
Definition lookup_handler (b : SandboxBridge) (key : string) : member handler :=
  match messageHandlers b !! key with
  | Some h => Own h
  | None =>
      match messageHandlers_prototype b with
      | None =>
          if existsb (String.eqb key) Object_prototype_members then Inherited
          else Missing
      | Some f =>
          if String.eqb key "__proto__" then Own f
          else match function_member f key with
               | Some g => Own g
               | None => Missing
               end
      end
  end.

(** [Date.now()] *)
Definition date_now : M Z :=
  n <- gets clock_reads ;;
  do modify (set_clock_reads (S n)) ;;
  ret (Date_now n).

(** [Math.random().toString(36).substr(2, 9)] *)
Definition random_string : M string :=
  n <- gets random_draws ;;
  do modify (set_random_draws (S n)) ;;
  ret (random_suffix n).

(** [new UniCanvasError(code, message, details)].  The module imports
    nothing and declares no [UniCanvasError]: the name is unbound, and
    evaluating it throws a [ReferenceError] before an argument is evaluated
    and before the enclosing [throw] or call is made. *)
Definition new_UniCanvasError (code message : string) (details : value) : M exn :=
  throw ReferenceError.

(** [throw new UniCanvasError(code, message, details)] *)
Definition raise {A} (code message : string) (details : value) : M A :=
  e <- new_UniCanvasError code message details ;;
  throw e.

(** [setTimeout(callback, delay)]: a fresh handle, the timer becomes live. *)
Definition setTimeout (cb : timer_callback) (delay : Z) : M nat :=
  t <- gets next_timer ;;
  do modify (fun w => set_timers (<[t := cb]> (timers w)) (S t) w) ;;
  do emit (ESetTimeout t delay) ;;
  ret t.

(** [clearTimeout(handle)]: the timer is no longer live; no effect on a
    handle that is not live. *)
Definition clearTimeout (t : nat) : M unit :=
  do modify (fun w => set_timers (delete t (timers w)) (next_timer w) w) ;;
  emit (EClearTimeout t).

(** [new Promise(...)]: a fresh pending promise. *)
Definition new_promise : M nat :=
  p <- gets next_promise ;;
  do modify (fun w => set_promises (<[p := Pending]> (promises w)) (S p) w) ;;
  ret p.

(** Settling affects a promise only while it is pending. *)
Definition settle (p : nat) (s : promise_state) (w : world) : world :=
  match promises w !! p with
  | Some Pending => set_promises (<[p := s]> (promises w)) (next_promise w) w
  | _ => w
  end.

(** Calling the [resolve] continuation of promise [p]. *)
Definition call_resolve (p : nat) (v : value) : M unit :=
  do emit (EResolve p v) ;;
  modify (settle p (Fulfilled v)).

(** Calling the [reject] continuation of promise [p]. *)
Definition call_reject (p : nat) (e : exn) : M unit :=
  do emit (EReject p e) ;;
  modify (settle p (Rejected e)).

(** [Promise.resolve(v)] *)
Definition Promise_resolve (v : value) : M nat :=
  p <- gets next_promise ;;
  do modify (fun w => set_promises (<[p := Fulfilled v]> (promises w)) (S p) w) ;;
  ret p.

(** The second argument of [window.parent.postMessage].  An object (an
    array included) selects the form of the call that takes options: its
    [transfer] member, when there is one, has to be a sequence of objects,
    and its [targetOrigin] member is the target origin, the slash when
    there is none.  Any other value is converted to a string, and is the
    target origin. *)
Definition is_options (second : value) : bool :=
  match second with
  | VArr _ | VObj _ => true
  | _ => false
  end.

Definition transport_target (second : value) : string :=
  if is_options second then
    match get second "targetOrigin" with
    | VUndefined => "/"
    | origin => ToString origin
    end
  else ToString second.

Definition transport_transfer (second : value) : value :=
  if is_options second then get second "transfer" else VUndefined.

(** The conversion of the [transfer] member succeeds: the member is left
    out, or is an array each item of which is an object. *)
Definition transfer_converts (second : value) : bool :=
  match transport_transfer second with
  | VUndefined => true
  | VArr items => forallb is_options items
  | _ => false
  end.

(** The target origins the transport takes: the star, the slash, and what
    the URL parser accepts. *)
Definition origin_parses (text : string) : bool :=
  String.eqb text "*" || String.eqb text "/" || URL_parses text.

(** The message is serialised with what is to be transferred: no data
    object can be transferred. *)
Definition transfer_serialises (second : value) : bool :=
  match transport_transfer second with
  | VArr (_ :: _) => false
  | _ => true
  end.

(** The transport takes the call. *)
Definition target_accepted (second : value) : bool :=
  transfer_converts second && origin_parses (transport_target second)
  && transfer_serialises second.

(** What the transport throws when it does not: a [TypeError] when the
    options do not convert, or else a [SyntaxError] [DOMException] when the
    target origin does not parse, or else the [DataCloneError] of the
    serialisation. *)
Definition transport_error (second : value) : exn :=
  if negb (transfer_converts second) then TypeError
  else if negb (origin_parses (transport_target second))
       then DOMException "SyntaxError"
       else DOMException "DataCloneError".

(** [window.parent.postMessage(message, targetOrigin)]: the hand-over to the
    transport is recorded; a call the transport does not take throws, and
    nothing is handed over. *)
Definition window_parent_postMessage (message targetOrigin : value) : M unit :=
  if target_accepted targetOrigin then emit (EPostMessage message targetOrigin)
  else throw (transport_error targetOrigin).

(** ** The bridge *)

Record constructor_options := {
  given_allowedOrigins : option (list string);
  given_messageTimeout : option Z;
  given_maxMessageSize : option Z;
  given_securityLevel : option string;
  given_debug : option bool;
}.

Definition no_options : constructor_options :=
  {| given_allowedOrigins := None; given_messageTimeout := None;
     given_maxMessageSize := None; given_securityLevel := None;
     given_debug := None |}.

(** [x || d] on an optional number: absent and zero both give the default. *)
Definition or_default_Z (x : option Z) (d : Z) : Z :=
  match x with
  | Some z => if (z =? 0)%Z then d else z
  | None => d
  end.

Definition or_default_string (x : option string) (d : string) : string :=
  match x with
  | Some s => if String.eqb s "" then d else s
  | None => d
  end.

Definition initial_options (o : constructor_options) : options :=
  {| allowedOrigins := default [] (given_allowedOrigins o);
     messageTimeout := or_default_Z (given_messageTimeout o) 5000;
     maxMessageSize := or_default_Z (given_maxMessageSize o) (1024 * 1024);
     securityLevel := or_default_string (given_securityLevel o) "strict";
     debug := default false (given_debug o) |}.

(** [new SandboxBridge(options)]: empty tables, counter at zero, and the two
    diagnostic lines of a bridge in debug mode. *)
Definition new_SandboxBridge (o : constructor_options) : world :=
  {| bridge := {| opts := initial_options o;
                  messageHandlers := ∅;
                  messageHandlers_prototype := None;
                  globalMessageCallback := None;
                  pendingResponses := ∅;
                  messageCounter := 0 |};
     timers := ∅; next_timer := 0;
     promises := ∅; next_promise := 0;
     jobs := [];
     clock_reads := 0; random_draws := 0;
     trace := if default false (given_debug o)
              then [EConsole Log; EConsole Log] else [] |}.

Inductive origins_arg :=
  | NotAnArray
  | ArrayOf (origins : list string).

(** [allowOrigins(origins)] *)
Definition allowOrigins (origins : origins_arg) : M (list string) :=
  match origins with
  | NotAnArray =>
      raise "INVALID_ORIGINS" "Origins must be an array" (VObj [])
  | ArrayOf l =>
      do modify (with_bridge (fun b =>
           set_allowedOrigins (allowedOrigins (opts b) ++ l) b)) ;;
      do debug_console Log ;;
      gets (fun w => allowedOrigins (opts (bridge w)))
  end.

(** [_generateMessageId()] *)
Definition _generateMessageId : M string :=
  do modify (with_bridge (fun b => set_messageCounter (S (messageCounter b)) b)) ;;
  now <- date_now ;;
  c <- gets (fun w => messageCounter (bridge w)) ;;
  r <- random_string ;;
  ret ("msg_" ++ dec now ++ "_" ++ dec (Z.of_nat c) ++ "_" ++ r).

(** [this.pendingResponses[messageId] = entry] *)
Definition store_pending (messageId : string) (entry : PendingResponse) : M unit :=
  modify (with_bridge (fun b =>
    set_pendingResponses (<[messageId := entry]> (pendingResponses b)) b)).

(** [delete this.pendingResponses[messageId]] *)
Definition delete_pending (messageId : string) : M unit :=
  modify (with_bridge (fun b =>
    set_pendingResponses (delete messageId (pendingResponses b)) b)).

(** [postMessage(message, targetOrigin, options)], over the transport call it
    makes.  The executor of the promise runs inside the constructor: a throw
    in it rejects the promise. *)
Definition postMessage_over (transport : value → value → M unit)
    (message : value) (targetOrigin : string) (requiresResponse : bool) : M nat :=
  if negb (truthy message) || negb (typeof_object message) then
    raise "INVALID_MESSAGE" "Message must be an object" (VObj [])
  else if String.eqb targetOrigin "" then
    raise "INVALID_TARGET" "Target origin is required" (VObj [])
  else
    let messageSize := Z.of_nat (String.length (JSON_stringify message)) in
    max <- gets (fun w => maxMessageSize (opts (bridge w))) ;;
    if (max <? messageSize)%Z then
      raise "MESSAGE_TOO_LARGE"
            ("Message size (" ++ dec messageSize
             ++ " bytes) exceeds maximum allowed size (" ++ dec max ++ " bytes)")
            (VObj [])
    else
      messageId <- _generateMessageId ;;
      now <- date_now ;;
      let fullMessage :=
        VObj [ ("id", VStr messageId);
               ("timestamp", VNum (Int now));
               ("source", VStr location_origin);
               ("target", VStr targetOrigin);
               ("payload", message);
               ("requiresResponse", VBool requiresResponse) ] in
      do debug_console Log ;;
      if requiresResponse then
        p <- new_promise ;;
        do try_catch
             (delay <- gets (fun w => messageTimeout (opts (bridge w))) ;;
              timeoutId <- setTimeout
                {| timer_messageId := messageId; timer_reject := p |} delay ;;
              do store_pending messageId
                   {| resolve := p; reject := p; timeoutId := timeoutId |} ;;
              transport fullMessage (VStr targetOrigin))
             (fun e => call_reject p e) ;;
        ret p
      else
        do transport fullMessage (VStr targetOrigin) ;;
        Promise_resolve (VObj [("sent", VBool true); ("id", VStr messageId)]).

Definition postMessage := postMessage_over window_parent_postMessage.

(** [this.messageHandlers[type] = handler].  Under [__proto__] the
    assignment runs the setter every plain object inherits: the handler, a
    function, becomes the prototype of the table and no entry is added.
    Under another name the entry is written, unless the table has no entry
    of that name and inherits, from a function made its prototype, a member
    that cannot be written: the module is strict code, where that
    assignment throws. *)
Definition assign_handler (type : string) (f : handler) : M unit :=
  b <- gets bridge ;;
  if String.eqb type "__proto__" then
    modify (with_bridge (set_messageHandlers_prototype (Some f)))
  else
    match messageHandlers b !! type, messageHandlers_prototype b with
    | None, Some p =>
        if function_member_readonly p type then throw TypeError
        else modify (with_bridge (fun b =>
               set_messageHandlers (<[type := f]> (messageHandlers b)) b))
    | _, _ =>
        modify (with_bridge (fun b =>
          set_messageHandlers (<[type := f]> (messageHandlers b)) b))
    end.

(** [registerHandler(type, handler)]; [None] stands for an argument that is
    not a function. *)
Definition registerHandler (type : string) (h : option handler) : M unit :=
  match h with
  | None =>
      raise "INVALID_HANDLER" "Message handler must be a function" (VObj [])
  | Some f =>
      do assign_handler type f ;;
      debug_console Log
  end.

(** [onMessage(callback)] *)
Definition onMessage (c : option callback) : M unit :=
  match c with
  | None =>
      raise "INVALID_CALLBACK" "Message callback must be a function" (VObj [])
  | Some f =>
      do modify (with_bridge (set_globalMessageCallback (Some f))) ;;
      debug_console Log
  end.

(** [respondToMessage(messageId, responseData, { targetOrigin, status })];
    an option that is not given is [undefined]. *)
Definition respondToMessage (messageId responseData targetOrigin status : value)
  : M value :=
  if negb (truthy messageId) then
    raise "INVALID_MESSAGE_ID" "Message ID is required" (VObj [])
  else
    id <- _generateMessageId ;;
    now <- date_now ;;
    let responseMessage :=
      VObj [ ("id", VStr id);
             ("responseToId", messageId);
             ("timestamp", VNum (Int now));
             ("source", VStr location_origin);
             ("payload", responseData);
             ("isResponse", VBool true);
             ("status", js_or status (VStr "success")) ] in
    do debug_console Log ;;
    do (if truthy targetOrigin
        then window_parent_postMessage responseMessage targetOrigin
        else window_parent_postMessage responseMessage (VStr "*")) ;;
    ret responseMessage.

(** [_validateMessage(message)] *)
Definition _validateMessage (message : value) : M bool :=
  if negb (truthy message) || negb (typeof_object message) then ret false
  else if negb (truthy (get message "id")) || negb (truthy (get message "timestamp"))
          || negb (truthy (get message "source")) || negb (truthy (get message "payload"))
  then ret false
  else
    now <- date_now ;;
    let messageAge := num_sub (Int now) (ToNumber (get message "timestamp")) in
    if num_lt messageAge 0 || num_gt messageAge 60000 then ret false
    else ret true.

(** The members of a caught error.  Reading a member of [null] or
    [undefined] throws. *)
Definition error_object (e : exn) : option value :=
  match e with
  | UniCanvasError code message details timestamp =>
      Some (VObj [ ("name", VStr "UniCanvasError"); ("code", VStr code);
                   ("message", VStr message); ("details", details);
                   ("timestamp", VNum (Int timestamp)) ])
  | ReferenceError =>
      Some (VObj [ ("name", VStr "ReferenceError"); ("message", VStr engine_message) ])
  | TypeError => Some (VObj [ ("name", VStr "TypeError"); ("message", VStr engine_message) ])
  | SyntaxError => Some (VObj [ ("name", VStr "SyntaxError"); ("message", VStr engine_message) ])
  | DOMException name =>
      Some (VObj [ ("name", VStr name); ("message", VStr engine_message) ])
  | Raised VUndefined | Raised VNull => None
  | Raised v => Some v
  end.

Definition error_get (e : exn) (k : string) : M value :=
  match error_object e with
  | Some o => ret (get o k)
  | None => throw TypeError
  end.

(** The error reply both failure paths of the listener send:
    [respondToMessage(message.id, { message: error.message, details:
    error.details || {} }, { targetOrigin: message.source, status: 'error' })] *)
Definition respond_error (message : value) (error : exn) : M unit :=
  m <- error_get error "message" ;;
  d <- error_get error "details" ;;
  _ <- respondToMessage (get message "id")
         (VObj [ ("message", m); ("details", js_or d (VObj [])) ])
         (get message "source") (VStr "error") ;;
  ret tt.

(** [respondToMessage(message.id, responseData, { targetOrigin: message.source })] *)
Definition respond_success (message responseData : value) : M unit :=
  _ <- respondToMessage (get message "id") responseData
         (get message "source") VUndefined ;;
  ret tt.

Definition meta_of (message : value) : meta :=
  {| source := get message "source";
     messageId := get message "id";
     timestamp := get message "timestamp" |}.

(** [Promise.resolve(result).then(..).catch(..)]: a result that settles
    leaves a reaction to run later; a plain value fulfils at once. *)
Definition attach_reactions (message : value) (result : outcome) : M unit :=
  match result with
  | Returns v =>
      modify (fun w => set_jobs (jobs w ++ [{| settled := Fulfils v; answered := message |}]) w)
  | ReturnsPromise NeverSettles => ret tt
  | ReturnsPromise s =>
      modify (fun w => set_jobs (jobs w ++ [{| settled := s; answered := message |}]) w)
  | Throws _ => ret tt
  end.

(** Calling a handler found for the message type, and what the listener
    does with its result.  A deferred result that rejects with no reaction
    attached to it is an unhandled rejection. *)
Definition call_handler (type : string) (h : handler) (message : value) : M unit :=
  let payload := get message "payload" in
  do emit (EHandler type payload (meta_of message)) ;;
  match h payload (meta_of message) with
  | Throws e => throw (Raised e)
  | result =>
      if truthy (get message "requiresResponse") then attach_reactions message result
      else match result with
           | ReturnsPromise (Rejects e) => emit (EUnhandledRejection (Raised e))
           | _ => ret tt
           end
  end.

(** The [respond] capability handed to the catch-all callback. *)
Definition respond (message responseData : value) : M unit :=
  if truthy (get message "requiresResponse") then respond_success message responseData
  else ret tt.

Fixpoint for_each {A} (f : A → M unit) (l : list A) : M unit :=
  match l with
  | [] => ret tt
  | x :: rest => do f x ;; for_each f rest
  end.

(** Calling the catch-all callback: the calls of [respond] it makes, in
    order, then its throw if it throws; a call of [respond] that throws ends
    the run with that exception. *)
Definition call_callback (c : callback) (message : value) : M unit :=
  let payload := get message "payload" in
  do emit (ECallback payload (meta_of message)) ;;
  let run := c payload (meta_of message) in
  do for_each (respond message) (responded run) ;;
  match thrown run with
  | Some e => throw (Raised e)
  | None => ret tt
  end.

(** The branch of the listener for a response message.  What the lookup
    finds under an inherited name has no [timeoutId], [resolve] or [reject]:
    the call of the continuation throws.  For an error response the argument
    of [reject] is evaluated first, and that throws. *)
Definition handle_response (message : value) : M unit :=
  let key := ToString (get message "responseToId") in
  table <- gets (fun w => pendingResponses (bridge w)) ;;
  match js_lookup table key with
  | Missing => ret tt
  | pendingResponse =>
      do match pendingResponse with
         | Own entry => clearTimeout (timeoutId entry)
         | _ => ret tt
         end ;;
      do (if is_string (get message "status") "error" then
            e <- new_UniCanvasError "REMOTE_ERROR"
                   (ToString (js_or (get (get message "payload") "message")
                                    (VStr "Remote error")))
                   (js_or (get (get message "payload") "details") (VObj [])) ;;
            match pendingResponse with
            | Own entry => call_reject (reject entry) e
            | _ => throw TypeError
            end
          else
            match pendingResponse with
            | Own entry => call_resolve (resolve entry) (get message "payload")
            | _ => throw TypeError
            end) ;;
      delete_pending key
  end.

(** The branch of the listener for any other message. *)
Definition dispatch (message : value) : M unit :=
  try_catch
    (let messageType := get (get message "payload") "type" in
     handlers <- gets bridge ;;
     fallback <- gets (fun w => globalMessageCallback (bridge w)) ;;
     match (if truthy messageType
            then lookup_handler handlers (ToString messageType) else Missing) with
     | Own h => call_handler (ToString messageType) h message
     | Inherited =>
         call_handler (ToString messageType)
           (inherited_call (ToString messageType)) message
     | Missing =>
         match fallback with
         | Some c => call_callback c message
         | None => ret tt
         end
     end)
    (fun error =>
       do emit (EConsole Error) ;;
       if truthy (get message "requiresResponse") then respond_error message error
       else ret tt).

(** The listener installed by [_initMessageListener], run on an event with
    the given origin and data. *)
Definition on_message (origin : string) (data : value) : M unit :=
  list <- gets (fun w => allowedOrigins (opts (bridge w))) ;;
  match _isOriginAllowed list origin with
  | None => throw SyntaxError
  | Some false => debug_console Warn
  | Some true =>
      valid <- _validateMessage data ;;
      if negb valid then debug_console Warn
      else
        do debug_console Log ;;
        if truthy (get data "isResponse") && truthy (get data "responseToId")
        then handle_response data
        else dispatch data
  end.

(** The timeout callback of [postMessage], when the host fires it: the
    entry is deleted, then the argument of [reject] is evaluated. *)
Definition on_timeout (cb : timer_callback) : M unit :=
  do delete_pending (timer_messageId cb) ;;
  timeout <- gets (fun w => messageTimeout (opts (bridge w))) ;;
  e <- new_UniCanvasError "RESPONSE_TIMEOUT"
         ("Response for message " ++ timer_messageId cb ++ " timed out after "
          ++ dec timeout ++ "ms")
         (VObj []) ;;
  call_reject (timer_reject cb) e.

(** A reaction of the [then]/[catch] chain, when the host runs it: the
    success reply, the error reply if that throws or if the result rejected;
    a throw of the error reply leaves the chain rejected with no handler. *)
Definition run_reaction (r : reaction) : M unit :=
  try_catch
    (match settled r with
     | Fulfils v =>
         try_catch (respond_success (answered r) v)
                   (fun error => respond_error (answered r) error)
     | Rejects e => respond_error (answered r) (Raised e)
     | NeverSettles => ret tt
     end)
    (fun e => emit (EUnhandledRejection e)).

(** ** The bridge as a transition system

    The application calls the public methods; the host delivers message
    events, fires live timers and runs pending reactions. *)

Inductive op :=
  | CallAllowOrigins (origins : origins_arg)
  | CallPostMessage (message : value) (targetOrigin : string) (requiresResponse : bool)
  | CallRegisterHandler (type : string) (h : option handler)
  | CallOnMessage (c : option callback)
  | CallRespondToMessage (messageId responseData targetOrigin status : value)
  | MessageEvent (origin : string) (data : value)
  | TimerFires (t : nat)
  | ReactionRuns.

(** A method call: an exception goes to the caller. *)
Definition api {A} (m : M A) (w : world) : world :=
  match m w with
  | (Ok _, w') => w'
  | (Threw e, w') => set_trace (trace w' ++ [EThrown e]) w'
  end.

(** A callback run by the host: an exception has no caller to go to. *)
Definition task (m : M unit) (w : world) : world :=
  match m w with
  | (Ok _, w') => w'
  | (Threw e, w') => set_trace (trace w' ++ [EUncaught e]) w'
  end.

Definition step (w : world) (o : op) : world :=
  match o with
  | CallAllowOrigins origins => api (allowOrigins origins) w
  | CallPostMessage message targetOrigin requiresResponse =>
      api (postMessage message targetOrigin requiresResponse) w
  | CallRegisterHandler type h => api (registerHandler type h) w
  | CallOnMessage c => api (onMessage c) w
  | CallRespondToMessage messageId responseData targetOrigin status =>
      api (respondToMessage messageId responseData targetOrigin status) w
  | MessageEvent origin data => task (on_message origin data) w
  | TimerFires t =>
      match timers w !! t with
      | Some cb =>
          task (on_timeout cb) (set_timers (delete t (timers w)) (next_timer w) w)
      | None => w
      end
  | ReactionRuns =>
      match jobs w with
      | r :: rest => task (run_reaction r) (set_jobs rest w)
      | [] => w
      end
  end.

Definition run (w : world) (ops : list op) : world := fold_left step ops w.

End Bridge.

(** ** Wildcard patterns as the specification words them

    An origin is an expansion of a pattern when it is obtained from the
    pattern by replacing each star with some substring, possibly empty;
    every other character of the pattern stands for itself. *)

Inductive expands : list ascii → list ascii → Prop :=
  | expands_nil : expands [] []
  | expands_char c p o : c ≠ "*"%char → expands p o → expands (c :: p) (c :: o)
  | expands_star p x o : expands p o → expands ("*"%char :: p) (x ++ o).

Fixpoint glob_match (p s : list ascii) : bool :=
  match p with
  | [] => match s with [] => true | _ => false end
  | c :: p' =>
      if Ascii.eqb c "*"%char then
        (fix star (s : list ascii) : bool :=
           glob_match p' s || match s with [] => false | _ :: s' => star s' end) s
      else
        match s with
        | c' :: s' => Ascii.eqb c c' && glob_match p' s'
        | [] => false
        end
  end.

(** ** The fragment of the regular-expression language the patterns reach

    A source [^...$] whose body is made of literal characters, of the dot
    and of stars that follow one of them.  The dot matches any character but
    a line terminator; every other syntax character is outside the fragment. *)

Inductive atom := Lit (c : ascii) | AnyChar.

Definition syntax_character (c : ascii) : bool :=
  existsb (Ascii.eqb c) (chars "^$\.*+?()[]{}|").

Definition line_terminator (c : ascii) : bool :=
  Ascii.eqb c (Ascii.ascii_of_nat 10) || Ascii.eqb c (Ascii.ascii_of_nat 13).

Definition atom_of (c : ascii) : option atom :=
  if Ascii.eqb c "."%char then Some AnyChar
  else if syntax_character c then None
  else Some (Lit c).

Definition atom_matches (a : atom) (c : ascii) : bool :=
  match a with
  | Lit c' => Ascii.eqb c' c
  | AnyChar => negb (line_terminator c)
  end.

(** A piece is an atom, starred or not. *)
Fixpoint parse_pieces (s : list ascii) : option (list (atom * bool)) :=
  match s with
  | [] => Some []
  | c :: rest =>
      match atom_of c with
      | None => None
      | Some a =>
          match rest with
          | "*"%char :: rest' => cons (a, true) <$> parse_pieces rest'
          | _ => cons (a, false) <$> parse_pieces rest
          end
      end
  end.

Definition parse_source (source : string) : option (list (atom * bool)) :=
  match chars source with
  | "^"%char :: rest =>
      match rev rest with
      | "$"%char :: body => parse_pieces (rev body)
      | _ => None
      end
  | _ => None
  end.

Fixpoint match_pieces (r : list (atom * bool)) (s : list ascii) : bool :=
  match r with
  | [] => match s with [] => true | _ => false end
  | (a, false) :: r' =>
      match s with
      | c :: s' => atom_matches a c && match_pieces r' s'
      | [] => false
      end
  | (a, true) :: r' =>
      (fix star (s : list ascii) : bool :=
         match_pieces r' s
         || match s with
            | c :: s' => atom_matches a c && star s'
            | [] => false
            end) s
  end.

(** The verdict of the language on a source of the fragment. *)
Definition fragment_test (source s : string) : option bool :=
  (fun r => match_pieces r (chars s)) <$> parse_source source.

(** A host whose engine follows the language on the fragment. *)
Definition standard_on_fragment `{Host} : Prop :=
  ∀ source s b, fragment_test source s = Some b → RegExp_test source s = Some b.

(** ** Sizes in bytes

    The UTF-8 length of a string of code units below 256: one byte below
    128, two bytes from 128 on. *)
Definition utf8_length (s : string) : nat :=
  list_sum (map (fun c => if (Ascii.nat_of_ascii c <? 128)%nat then 1 else 2)%nat (chars s)).

(** ** A reference host

    A concrete host on which the definitions run: a clock that advances by
    one millisecond per reading, a fixed random suffix, the engine of the
    fragment, decimal numeric strings, a JSON serializer for data values,
    URLs with an [http] or [https] scheme, and function objects with the
    members of the language. *)

Definition is_digit (c : ascii) : bool :=
  (48 <=? Ascii.nat_of_ascii c)%nat && (Ascii.nat_of_ascii c <=? 57)%nat.

Definition decimal_to_number (s : string) : number :=
  if String.eqb s "" then Int 0
  else if forallb is_digit (chars s) then
    match NilEmpty.uint_of_string s with
    | Some d => Int (Z.of_uint d)
    | None => NaN
    end
  else NaN.

Definition hex_digit (n : nat) : string :=
  String.substring n 1 "0123456789abcdef".

(** A character inside a JSON string literal. *)
Definition json_escape (c : ascii) : string :=
  let n := Ascii.nat_of_ascii c in
  if (n =? 34)%nat then "\" ++ dquote
  else if (n =? 92)%nat then "\\"
  else if (n =? 8)%nat then "\b"
  else if (n =? 12)%nat then "\f"
  else if (n =? 10)%nat then "\n"
  else if (n =? 13)%nat then "\r"
  else if (n =? 9)%nat then "\t"
  else if (n <? 32)%nat then "\u00" ++ hex_digit (n / 16) ++ hex_digit (n mod 16)
  else String c "".

Definition json_quote (s : string) : string :=
  dquote ++ String.concat "" (map json_escape (chars s)) ++ dquote.

Fixpoint json_text (v : value) : string :=
  match v with
  | VUndefined => "null"
  | VNull => "null"
  | VBool true => "true"
  | VBool false => "false"
  | VNum NaN => "null"
  | VNum (Int z) => dec z
  | VStr s => json_quote s
  | VArr items => "[" ++ join_comma (map json_text items) ++ "]"
  | VObj fields =>
      "{" ++ join_comma
               ((fix members (fs : list (string * value)) : list string :=
                   match fs with
                   | [] => []
                   | (k, VUndefined) :: rest => members rest
                   | (k, x) :: rest => (json_quote k ++ ":" ++ json_text x) :: members rest
                   end) fields) ++ "}"
  end.

(** The URLs of the reference host: an [http] or [https] scheme and
    something after it. *)
Definition has_http_scheme (s : string) : bool :=
  (String.prefix "http://" s && (7 <? String.length s)%nat)
  || (String.prefix "https://" s && (8 <? String.length s)%nat).

(** The members a function object of the reference host has or inherits:
    those of [Function.prototype] and of [Object.prototype], none of which
    runs as a handler, and its own [length] and [name], taken to be falsy;
    the latter four cannot be written. *)
Definition Function_prototype_members : list string :=
  [ "apply"; "bind"; "call"; "toString"; "constructor" ].

Definition not_a_handler : handler :=
  fun _ _ => Throws (VObj [("message", VStr "not a function")]).

Definition reference_function_member (f : handler) (name : string) : option handler :=
  if existsb (String.eqb name) (Function_prototype_members ++ Object_prototype_members)
  then Some not_a_handler else None.

Definition reference_function_member_readonly (f : handler) (name : string) : bool :=
  existsb (String.eqb name) [ "length"; "name"; "arguments"; "caller" ].

#[local] Instance reference_host : Host := {|
  location_origin := "https://app.test";
  Date_now := fun n => (1700000000000 + Z.of_nat n)%Z;
  random_suffix := fun _ => "k3x9q0abc";
  RegExp_test := fragment_test;
  StringToNumber := decimal_to_number;
  StringToNumber_object := eq_refl;
  JSON_stringify := json_text;
  inherited_call := fun _ => not_a_handler;
  URL_parses := has_http_scheme;
  function_member := reference_function_member;
  function_member_readonly := reference_function_member_readonly;
  engine_message := "";
|}.

(** ** Notions used by the statements *)

(** A computation respects a relation between worlds when every run of it
    relates the world it starts in to the world it ends in. *)
Definition respects (R : relation world) {A} (m : M A) : Prop :=
  ∀ w, R w (m w).2.

Definition allowlist (w : world) : list string := allowedOrigins (opts (bridge w)).

(** The allowlist after is the allowlist before, with patterns appended. *)
Definition allowlist_grows : relation world :=
  fun w w' => ∃ l, allowlist w' = (allowlist w ++ l)%list.

(** What a dropped message leaves behind: a warning in debug mode. *)
Definition warned (w : world) : world :=
  if debug (opts (bridge w)) then set_trace (trace w ++ [EConsole Warn]) w else w.

(** ** Sizes and ages as the specification words them *)

(** The age of a message lies in the closed window of one minute. *)
Definition age_within_window `{Host} (now : Z) (timestamp : value) : Prop :=
  ∃ age, num_sub (Int now) (ToNumber timestamp) = Int age ∧ (0 ≤ age ≤ 60000)%Z.

(** A message whose timestamp is an object. *)
Definition untimed_message : value :=
  VObj [ ("id", VStr "m1"); ("timestamp", VObj []);
         ("source", VStr "https://a.test");
         ("payload", VObj [("type", VStr "ping")]) ].

(** The payload [{ k: "é" }] and its JSON text, nine code units long. *)
Definition accented_payload : value := VObj [("k", VStr (chr 233))].

Definition accented_text : string :=
  "{" ++ dquote ++ "k" ++ dquote ++ ":" ++ dquote ++ chr 233 ++ dquote ++ "}".

(** The code of a [UniCanvasError]. *)
Definition error_code (e : exn) : option string :=
  match e with
  | UniCanvasError code _ _ _ => Some code
  | _ => None
  end.

(** The envelope [postMessage] builds. *)
Definition envelope `{Host} (messageId : string) (now : Z) (targetOrigin : string)
    (message : value) (requiresResponse : bool) : value :=
  VObj [ ("id", VStr messageId);
         ("timestamp", VNum (Int now));
         ("source", VStr location_origin);
         ("target", VStr targetOrigin);
         ("payload", message);
         ("requiresResponse", VBool requiresResponse) ].

(** ** Requests in flight

    How often the continuations of promise [p] were called in a trace. *)
Fixpoint calls (p : nat) (tr : list effect) : nat :=
  match tr with
  | [] => 0
  | EResolve q _ :: rest | EReject q _ :: rest =>
      ((if (p =? q)%nat then 1 else 0) + calls p rest)%nat
  | _ :: rest => calls p rest
  end.

(** The shape of a message id, and the ids issued so far: their counter
    field is at most the counter of the bridge. *)
Definition mk_id (time : Z) (counter : nat) (suffix : string) : string :=
  "msg_" ++ dec time ++ "_" ++ dec (Z.of_nat counter) ++ "_" ++ suffix.

Definition table (w : world) : gmap string PendingResponse :=
  pendingResponses (bridge w).

Definition counter (w : world) : nat := messageCounter (bridge w).

Definition issued (w : world) (id : string) : Prop :=
  ∃ time c suffix, id = mk_id time c suffix ∧ (c ≤ counter w)%nat.

Definition no_underscore (s : string) : Prop :=
  ∀ c, c ∈ chars s → c ≠ "_"%char.

(** Entries and live timers name promises, handles and ids that exist;
    a promise that does not exist yet was never called. *)
Record well_formed (w : world) : Prop := {
  wf_table : ∀ id e, table w !! id = Some e →
      (resolve e < next_promise w)%nat ∧ (reject e < next_promise w)%nat ∧
      (timeoutId e < next_timer w)%nat ∧ issued w id;
  wf_timers : ∀ t cb, timers w !! t = Some cb →
      (t < next_timer w)%nat ∧ (timer_reject cb < next_promise w)%nat ∧
      issued w (timer_messageId cb);
  wf_fresh : ∀ p, (next_promise w ≤ p)%nat →
      calls p (trace w) = 0 ∧ promises w !! p = None;
}.

(** A request made by [postMessage]: the promise returned, the message id
    and the handle of the timeout. *)
Record request := { req_promise : nat; req_id : string; req_timer : nat }.

Definition entry_of (r : request) : PendingResponse :=
  {| resolve := req_promise r; reject := req_promise r; timeoutId := req_timer r |}.

Definition callback_of (r : request) : timer_callback :=
  {| timer_messageId := req_id r; timer_reject := req_promise r |}.

(** The request waits: no continuation was called, its entry is in the
    table, its timer is live, its promise is pending. *)
Definition in_flight (r : request) (w : world) : Prop :=
  calls (req_promise r) (trace w) = 0 ∧
  table w !! req_id r = Some (entry_of r) ∧
  timers w !! req_timer r = Some (callback_of r) ∧
  promises w !! req_promise r = Some Pending.

(** The request is over: a continuation was called once, the entry is gone
    from the table, the timer is not live, the promise is settled. *)
Definition settled_once (r : request) (w : world) : Prop :=
  calls (req_promise r) (trace w) = 1 ∧
  table w !! req_id r = None ∧
  timers w !! req_timer r = None ∧
  ∃ s, promises w !! req_promise r = Some s ∧ s ≠ Pending.

(** The request waits for good: an error response cancelled its timer
    and left its entry; no continuation was called and the promise is
    pending. *)
Definition stalled (r : request) (w : world) : Prop :=
  calls (req_promise r) (trace w) = 0 ∧
  table w !! req_id r = Some (entry_of r) ∧
  timers w !! req_timer r = None ∧
  promises w !! req_promise r = Some Pending.

(** The request is lost: its timer fired and removed the entry; no
    continuation was called and the promise is pending. *)
Definition abandoned (r : request) (w : world) : Prop :=
  calls (req_promise r) (trace w) = 0 ∧
  table w !! req_id r = None ∧
  timers w !! req_timer r = None ∧
  promises w !! req_promise r = Some Pending.

(** The request is the only owner of its id, promise and timer. *)
Record tracks (r : request) (w : world) : Prop := {
  tr_bounds : (req_promise r < next_promise w)%nat ∧
              (req_timer r < next_timer w)%nat ∧
              issued w (req_id r);
  tr_table : ∀ id e, table w !! id = Some e →
      id = req_id r ∨ resolve e = req_promise r ∨ reject e = req_promise r
      ∨ timeoutId e = req_timer r →
      id = req_id r ∧ e = entry_of r;
  tr_timers : ∀ t cb, timers w !! t = Some cb →
      t = req_timer r ∨ timer_messageId cb = req_id r
      ∨ timer_reject cb = req_promise r →
      t = req_timer r ∧ cb = callback_of r;
  tr_state : in_flight r w ∨ stalled r w ∨ settled_once r w ∨ abandoned r w;
  tr_fulfilled : ∀ e, promises w !! req_promise r ≠ Some (Rejected e);
}.

(** The states of a request follow one another in one direction: from
    waiting to fulfilled, stalled or lost; from stalled to fulfilled; a
    fulfilled request stays fulfilled and a lost one stays lost. *)
Definition advances (r : request) (w w' : world) : Prop :=
  (in_flight r w →
   in_flight r w' ∨ stalled r w' ∨ settled_once r w' ∨ abandoned r w') ∧
  (stalled r w → stalled r w' ∨ settled_once r w') ∧
  (settled_once r w → settled_once r w') ∧
  (abandoned r w → abandoned r w').

(** An effect that is no call of a continuation. *)
Definition quiet_effect (e : effect) : Prop := ∀ p, calls p [e] = 0.

(** A step that leaves the table, the timers and the promises alone and
    calls no continuation. *)
Record quiet (w w' : world) : Prop := {
  q_table : table w' = table w;
  q_timers : timers w' = timers w;
  q_next_timer : next_timer w' = next_timer w;
  q_promises : promises w' = promises w;
  q_next_promise : next_promise w' = next_promise w;
  q_counter : (counter w ≤ counter w')%nat;
  q_calls : ∀ p, calls p (trace w') = calls p (trace w);
}.

(** [promises[p]] after a call of a continuation of [p] with outcome [s]. *)
Definition settled_promises (p : nat) (s : promise_state)
    (m : gmap nat promise_state) : gmap nat promise_state :=
  match m !! p with
  | Some Pending => <[p := s]> m
  | _ => m
  end.

(** The ways the table, the timers and the promises change: a request is
    made, its promise pending, or rejected at once by the executor when the
    transport refused it; a notification is announced; a success response
    answers an entry; an error response cancels the timer of an entry and
    leaves the entry; a timer fires and removes its entry. *)
Inductive transition (w w' : world) : Prop :=
  | Quiet : quiet w w' → transition w w'
  | Requested (time : Z) (c : nat) (suffix : string) (s : promise_state) :
      let id := mk_id time c suffix in
      (counter w < c ≤ counter w')%nat →
      table w' = <[id := {| resolve := next_promise w; reject := next_promise w;
                            timeoutId := next_timer w |}]> (table w) →
      timers w' = <[next_timer w := {| timer_messageId := id;
                                       timer_reject := next_promise w |}]> (timers w) →
      next_timer w' = S (next_timer w) →
      promises w' = <[next_promise w := s]> (promises w) →
      next_promise w' = S (next_promise w) →
      (∀ v, s ≠ Fulfilled v) →
      (∀ p, calls p (trace w')
            = calls p (trace w)
              + if (p =? next_promise w)%nat
                then match s with Pending => 0 | _ => 1 end else 0)%nat →
      transition w w'
  | Announced (v : value) :
      (counter w ≤ counter w')%nat →
      table w' = table w → timers w' = timers w →
      next_timer w' = next_timer w →
      promises w' = <[next_promise w := Fulfilled v]> (promises w) →
      next_promise w' = S (next_promise w) →
      (∀ p, calls p (trace w') = calls p (trace w)) →
      transition w w'
  | Answered (key : string) (e : PendingResponse) (v : value) :
      table w !! key = Some e →
      (counter w ≤ counter w')%nat →
      table w' = delete key (table w) →
      timers w' = delete (timeoutId e) (timers w) →
      next_timer w' = next_timer w →
      promises w' = settled_promises (resolve e) (Fulfilled v) (promises w) →
      next_promise w' = next_promise w →
      (∀ p, calls p (trace w')
            = calls p (trace w) + if (p =? resolve e)%nat then 1 else 0)%nat →
      transition w w'
  | Refused (key : string) (e : PendingResponse) :
      table w !! key = Some e →
      (counter w ≤ counter w')%nat →
      table w' = table w →
      timers w' = delete (timeoutId e) (timers w) →
      next_timer w' = next_timer w →
      promises w' = promises w →
      next_promise w' = next_promise w →
      (∀ p, calls p (trace w') = calls p (trace w)) →
      transition w w'
  | TimedOut (t : nat) (cb : timer_callback) :
      timers w !! t = Some cb →
      (counter w ≤ counter w')%nat →
      table w' = delete (timer_messageId cb) (table w) →
      timers w' = delete t (timers w) →
      next_timer w' = next_timer w →
      promises w' = promises w →
      next_promise w' = next_promise w →
      (∀ p, calls p (trace w') = calls p (trace w)) →
      transition w w'.

(** A computation every run of which is one transition. *)
Definition moves {A} (m : M A) : Prop := ∀ w, transition w (m w).2.

(** ** Teardown, as the specification words it

    An operation tears the bridge down when, in every world, it leaves no
    live timer and no pending entry and rejects every entry that was pending
    with the kind [BRIDGE_CLOSED]. *)
Definition tears_down `{Host} (o : op) : Prop :=
  ∀ w, timers (step w o) = ∅ ∧ table (step w o) = ∅ ∧
       ∀ id e, table w !! id = Some e →
               ∃ err, EReject (reject e) err ∈ trace (step w o) ∧
                      error_code err = Some "BRIDGE_CLOSED".

(** What an operation or event may take out of the pending table: a
    message event, the entry its [responseToId] names, when its status is
    not 'error'; a timer that fires, the entry of its message.  And the
    timer it may stop: a message event, the timer of the entry it names; a
    timer that fires, itself. *)
Definition may_remove_entry (o : op) (w : world) (id : string) : Prop :=
  match o with
  | MessageEvent _ data =>
      ToString (get data "responseToId") = id ∧
      is_string (get data "status") "error" = false
  | TimerFires t => ∃ cb, timers w !! t = Some cb ∧ timer_messageId cb = id
  | _ => False
  end.

Definition may_stop_timer (o : op) (w : world) (t : nat) : Prop :=
  match o with
  | MessageEvent _ data =>
      ∃ e, table w !! ToString (get data "responseToId") = Some e ∧ timeoutId e = t
  | TimerFires t' => t' = t
  | _ => False
  end.

(** What stays in the table and among the timers from one world to the
    next. *)
Definition keeps_all (w w' : world) : Prop :=
  (∀ id e, table w !! id = Some e → table w' !! id = Some e) ∧
  (∀ t cb, timers w !! t = Some cb → timers w' !! t = Some cb).

(** What a response does to the table and to the timers: it takes out the
    entry it answers, stops the timer of the entry it finds, and leaves the
    rest. *)
Definition answers (data : value) (w w' : world) : Prop :=
  (table w' = table w
   ∨ is_string (get data "status") "error" = false
     ∧ table w' = delete (ToString (get data "responseToId")) (table w)) ∧
  (timers w' = timers w
   ∨ ∃ e, table w !! ToString (get data "responseToId") = Some e
          ∧ timers w' = delete (timeoutId e) (timers w)).

(** The rejections the bridge makes: those of the executor of a request
    the transport refused. *)
Definition known_effect (e : effect) : Prop :=
  match e with
  | EReject _ err => err = DOMException "SyntaxError"
  | _ => True
  end.

Definition appends_known : relation world :=
  fun w w' => ∃ l, trace w' = (trace w ++ l)%list ∧ Forall known_effect l.

(** A bridge with two requests in flight. *)
Definition two_requests `{Host} : world :=
  run (new_SandboxBridge no_options)
    [ CallPostMessage (VObj [("type", VStr "ping")]) "https://peer.test" true;
      CallPostMessage (VObj [("type", VStr "ping")]) "https://peer.test" true ].

(** ** Concrete inputs *)

(** A bridge that trusts the single origin [https://a.test]. *)
Definition trusting_a_test : constructor_options :=
  {| given_allowedOrigins := Some ["https://a.test"];
     given_messageTimeout := None; given_maxMessageSize := None;
     given_securityLevel := None; given_debug := None |}.

(** A bridge whose ceiling is nine. *)
Definition ceiling_nine : constructor_options :=
  {| given_allowedOrigins := None;
     given_messageTimeout := None; given_maxMessageSize := Some 9%Z;
     given_securityLevel := None; given_debug := None |}.

Definition ping : value := VObj [("type", VStr "ping")].

Definition pong : value := VObj [("pong", VBool true)].

(** The response a peer sends to the first request of the reference host. *)
Definition pong_response : value :=
  VObj [ ("id", VStr "r1");
         ("responseToId", VStr "msg_1700000000000_1_k3x9q0abc");
         ("timestamp", VNum (Int 1700000000000));
         ("source", VStr "https://a.test");
         ("payload", pong);
         ("isResponse", VBool true);
         ("status", VStr "success") ].

(** A handler that answers [{ pong: true }]. *)
Definition pong_handler : handler := fun _ _ => Returns pong.

(** A request of type [ping] that asks for a response. *)
Definition ping_request : value :=
  VObj [ ("id", VStr "m1"); ("timestamp", VNum (Int 1700000000000));
         ("source", VStr "https://a.test");
         ("payload", ping);
         ("requiresResponse", VBool true) ].

(** A success response to the request of the given id. *)
Definition response_to (id : string) (payload : value) : value :=
  VObj [ ("id", VStr "r"); ("responseToId", VStr id);
         ("timestamp", VNum (Int 1700000000000));
         ("source", VStr "https://a.test");
         ("payload", payload);
         ("isResponse", VBool true);
         ("status", VStr "success") ].

(** What an accepted message leaves behind before it is handled: a line in
    debug mode. *)
Definition logged (w : world) : world :=
  if debug (opts (bridge w)) then set_trace (trace w ++ [EConsole Log]) w else w.

(** [message.isResponse && message.responseToId] *)
Definition is_response (message : value) : bool :=
  truthy (get message "isResponse") && truthy (get message "responseToId").

(** The response envelope [respondToMessage] builds. *)
Definition response_envelope `{Host} (id : string) (messageId : value) (now : Z)
    (responseData status : value) : value :=
  VObj [ ("id", VStr id);
         ("responseToId", messageId);
         ("timestamp", VNum (Int now));
         ("source", VStr location_origin);
         ("payload", responseData);
         ("isResponse", VBool true);
         ("status", status) ].

(** The payload of an error reply for a thrown value. *)
Definition error_payload (e : value) : value :=
  VObj [ ("message", get e "message");
         ("details", js_or (get e "details") (VObj [])) ].

Definition nullish (v : value) : bool :=
  match v with VUndefined | VNull => true | _ => false end.

(** A handler whose deferred result rejects. *)
Definition failing_handler : handler :=
  fun _ _ => ReturnsPromise (Rejects (VObj [("message", VStr "boom")])).

(** A request of type [ping] that asks for no response. *)
Definition ping_notification `{Host} : value :=
  VObj [ ("id", VStr "m1"); ("timestamp", VNum (Int (Date_now 0)));
         ("source", VStr "https://a.test");
         ("payload", VObj [("type", VStr "ping")]);
         ("requiresResponse", VBool false) ].

(** The id [_generateMessageId] produces next. *)
Definition next_messageId `{Host} (w : world) : string :=
  "msg_" ++ dec (Date_now (clock_reads w)) ++ "_"
  ++ dec (Z.of_nat (S (messageCounter (bridge w)))) ++ "_"
  ++ random_suffix (random_draws w).

(** The request a call of [postMessage] in world [w] makes. *)
Definition request_of `{Host} (w : world) : request :=
  {| req_promise := next_promise w; req_id := next_messageId w;
     req_timer := next_timer w |}.

(** The arguments [postMessage] accepts. *)
Definition sendable `{Host} (w : world) (message : value) (targetOrigin : string) : Prop :=
  truthy message = true ∧ typeof_object message = true ∧ targetOrigin ≠ "" ∧
  (Z.of_nat (String.length (JSON_stringify message))
   ≤ maxMessageSize (opts (bridge w)))%Z.

(** The characters of a pattern that the regular-expression language reads
    as themselves, and the star. *)
Definition plain_pattern (p : list ascii) : Prop :=
  ∀ c, c ∈ p → c = "*"%char ∨ syntax_character c = false.

Definition no_line_terminator (s : list ascii) : Prop :=
  ∀ c, c ∈ s → line_terminator c = false.

Definition piece_of (c : ascii) : atom * bool :=
  if Ascii.eqb c "*"%char then (AnyChar, true) else (Lit c, false).

(** ** Timers and their entries

    Every live timer belongs to an entry of the pending table, which holds
    its handle and whose id and promise the timer carries.  An entry has its
    timer live or has none (an error response cancels the timer and leaves
    the entry); its two continuations are those of one promise, which exists
    and is not fulfilled; two entries never share a promise or a timer. *)
Record paired (w : world) : Prop := {
  pair_entry : ∀ id e, table w !! id = Some e →
      resolve e = reject e ∧
      (∃ s, promises w !! reject e = Some s ∧ ∀ v, s ≠ Fulfilled v) ∧
      (timers w !! timeoutId e = None
       ∨ timers w !! timeoutId e
         = Some {| timer_messageId := id; timer_reject := reject e |});
  pair_timer : ∀ t cb, timers w !! t = Some cb →
      table w !! timer_messageId cb
        = Some {| resolve := timer_reject cb; reject := timer_reject cb;
                  timeoutId := t |};
  pair_promise : ∀ id id' e e',
      table w !! id = Some e → table w !! id' = Some e' →
      reject e = reject e' → id = id';
  pair_handle : ∀ id id' e e',
      table w !! id = Some e → table w !! id' = Some e' →
      timeoutId e = timeoutId e' → id = id';
}.

(** ** The ids of the messages handed to the transport *)

Definition sent_ids (tr : list effect) : list value :=
  omap (fun e => match e with
                 | EPostMessage message _ => Some (get message "id")
                 | _ => None
                 end) tr.

(** An id whose counter field lies above [lo] and not above [hi]. *)
Definition numbered (lo hi : nat) (v : value) : Prop :=
  ∃ time c suffix, v = VStr (mk_id time c suffix) ∧ (lo < c ≤ hi)%nat.

(** The messages sent between two worlds carry ids that differ from each
    other and whose counter fields were reached in between. *)
Definition posts_fresh_ids : relation world :=
  fun w w' =>
    (counter w ≤ counter w')%nat ∧
    ∃ l, trace w' = (trace w ++ l)%list ∧ NoDup (sent_ids l) ∧
         Forall (numbered (counter w) (counter w')) (sent_ids l).

(** ** Method calls that fail *)

(** The arguments a method refuses before it does anything. *)
Definition refused_arguments `{Host} (o : op) (w : world) : Prop :=
  match o with
  | CallAllowOrigins origins => origins = NotAnArray
  | CallPostMessage message targetOrigin _ =>
      truthy message = false ∨ typeof_object message = false ∨ targetOrigin = ""
      ∨ (maxMessageSize (opts (bridge w))
         < Z.of_nat (String.length (JSON_stringify message)))%Z
  | CallRegisterHandler _ h => h = None
  | CallOnMessage c => c = None
  | CallRespondToMessage messageId _ _ _ => truthy messageId = false
  | _ => False
  end.

(** A call that reaches the transport, which refuses it, and that has no
    promise to reject: a notification, or a reply.  The exception is the
    one of the transport; for a notification, whose target origin is a
    string, it is the [SyntaxError] of an origin that does not parse. *)
Definition refused_by_transport `{Host} (o : op) (e : exn) : Prop :=
  match o with
  | CallPostMessage _ targetOrigin requiresResponse =>
      requiresResponse = false ∧ target_accepted (VStr targetOrigin) = false ∧
      e = DOMException "SyntaxError"
  | CallRespondToMessage _ _ targetOrigin _ =>
      let second := if truthy targetOrigin then targetOrigin else VStr "*" in
      target_accepted second = false ∧ e = transport_error second
  | _ => False
  end.

(** A registration under a name the table of handlers cannot write: it has
    no entry of that name and inherits a read-only member from the function
    that is its prototype. *)
Definition refused_by_prototype `{Host} (o : op) (w : world) : Prop :=
  match o with
  | CallRegisterHandler type (Some _) =>
      type ≠ "__proto__" ∧ messageHandlers (bridge w) !! type = None ∧
      ∃ p, messageHandlers_prototype (bridge w) = Some p ∧
           function_member_readonly p type = true
  | _ => False
  end.

Definition failure {A} (r : result A * world) : option exn :=
  match r.1 with
  | Threw e => Some e
  | Ok _ => None
  end.

(** The exception a method call raises in a world, if it raises one. *)
Definition thrown_by `{Host} (o : op) (w : world) : option exn :=
  match o with
  | CallAllowOrigins origins => failure (allowOrigins origins w)
  | CallPostMessage message targetOrigin requiresResponse =>
      failure (postMessage message targetOrigin requiresResponse w)
  | CallRegisterHandler type h => failure (registerHandler type h w)
  | CallOnMessage c => failure (onMessage c w)
  | CallRespondToMessage messageId responseData targetOrigin status =>
      failure (respondToMessage messageId responseData targetOrigin status w)
  | _ => None
  end.

(** The world after a method threw [e] and did nothing else: the caller
    saw [e]. *)
Definition after_throw (e : exn) (w : world) : world :=
  set_trace (trace w ++ [EThrown e]) w.

(** The value a notification's promise is fulfilled with. *)
Definition sent_receipt (messageId : string) : value :=
  VObj [("sent", VBool true); ("id", VStr messageId)].

(** ** Two bridges

    A bridge that trusts the origin of the reference host, and the same
    bridge with a handler for [ping]. *)
Definition trusting_app_test : constructor_options :=
  {| given_allowedOrigins := Some ["https://app.test"];
     given_messageTimeout := None; given_maxMessageSize := None;
     given_securityLevel := None; given_debug := None |}.

Definition answering_ping `{Host} : world :=
  step (new_SandboxBridge trusting_app_test)
    (CallRegisterHandler "ping" (Some pong_handler)).

(** A host whose clock stands still and whose random source repeats. *)
Definition frozen_host : Host := {|
  location_origin := "https://app.test";
  Date_now := fun _ => 1700000000000%Z;
  random_suffix := fun _ => "k3x9q0abc";
  RegExp_test := fragment_test;
  StringToNumber := decimal_to_number;
  StringToNumber_object := eq_refl;
  JSON_stringify := json_text;
  inherited_call := fun _ => not_a_handler;
  URL_parses := has_http_scheme;
  function_member := reference_function_member;
  function_member_readonly := reference_function_member_readonly;
  engine_message := "";
|}.

(** A handler that throws, and a bridge that trusts the origin of the
    reference host and answers [ping] with it. *)
Definition throwing_handler : handler :=
  fun _ _ => Throws (VObj [("message", VStr "boom")]).

Definition failing_ping `{Host} : world :=
  step (new_SandboxBridge trusting_app_test)
    (CallRegisterHandler "ping" (Some throwing_handler)).

(** ** Replies

    The replies in a trace: for each message handed to the transport, the
    request it names, its payload, its status and the origin it is addressed
    to. *)
Definition replies (tr : list effect) : list (value * value * value * value) :=
  omap (fun e => match e with
                 | EPostMessage message targetOrigin =>
                     Some (get message "responseToId", get message "payload",
                           get message "status", targetOrigin)
                 | _ => None
                 end) tr.

(** The handler the listener finds for a message, as [dispatch] looks it
    up: under the type of the payload, when that is truthy. *)
Definition routed `{Host} (message : value) (w : world) : member handler :=
  if truthy (get (get message "payload") "type")
  then lookup_handler (bridge w)
         (ToString (get (get message "payload") "type"))
  else Missing.

(** The origin a reply to a message is addressed to. *)
Definition reply_target (message : value) : value :=
  if truthy (get message "source") then get message "source" else VStr "*".

(** ** Settings

    The settings of a bridge other than the allowlist. *)
Definition same_settings : relation world :=
  fun w w' =>
    messageTimeout (opts (bridge w')) = messageTimeout (opts (bridge w)) ∧
    maxMessageSize (opts (bridge w')) = maxMessageSize (opts (bridge w)) ∧
    securityLevel (opts (bridge w')) = securityLevel (opts (bridge w)) ∧
    debug (opts (bridge w')) = debug (opts (bridge w)).

(** A catch-all callback that answers twice with the payload it was given. *)
Definition echo_twice : callback :=
  fun payload _ => {| responded := [payload; payload]; thrown := None |}.

(** An allowlist whose second pattern the engine of the fragment rejects. *)
Definition poisoned_allowlist : constructor_options :=
  {| given_allowedOrigins := Some ["https://a.test"; "https://*.b.test("];
     given_messageTimeout := None; given_maxMessageSize := None;
     given_securityLevel := None; given_debug := None |}.

(** * EventEmitter

    The class [EventEmitter] of the repository: listeners per event name,
    kept in priority order, one-shot listeners, wildcard listeners.

    Scope of the model.  Event names are strings, priorities are integers
    (an absent priority is 0).  A listener is a function reference, named by
    a number, and is modelled by its outcome on the arguments it is called
    with: it returns, or it throws a value; what it calls back into the
    emitter is an operation of its own.  The table [events] is a plain
    object: a name that [Object.prototype] defines finds the inherited
    member, not an array. *)

Module Emitter.

(** An entry of [events[event]], with its members [listener], [once] and
    [priority]. *)
Record item := { listener : nat; one_shot : bool; priority : Z }.

(** An entry of [wildcardListeners]. *)
Record wildcard_item := { w_listener : nat; w_once : bool }.

Record EventEmitter := {
  events : gmap string (list item);
  maxListeners : number;
  wildcardListeners : list wildcard_item;
}.

(** What an observer sees: the calls of listeners with their arguments, and
    the lines on the console. *)
Inductive effect :=
  | Called (listener : nat) (args : list value)
  | Warned
  | Logged (error : value).

Record state := { emitter : EventEmitter; log : list effect }.

Definition with_events (m : gmap string (list item)) (s : state) : state :=
  {| emitter := {| events := m; maxListeners := maxListeners (emitter s);
                   wildcardListeners := wildcardListeners (emitter s) |};
     log := log s |}.

Definition with_wildcardListeners (l : list wildcard_item) (s : state) : state :=
  {| emitter := {| events := events (emitter s);
                   maxListeners := maxListeners (emitter s);
                   wildcardListeners := l |};
     log := log s |}.

Definition with_log (l : list effect) (s : state) : state :=
  {| emitter := emitter s; log := l |}.

Definition say (e : effect) (s : state) : state := with_log (log s ++ [e]) s.

(** [new EventEmitter()] *)
Definition new_EventEmitter : state :=
  {| emitter := {| events := ∅; maxListeners := Int 10; wildcardListeners := [] |};
     log := [] |}.

(** [new Error(message)] *)
Definition Error_object (message : string) : value :=
  VObj [("name", VStr "Error"); ("message", VStr message)].

(** The [length] of the member of that name which a plain object inherits:
    the arity of the function; the prototype itself, found under
    [__proto__], has none. *)
Definition inherited_length (name : string) : number :=
  if String.eqb name "__proto__" then NaN
  else if existsb (String.eqb name) ["__defineGetter__"; "__defineSetter__"] then Int 2
  else if existsb (String.eqb name) ["toString"; "valueOf"; "toLocaleString"] then Int 0
  else Int 1.

(** [a >= b] on numbers: every comparison with [NaN] is false. *)
Definition num_ge (a b : number) : bool :=
  match a, b with
  | Int x, Int y => (y <=? x)%Z
  | _, _ => false
  end.

(** [array.sort((a, b) => b.priority - a.priority)]: the sort is stable, so
    the result is the one permutation in descending priority that keeps the
    order of entries of equal priority. *)
Fixpoint insert_item (x : item) (l : list item) : list item :=
  match l with
  | [] => [x]
  | y :: l' =>
      if (priority x <? priority y)%Z then y :: insert_item x l'
      else x :: y :: l'
  end.

Definition sort_items (l : list item) : list item := foldr insert_item [] l.

Record on_options := { opt_once : bool; opt_priority : Z }.

Definition no_on_options : on_options := {| opt_once := false; opt_priority := 0 |}.

(** [on(event, listener, options)]; [None] stands for a listener that is
    not a function. *)
Definition on (event : string) (l : option nat) (o : on_options) (s : state)
  : result unit * state :=
  match l with
  | None => (Threw (Raised (Error_object "Event listener must be a function")), s)
  | Some f =>
      if String.eqb event "*" then
        (Ok tt, with_wildcardListeners
                  (wildcardListeners (emitter s)
                   ++ [{| w_listener := f; w_once := opt_once o |}]) s)
      else
        match js_lookup (events (emitter s)) event with
        | Inherited =>
            (* the member is truthy: no array is made, and it has no [push] *)
            (Threw TypeError,
             if num_ge (inherited_length event) (maxListeners (emitter s))
             then say Warned s else s)
        | found =>
            let array := match found with Own a => a | _ => [] end in
            let s1 := if num_ge (Int (Z.of_nat (length array))) (maxListeners (emitter s))
                      then say Warned s else s in
            (Ok tt,
             with_events
               (<[event := sort_items
                             (array ++ [{| listener := f; one_shot := opt_once o;
                                           priority := opt_priority o |}])]>
                  (events (emitter s))) s1)
        end
  end.

(** [once(event, listener, options)] *)
Definition once (event : string) (l : option nat) (o : on_options) (s : state)
  : result unit * state :=
  on event l {| opt_once := true; opt_priority := opt_priority o |} s.

(** [off(event, listener)]; [None] stands for a listener that is not
    given. *)
Definition off (event : string) (l : option nat) (s : state) : result unit * state :=
  if String.eqb event "*" then
    match l with
    | Some f =>
        (Ok tt, with_wildcardListeners
                  (filter (fun it => w_listener it ≠ f) (wildcardListeners (emitter s))) s)
    | None => (Ok tt, with_wildcardListeners [] s)
    end
  else
    match js_lookup (events (emitter s)) event with
    | Missing => (Ok tt, s)
    | Inherited =>
        match l with
        | Some _ => (Threw TypeError, s)
        | None => (Ok tt, s)
        end
    | Own array =>
        match l with
        | Some f =>
            (Ok tt, with_events
                      (<[event := filter (fun it => listener it ≠ f) array]>
                         (events (emitter s))) s)
        | None => (Ok tt, with_events (delete event (events (emitter s))) s)
        end
    end.

Section Listeners.

(** The outcome of a listener on its arguments: [None] when it returns,
    the value thrown when it throws. *)
Variable behaviour : nat → list value → option value.

(** [try { listener(...args) } catch (error) { console.error(..., error) }] *)
Definition call (f : nat) (args : list value) (s : state) : state :=
  let s1 := say (Called f args) s in
  match behaviour f args with
  | Some e => say (Logged e) s1
  | None => s1
  end.

(** The loop of [emit] over the copy of the listeners of the event. *)
Fixpoint call_each (event : string) (data : value) (copy : list item) (s : state)
  : result unit * state :=
  match copy with
  | [] => (Ok tt, s)
  | it :: rest =>
      let s1 := call (listener it) [data] s in
      if one_shot it then
        match off event (Some (listener it)) s1 with
        | (Ok _, s2) => call_each event data rest s2
        | (Threw e, s2) => (Threw e, s2)
        end
      else call_each event data rest s1
  end.

(** [array.splice(array.indexOf(item), 1)], when the item is found. *)
Fixpoint remove_first (x : wildcard_item) (l : list wildcard_item) : list wildcard_item :=
  match l with
  | [] => []
  | y :: l' =>
      if decide (w_listener y = w_listener x ∧ w_once y = w_once x) then l'
      else y :: remove_first x l'
  end.

(** The loop of [emit] over the copy of the wildcard listeners. *)
Fixpoint call_each_wildcard (event : string) (data : value)
    (copy : list wildcard_item) (s : state) : state :=
  match copy with
  | [] => s
  | it :: rest =>
      let s1 := call (w_listener it) [VStr event; data] s in
      let s2 := if w_once it
                then with_wildcardListeners
                       (remove_first it (wildcardListeners (emitter s1))) s1
                else s1 in
      call_each_wildcard event data rest s2
  end.

(** [emit(event, data)] *)
Definition emit (event : string) (data : value) (s : state) : result bool * state :=
  match js_lookup (events (emitter s)) event with
  | Inherited => (Threw TypeError, s)   (* the member is truthy and not iterable *)
  | found =>
      let array := match found with Own a => a | _ => [] end in
      let hasListeners :=
        negb (length array =? 0)%nat
        || negb (length (wildcardListeners (emitter s)) =? 0)%nat in
      match call_each event data array s with
      | (Threw e, s1) => (Threw e, s1)
      | (Ok _, s1) =>
          (Ok hasListeners,
           call_each_wildcard event data (wildcardListeners (emitter s1)) s1)
      end
  end.

End Listeners.

(** [listeners(event)] *)
Definition listeners (event : string) (s : state) : result (list nat) :=
  if String.eqb event "*" then Ok (map w_listener (wildcardListeners (emitter s)))
  else match js_lookup (events (emitter s)) event with
       | Own array => Ok (map listener array)
       | Inherited => Threw TypeError
       | Missing => Ok []
       end.

(** [listenerCount(event)]; under an inherited name the result is the
    [length] of the member, or [undefined]. *)
Definition listenerCount (event : string) (s : state) : value :=
  if String.eqb event "*"
  then VNum (Int (Z.of_nat (length (wildcardListeners (emitter s)))))
  else match js_lookup (events (emitter s)) event with
       | Own array => VNum (Int (Z.of_nat (length array)))
       | Inherited =>
           match inherited_length event with
           | NaN => VUndefined
           | n => VNum n
           end
       | Missing => VNum (Int 0)
       end.

(** [setMaxListeners(n)] *)
Definition setMaxListeners (n : number) (s : state) : state :=
  {| emitter := {| events := events (emitter s); maxListeners := n;
                   wildcardListeners := wildcardListeners (emitter s) |};
     log := log s |}.

(** [removeAllListeners(event)]; an event that is not given, and the empty
    name, are falsy. *)
Definition removeAllListeners (event : option string) (s : state) : state :=
  match event with
  | Some e =>
      if String.eqb e "" then with_wildcardListeners [] (with_events ∅ s)
      else with_events (delete e (events (emitter s))) s
  | None => with_wildcardListeners [] (with_events ∅ s)
  end.

(** The operations of the application on an emitter. *)
Inductive op :=
  | On (event : string) (l : option nat) (o : on_options)
  | Once (event : string) (l : option nat) (o : on_options)
  | Off (event : string) (l : option nat)
  | Emit (event : string) (data : value)
  | SetMaxListeners (n : number)
  | RemoveAllListeners (event : option string).

Definition step (behaviour : nat → list value → option value) (s : state) (o : op)
  : state :=
  match o with
  | On event l o => (on event l o s).2
  | Once event l o => (once event l o s).2
  | Off event l => (off event l s).2
  | Emit event data => (emit behaviour event data s).2
  | SetMaxListeners n => setMaxListeners n s
  | RemoveAllListeners event => removeAllListeners event s
  end.

Definition run (behaviour : nat → list value → option value) (s : state)
    (ops : list op) : state :=
  fold_left (step behaviour) ops s.

(** The entries of an event are in descending priority. *)
Fixpoint descending (l : list item) : Prop :=
  match l with
  | [] => True
  | x :: l' => Forall (fun y => (priority y ≤ priority x)%Z) l' ∧ descending l'
  end.

(** The functions of the one-shot entries of a list. *)
Definition one_shot_listeners (l : list item) : list nat :=
  map listener (filter (fun it => one_shot it = true) l).

(** What a call of a listener leaves in the log. *)
Definition reports (behaviour : nat → list value → option value)
    (f : nat) (args : list value) : list effect :=
  Called f args :: match behaviour f args with
                   | Some e => [Logged e]
                   | None => []
                   end.

(** What holds of every emitter: the entries of an event are in descending
    priority, and neither a name that plain objects inherit nor the star is
    a key of [events]. *)
Record well_kept (s : state) : Prop := {
  kept_order : ∀ event array, events (emitter s) !! event = Some array →
      descending array;
  kept_names : ∀ event, event ∈ Object_prototype_members →
      events (emitter s) !! event = None;
  kept_star : events (emitter s) !! "*" = None;
}.

(** The listeners called in a log, in order. *)
Definition called (l : list effect) : list nat :=
  omap (fun e => match e with Called f _ => Some f | _ => None end) l.

(** Listeners of which the second throws. *)
Definition second_throws : nat → list value → option value :=
  fun f _ => if (f =? 2)%nat then Some (VStr "boom") else None.

(** Three registrations for [tick], of which listener 2 is one-shot and of
    priority 5, and a one-shot wildcard listener. *)
Definition registrations : list op :=
  [ On "tick" (Some 1) no_on_options;
    On "tick" (Some 2) {| opt_once := true; opt_priority := 5 |};
    On "tick" (Some 3) no_on_options;
    On "*" (Some 4) {| opt_once := true; opt_priority := 0 |} ].

End Emitter.

(** * GlobalResourceHub

    The class [GlobalResourceHub] of the repository: four registries (style
    variables, components, scripts, data models) and the access rule of
    each.

    Scope of the model.  The getters are called with a string id.  The
    [permissions] object holds a boolean and an array of strings.  Dates
    and functions are objects none of whose members the hub reads; they are
    represented by objects that hold an internal slot.  Each registry is a
    plain object: a read of a name finds an own entry, or else a member of
    the prototype, and an assignment to [__proto__] replaces the prototype
    and adds no entry.  The inheritance configuration, which no registry
    reads, is left out.  The module is embedded as it stands: it imports
    nothing, so the name [UniCanvasError] is bound to no class in it. *)

Module Hub.

(** A plain object with its prototype: [None] is [Object.prototype], [Some
    p] is the object [p] that an assignment to [__proto__] put in its
    place. *)
Record js_object := { own : gmap string value; proto : option value }.

Definition empty_object : js_object := {| own := ∅; proto := None |}.

(** A member of [Object.prototype], or [Object.prototype] itself: an
    object without the members the hub reads. *)
Definition inherited_member : value := VObj [].

(** [object[key]] *)
Definition read (object : js_object) (key : string) : value :=
  if String.eqb key "__proto__" then default inherited_member (proto object)
  else
    match own object !! key with
    | Some v => v
    | None =>
        match (match proto object with
               | Some (VObj fields) => assoc key fields
               | _ => None
               end) with
        | Some v => v
        | None =>
            if existsb (String.eqb key) Object_prototype_members
            then inherited_member else VUndefined
        end
    end.

(** [object[key] = entry], for an entry that is an object *)
Definition assign (object : js_object) (key : string) (entry : value) : js_object :=
  if String.eqb key "__proto__" then {| own := own object; proto := Some entry |}
  else {| own := <[key := entry]> (own object); proto := proto object |}.

(** [Object.keys(object).length] *)
Definition count_keys (object : js_object) : Z := Z.of_nat (size (own object)).

(** [new Date()] at the given time, and a function of the given name. *)
Definition Date_object (time : Z) : value := VObj [("[[DateValue]]", VNum (Int time))].
Definition Function_object (f : nat) : value :=
  VObj [("[[Call]]", VNum (Int (Z.of_nat f)))].

Record Permissions := { allowGlobalAccess : bool; restrictedVars : list string }.

Record GlobalResourceHub := {
  styleVariables : js_object;
  components : js_object;
  scripts : js_object;
  dataModels : js_object;
  permissions : Permissions;
}.

(** The hub and the number of readings of the clock made so far. *)
Record state := { hub : GlobalResourceHub; reads : nat }.

Definition with_styleVariables (t : js_object) (p : Permissions) (n : nat) (s : state)
  : state :=
  {| hub := {| styleVariables := t; components := components (hub s);
               scripts := scripts (hub s); dataModels := dataModels (hub s);
               permissions := p |};
     reads := n |}.

Definition with_components (t : js_object) (n : nat) (s : state) : state :=
  {| hub := {| styleVariables := styleVariables (hub s); components := t;
               scripts := scripts (hub s); dataModels := dataModels (hub s);
               permissions := permissions (hub s) |};
     reads := n |}.

Definition with_scripts (t : js_object) (n : nat) (s : state) : state :=
  {| hub := {| styleVariables := styleVariables (hub s);
               components := components (hub s);
               scripts := t; dataModels := dataModels (hub s);
               permissions := permissions (hub s) |};
     reads := n |}.

Definition with_dataModels (t : js_object) (n : nat) (s : state) : state :=
  {| hub := {| styleVariables := styleVariables (hub s);
               components := components (hub s);
               scripts := scripts (hub s); dataModels := t;
               permissions := permissions (hub s) |};
     reads := n |}.

(** The options of a registration; an option that is not given is
    [undefined]. *)
Record register_options := {
  given_scope : value;
  given_access : value;
  given_metadata : value;
  given_sandbox : value;
}.

Definition no_register_options : register_options :=
  {| given_scope := VUndefined; given_access := VUndefined;
     given_metadata := VUndefined; given_sandbox := VUndefined |}.

(** A script is a value or a function. *)
Inductive script_content :=
  | ScriptValue (v : value)
  | ScriptFunction (f : nat).

Section Registries.
Context `{Host}.

(** [throw new UniCanvasError(code, message)]: the name [UniCanvasError]
    is unbound, so its evaluation throws a [ReferenceError], before the
    arguments are looked at and before the [throw]. *)
Definition fail {A} (code message : string) (s : state) : result A * state :=
  (Threw ReferenceError, s).

(** [!id || typeof id !== 'string'] *)
Definition valid_id (id : value) : option string :=
  match id with
  | VStr name => if String.eqb name "" then None else Some name
  | _ => None
  end.

(** The members every entry has, after those of its kind. *)
Definition entry (content : list (string * value)) (o : register_options) (s : state)
  : value :=
  VObj (content
        ++ [ ("scope", js_or (given_scope o) (VStr "global"));
             ("access", js_or (given_access o) (VStr "public"));
             ("metadata", js_or (given_metadata o) (VObj []));
             ("createdAt", Date_object (Date_now (reads s)));
             ("updatedAt", Date_object (Date_now (S (reads s)))) ]).

(** [registerStyleVariable(id, value, options)] *)
Definition registerStyleVariable (id v : value) (o : register_options) (s : state)
  : result string * state :=
  match valid_id id with
  | None => fail "INVALID_ID" "Style variable ID must be a string" s
  | Some name =>
      let p := permissions (hub s) in
      let p' :=
        if is_string (js_or (given_access o) (VStr "public")) "restricted"
           && negb (allowGlobalAccess p)
        then {| allowGlobalAccess := allowGlobalAccess p;
                restrictedVars := restrictedVars p ++ [name] |}
        else p in
      (Ok name,
       with_styleVariables
         (assign (styleVariables (hub s)) name (entry [("value", v)] o s))
         p' (S (S (reads s))) s)
  end.

(** [getStyleVariable(id, { bypassRestriction })] *)
Definition getStyleVariable (id : string) (bypassRestriction : bool) (s : state)
  : result value * state :=
  let variable := read (styleVariables (hub s)) id in
  if negb (truthy variable) then (Ok VNull, s)
  else if is_string (get variable "access") "restricted"
          && existsb (String.eqb id) (restrictedVars (permissions (hub s)))
          && negb bypassRestriction
  then fail "ACCESS_DENIED" ("Access to restricted variable " ++ id ++ " denied") s
  else (Ok (get variable "value"), s).

(** [registerComponent(id, component, options)] *)
Definition registerComponent (id component : value) (o : register_options) (s : state)
  : result string * state :=
  match valid_id id with
  | None => fail "INVALID_ID" "Component ID must be a string" s
  | Some name =>
      if negb (truthy component) || negb (typeof_object component) then
        fail "INVALID_COMPONENT" "Component must be an object" s
      else
        (Ok name,
         with_components
           (assign (components (hub s)) name (entry [("definition", component)] o s))
           (S (S (reads s))) s)
  end.

(** [getComponent(id, { bypassRestriction })] *)
Definition getComponent (id : string) (bypassRestriction : bool) (s : state)
  : result value * state :=
  let component := read (components (hub s)) id in
  if negb (truthy component) then (Ok VNull, s)
  else if is_string (get component "access") "restricted" && negb bypassRestriction
  then fail "ACCESS_DENIED" ("Access to restricted component " ++ id ++ " denied") s
  else (Ok (get component "definition"), s).

(** [!script || (typeof script !== 'string' && typeof script !== 'function')] *)
Definition valid_script (script : script_content) : option value :=
  match script with
  | ScriptValue (VStr text) => if String.eqb text "" then None else Some (VStr text)
  | ScriptValue _ => None
  | ScriptFunction f => Some (Function_object f)
  end.

(** [registerScript(id, script, options)] *)
Definition registerScript (id : value) (script : script_content)
    (o : register_options) (s : state) : result string * state :=
  match valid_id id with
  | None => fail "INVALID_ID" "Script ID must be a string" s
  | Some name =>
      match valid_script script with
      | None => fail "INVALID_SCRIPT" "Script must be a string or function" s
      | Some content =>
          let executeInSandbox :=
            match given_sandbox o with VBool false => false | _ => true end in
          (Ok name,
           with_scripts
             (assign (scripts (hub s)) name
                (VObj [ ("content", content);
                        ("scope", js_or (given_scope o) (VStr "global"));
                        ("access", js_or (given_access o) (VStr "public"));
                        ("sandbox", VBool executeInSandbox);
                        ("metadata", js_or (given_metadata o) (VObj []));
                        ("createdAt", Date_object (Date_now (reads s)));
                        ("updatedAt", Date_object (Date_now (S (reads s)))) ]))
             (S (S (reads s))) s)
      end
  end.

(** [getScript(id, { bypassRestriction })] *)
Definition getScript (id : string) (bypassRestriction : bool) (s : state)
  : result value * state :=
  let script := read (scripts (hub s)) id in
  if negb (truthy script) then (Ok VNull, s)
  else if is_string (get script "access") "restricted" && negb bypassRestriction
  then fail "ACCESS_DENIED" ("Access to restricted script " ++ id ++ " denied") s
  else (Ok (get script "content"), s).

(** [registerDataModel(id, dataModel, options)] *)
Definition registerDataModel (id dataModel : value) (o : register_options) (s : state)
  : result string * state :=
  match valid_id id with
  | None => fail "INVALID_ID" "Data model ID must be a string" s
  | Some name =>
      if negb (truthy dataModel) || negb (typeof_object dataModel) then
        fail "INVALID_DATA_MODEL" "Data model must be an object" s
      else
        (Ok name,
         with_dataModels
           (assign (dataModels (hub s)) name (entry [("schema", dataModel)] o s))
           (S (S (reads s))) s)
  end.

(** [getDataModel(id, { bypassRestriction })] *)
Definition getDataModel (id : string) (bypassRestriction : bool) (s : state)
  : result value * state :=
  let dataModel := read (dataModels (hub s)) id in
  if negb (truthy dataModel) then (Ok VNull, s)
  else if is_string (get dataModel "access") "restricted" && negb bypassRestriction
  then fail "ACCESS_DENIED" ("Access to restricted data model " ++ id ++ " denied") s
  else (Ok (get dataModel "schema"), s).

(** [getResourceStats()] *)
Definition getResourceStats (s : state) : value :=
  VObj [ ("styleVariables", VNum (Int (count_keys (styleVariables (hub s)))));
         ("components", VNum (Int (count_keys (components (hub s)))));
         ("scripts", VNum (Int (count_keys (scripts (hub s)))));
         ("dataModels", VNum (Int (count_keys (dataModels (hub s)))));
         ("restrictedCount",
          VNum (Int (Z.of_nat (length (restrictedVars (permissions (hub s))))))) ].

Definition built_in (description : string) : register_options :=
  {| given_scope := VStr "system"; given_access := VStr "public";
     given_metadata := VObj [("description", VStr description)];
     given_sandbox := VUndefined |}.

(** [_initBuiltInVariables()] *)
Definition _initBuiltInVariables (s : state) : state :=
  let s1 := (registerStyleVariable (VStr "--unicanvas-primary-color")
               (VStr "#3498db") (built_in "Primary theme color") s).2 in
  let s2 := (registerStyleVariable (VStr "--unicanvas-secondary-color")
               (VStr "#2ecc71") (built_in "Secondary theme color") s1).2 in
  (registerStyleVariable (VStr "--unicanvas-text-color")
     (VStr "#333333") (built_in "Default text color") s2).2.

(** [new GlobalResourceHub({ permissions })]; permissions that are not given
    allow no global access and restrict nothing. *)
Definition new_GlobalResourceHub (given_permissions : option Permissions) : state :=
  _initBuiltInVariables
    {| hub := {| styleVariables := empty_object; components := empty_object;
                 scripts := empty_object; dataModels := empty_object;
                 permissions :=
                   default {| allowGlobalAccess := false; restrictedVars := [] |}
                     given_permissions |};
       reads := 0 |}.

(** The operations of the application on a hub. *)
Inductive op :=
  | RegisterStyleVariable (id v : value) (o : register_options)
  | GetStyleVariable (id : string) (bypassRestriction : bool)
  | RegisterComponent (id component : value) (o : register_options)
  | GetComponent (id : string) (bypassRestriction : bool)
  | RegisterScript (id : value) (script : script_content) (o : register_options)
  | GetScript (id : string) (bypassRestriction : bool)
  | RegisterDataModel (id dataModel : value) (o : register_options)
  | GetDataModel (id : string) (bypassRestriction : bool).

Definition step (s : state) (o : op) : state :=
  match o with
  | RegisterStyleVariable id v o => (registerStyleVariable id v o s).2
  | GetStyleVariable id b => (getStyleVariable id b s).2
  | RegisterComponent id c o => (registerComponent id c o s).2
  | GetComponent id b => (getComponent id b s).2
  | RegisterScript id c o => (registerScript id c o s).2
  | GetScript id b => (getScript id b s).2
  | RegisterDataModel id d o => (registerDataModel id d o s).2
  | GetDataModel id b => (getDataModel id b s).2
  end.

Definition run (s : state) (ops : list op) : state := fold_left step ops s.

End Registries.

(** The access a registration asks for is restricted. *)
Definition restricted (o : register_options) : bool :=
  is_string (js_or (given_access o) (VStr "public")) "restricted".

(** Two answers of a getter agree: the same value, or the same
    exception. *)
Definition same_answer (r r' : result value) : Prop :=
  match r, r' with
  | Ok v, Ok v' => v = v'
  | Threw e, Threw e' => e = e'
  | _, _ => False
  end.

(** The name under which an operation registers, when it is a registration
    with an id that is accepted. *)
Definition registers (o : op) : option string :=
  match o with
  | RegisterStyleVariable id _ _ | RegisterComponent id _ _
  | RegisterScript id _ _ | RegisterDataModel id _ _ => valid_id id
  | _ => None
  end.

(** The four registries. *)
Definition registries (s : state) : list js_object :=
  [ styleVariables (hub s); components (hub s); scripts (hub s); dataModels (hub s) ].

(** A registry keeps its keys. *)
Definition keeps_keys (t t' : js_object) : Prop :=
  (∀ k, is_Some (own t !! k) → is_Some (own t' !! k)) ∧
  (size (own t) ≤ size (own t'))%nat.

(** Nothing is unregistered between two states: every registry keeps its
    keys, the list of restricted names is extended, and the hub allows
    global access as it did. *)
Record grows (s s' : state) : Prop := {
  grows_styleVariables : keeps_keys (styleVariables (hub s)) (styleVariables (hub s'));
  grows_components : keeps_keys (components (hub s)) (components (hub s'));
  grows_scripts : keeps_keys (scripts (hub s)) (scripts (hub s'));
  grows_dataModels : keeps_keys (dataModels (hub s)) (dataModels (hub s'));
  grows_restrictedVars :
    ∃ l, restrictedVars (permissions (hub s'))
         = (restrictedVars (permissions (hub s)) ++ l)%list;
  grows_allowGlobalAccess :
    allowGlobalAccess (permissions (hub s')) = allowGlobalAccess (permissions (hub s));
}.

(** The exception an operation raises in a state, if it raises one. *)
Definition raised {A} (r : result A * state) : option exn :=
  match r.1 with
  | Threw e => Some e
  | Ok _ => None
  end.

Definition thrown_by `{Host} (o : op) (s : state) : option exn :=
  match o with
  | RegisterStyleVariable id v o => raised (registerStyleVariable id v o s)
  | GetStyleVariable id b => raised (getStyleVariable id b s)
  | RegisterComponent id c o => raised (registerComponent id c o s)
  | GetComponent id b => raised (getComponent id b s)
  | RegisterScript id c o => raised (registerScript id c o s)
  | GetScript id b => raised (getScript id b s)
  | RegisterDataModel id d o => raised (registerDataModel id d o s)
  | GetDataModel id b => raised (getDataModel id b s)
  end.

(** No registry had its prototype replaced. *)
Definition plain (s : state) : Prop :=
  Forall (fun t => proto t = None) (registries s).

(** The names of the built-in variables. *)
Definition built_in_names : list string :=
  [ "--unicanvas-primary-color"; "--unicanvas-secondary-color";
    "--unicanvas-text-color" ].

End Hub.

(** * UniCanvasError and ErrorHandler

    The error class the bridge and the hub throw, as an object, and the
    class [ErrorHandler] that records and reports errors.

    Scope of the model.  An instance of [UniCanvasError] is an object in a
    store, named by a reference: the handler changes its [details] in place
    and keeps references to it.  A listener is a function reference, named
    by a number, and is modelled by its outcome on the error it is given: it
    returns, or it throws a value; what it calls back into the handler is an
    operation of its own.  Limits are integers. *)

Module ErrorHandling.

(** The members the constructor of [UniCanvasError] sets. *)
Record error_object := {
  name : string;
  code : value;
  message : string;
  details : value;
  timestamp : Z;
}.

Record ErrorHandler := {
  errorListeners : list nat;
  errorHistory : list nat;
  maxHistorySize : Z;
}.

(** What an observer sees: the calls of listeners, and the lines on the
    console. *)
Inductive effect :=
  | Notified (listener : nat) (error : nat)
  | Logged (thrown : value).

Record state := {
  store : gmap nat error_object;
  next_error : nat;
  handler : ErrorHandler;
  reads : nat;
  log : list effect;
}.

Definition with_handler (h : ErrorHandler) (s : state) : state :=
  {| store := store s; next_error := next_error s; handler := h;
     reads := reads s; log := log s |}.

Definition with_log (l : list effect) (s : state) : state :=
  {| store := store s; next_error := next_error s; handler := handler s;
     reads := reads s; log := l |}.

(** What a method throws: an instance of [UniCanvasError], or the
    [TypeError] of the engine. *)
Inductive thrown := ErrorRef (r : nat) | EngineTypeError.

Inductive answer (A : Type) :=
  | Returned (a : A)
  | Thrown (t : thrown).
Arguments Returned {A} a.
Arguments Thrown {A} t.

(** [new ErrorHandler()] *)
Definition new_ErrorHandler : state :=
  {| store := ∅; next_error := 0;
     handler := {| errorListeners := []; errorHistory := []; maxHistorySize := 50 |};
     reads := 0; log := [] |}.

(** What the handler is given: an instance of [UniCanvasError], or
    anything else. *)
Inductive handled := Instance (r : nat) | Other (v : value).

(** [{ ...fields, key: v }] on the members of an object: the member is
    replaced where it stands, or added at the end. *)
Fixpoint put (key : string) (v : value) (fields : list (string * value))
  : list (string * value) :=
  match fields with
  | [] => [(key, v)]
  | (k, x) :: rest =>
      if String.eqb key k then (k, v) :: rest else (k, x) :: put key v rest
  end.

Fixpoint indexed (i : nat) (items : list value) : list (string * value) :=
  match items with
  | [] => []
  | x :: rest => (dec (Z.of_nat i), x) :: indexed (S i) rest
  end.

(** The own enumerable members [{ ...v }] copies: those of an object, the
    elements of an array, the characters of a string, and nothing of any
    other value. *)
Definition spread (v : value) : list (string * value) :=
  match v with
  | VObj fields => fields
  | VArr items => indexed 0 items
  | VStr s => indexed 0 (map (fun c => VStr (String c EmptyString)) (chars s))
  | _ => []
  end.

Section Handler.
Context `{Host}.

(** [new UniCanvasError(code, message, details)]: a message that is not
    given leaves the empty message of [Error.prototype]; details that are
    not given are [{}]. *)
Definition new_UniCanvasError (code message details : value) (s : state) : nat * state :=
  let r := next_error s in
  (r,
   {| store := <[r := {| name := "UniCanvasError"; code := code;
                         message := match message with
                                    | VUndefined => ""
                                    | m => ToString m
                                    end;
                         details := match details with
                                    | VUndefined => VObj []
                                    | d => d
                                    end;
                         timestamp := Date_now (reads s) |}]> (store s);
      next_error := S r; handler := handler s; reads := S (reads s);
      log := log s |}).

(** [error.format()] *)
Definition format (e : error_object) : string :=
  "[" ++ ToString (code e) ++ "] " ++ message e.

(** [error.toJSON()] *)
Definition toJSON (e : error_object) : value :=
  VObj [ ("name", VStr (name e)); ("code", code e); ("message", VStr (message e));
         ("details", details e); ("timestamp", VNum (Int (timestamp e))) ].

(** [_addToHistory(error)] *)
Definition _addToHistory (r : nat) (s : state) : state :=
  let h := handler s in
  let history := r :: errorHistory h in
  with_handler
    {| errorListeners := errorListeners h;
       errorHistory := if (maxHistorySize h <? Z.of_nat (length history))%Z
                       then removelast history else history;
       maxHistorySize := maxHistorySize h |} s.

Section Listeners.

(** The outcome of a listener on the error it is given: [None] when it
    returns, the value thrown when it throws. *)
Variable behaviour : nat → error_object → option value.

(** [_notifyListeners(error)] *)
Definition _notifyListeners (r : nat) (e : error_object) (s : state) : state :=
  with_log
    (log s ++ flat_map (fun l => Notified l r :: match behaviour l e with
                                                 | Some v => [Logged v]
                                                 | None => []
                                                 end)
                (errorListeners (handler s))) s.

(** [handleError(error, context)] *)
Definition handleError (error : handled) (context : value) (s : state)
  : answer nat * state :=
  let converted :=
    match error with
    | Instance r => Some (r, s)
    | Other VUndefined | Other VNull => None   (* [error.message] throws *)
    | Other v =>
        Some (new_UniCanvasError (VStr "UNKNOWN_ERROR") (get v "message")
                (VObj [("originalError", v)]) s)
    end in
  match converted with
  | None => (Thrown EngineTypeError, s)
  | Some (r, s1) =>
      match store s1 !! r with
      | None => (Thrown EngineTypeError, s1)   (* the reference names no instance *)
      | Some e =>
          let e' := {| name := name e; code := code e; message := message e;
                       details :=
                         VObj (put "context"
                                 (match context with VUndefined => VObj [] | c => c end)
                                 (spread (details e)));
                       timestamp := timestamp e |} in
          let s2 := {| store := <[r := e']> (store s1); next_error := next_error s1;
                       handler := handler s1; reads := reads s1; log := log s1 |} in
          (Returned r, _notifyListeners r e' (_addToHistory r s2))
      end
  end.

End Listeners.

(** [addListener(listener)]; [None] stands for a listener that is not a
    function. *)
Definition addListener (l : option nat) (s : state) : answer unit * state :=
  match l with
  | None =>
      let (r, s1) := new_UniCanvasError (VStr "INVALID_LISTENER")
                       (VStr "Error listener must be a function") VUndefined s in
      (Thrown (ErrorRef r), s1)
  | Some f =>
      (Returned tt,
       with_handler {| errorListeners := errorListeners (handler s) ++ [f];
                       errorHistory := errorHistory (handler s);
                       maxHistorySize := maxHistorySize (handler s) |} s)
  end.

(** [array.splice(array.indexOf(f), 1)], when [f] is found. *)
Fixpoint remove_first (f : nat) (l : list nat) : list nat :=
  match l with
  | [] => []
  | g :: rest => if (g =? f)%nat then rest else g :: remove_first f rest
  end.

(** [removeListener(listener)] *)
Definition removeListener (f : nat) (s : state) : state :=
  with_handler {| errorListeners := remove_first f (errorListeners (handler s));
                  errorHistory := errorHistory (handler s);
                  maxHistorySize := maxHistorySize (handler s) |} s.

(** [array.slice(0, limit)] *)
Definition slice_to {A} (limit : Z) (l : list A) : list A :=
  if (limit <? 0)%Z then take (Z.to_nat (Z.of_nat (length l) + limit)) l
  else take (Z.to_nat limit) l.

(** [getHistory(limit)]; a limit that is not given is 10. *)
Definition getHistory (limit : option Z) (s : state) : list nat :=
  slice_to (default 10%Z limit) (errorHistory (handler s)).

(** [clearHistory()] *)
Definition clearHistory (s : state) : state :=
  with_handler {| errorListeners := errorListeners (handler s);
                  errorHistory := [];
                  maxHistorySize := maxHistorySize (handler s) |} s.

(** The operations of the application on a handler. *)
Inductive op :=
  | HandleError (error : handled) (context : value)
  | AddListener (l : option nat)
  | RemoveListener (f : nat)
  | ClearHistory.

Definition step (behaviour : nat → error_object → option value) (s : state) (o : op)
  : state :=
  match o with
  | HandleError error context => (handleError behaviour error context s).2
  | AddListener l => (addListener l s).2
  | RemoveListener f => removeListener f s
  | ClearHistory => clearHistory s
  end.

Definition run (behaviour : nat → error_object → option value) (s : state)
    (ops : list op) : state :=
  fold_left (step behaviour) ops s.

End Handler.

(** What holds of every handler: the history is no longer than its limit,
    which is 50. *)
Definition bounded (s : state) : Prop :=
  maxHistorySize (handler s) = 50%Z ∧ (length (errorHistory (handler s)) ≤ 50)%nat.

(** Listeners that return. *)
Definition silent : nat → error_object → option value := fun _ _ => None.

(** A handler and one error, whose details hold a context. *)
Definition one_error `{Host} : state :=
  (new_UniCanvasError (VStr "E_BROKEN") (VStr "broken")
     (VObj [("part", VStr "wheel"); ("context", VStr "old")]) new_ErrorHandler).2.

End ErrorHandling.

(* ===================================================================== *)
(** * Properties *)

(** ** Running the monad *)

Section Respects.
Context (R : relation world) `{!PreOrder R}.

Lemma respects_ret {A} (a : A) : respects R (ret a).
Proof. intros w. reflexivity. Qed.

Lemma respects_throw {A} (e : exn) : respects R (@throw A e).
Proof. intros w. reflexivity. Qed.

Lemma respects_gets {A} (f : world → A) : respects R (gets f).
Proof. intros w. reflexivity. Qed.

Lemma respects_modify (f : world → world) :
  (∀ w, R w (f w)) → respects R (modify f).
Proof. intros Hf w. apply Hf. Qed.

Lemma respects_bind {A B} (m : M A) (k : A → M B) :
  respects R m → (∀ a, respects R (k a)) → respects R (bind m k).
Proof.
  intros Hm Hk w. unfold bind. specialize (Hm w).
  destruct (m w) as [[a|e] w1]; simpl in *.
  - etransitivity; [exact Hm|apply Hk].
  - exact Hm.
Qed.

Lemma respects_try_catch {A} (m : M A) (h : exn → M A) :
  respects R m → (∀ e, respects R (h e)) → respects R (try_catch m h).
Proof.
  intros Hm Hh w. unfold try_catch. specialize (Hm w).
  destruct (m w) as [[a|e] w1]; simpl in *.
  - exact Hm.
  - etransitivity; [exact Hm|apply Hh].
Qed.

Lemma respects_when (c : bool) (m : M unit) :
  respects R m → respects R (when c m).
Proof. intros Hm. destruct c; [exact Hm|apply respects_ret]. Qed.

Lemma respects_for_each {A} (f : A → M unit) (l : list A) :
  (∀ a, respects R (f a)) → respects R (for_each f l).
Proof.
  intros Hf. induction l as [|x l IH]; simpl.
  - apply respects_ret.
  - apply respects_bind; [apply Hf|intros _; exact IH].
Qed.

End Respects.

Ltac respects_step :=
  lazymatch goal with
  | |- respects _ (ret _) => apply respects_ret; exact _
  | |- respects _ (throw _) => apply respects_throw; exact _
  | |- respects _ (gets _) => apply respects_gets; exact _
  | |- respects _ (modify _) => apply respects_modify; intros
  | |- respects _ (when _ _) => apply respects_when; [exact _|]
  | |- respects _ (for_each _ _) => apply respects_for_each; [exact _|intros]
  | |- respects _ (bind _ _) => apply respects_bind; [exact _| |intros]
  | |- respects _ (try_catch _ _) => apply respects_try_catch; [exact _| |intros]
  | |- respects _ (match ?x with _ => _ end) => destruct x
  | |- respects _ (let _ := _ in _) => cbv zeta
  end.

(** Unfolds the bridge's code down to the primitives of the monad and
    leaves one goal per state update. *)
Ltac respects_auto :=
  unfold on_message, on_timeout, run_reaction, dispatch, handle_response,
    call_callback, call_handler, respond, respond_error, respond_success,
    attach_reactions, error_get, respondToMessage, postMessage,
    postMessage_over, registerHandler, assign_handler, onMessage, allowOrigins,
    _validateMessage, _generateMessageId, store_pending, delete_pending,
    raise, new_UniCanvasError, window_parent_postMessage, call_resolve,
    call_reject, Promise_resolve, new_promise, clearTimeout, setTimeout,
    random_string, date_now, debug_console, emit;
  repeat respects_step.

Section Steps.
Context `{Host}.
Context (R : relation world) `{!PreOrder R}.

Lemma respects_api {A} (m : M A) :
  respects R m → (∀ w e, R w (set_trace (trace w ++ [EThrown e]) w)) →
  ∀ w, R w (api m w).
Proof.
  intros Hm Ht w. unfold api. specialize (Hm w).
  destruct (m w) as [[a|e] w1]; simpl in *; [exact Hm|].
  etransitivity; [exact Hm|apply Ht].
Qed.

Lemma respects_task (m : M unit) :
  respects R m → (∀ w e, R w (set_trace (trace w ++ [EUncaught e]) w)) →
  ∀ w, R w (task m w).
Proof.
  intros Hm Ht w. unfold task. specialize (Hm w).
  destruct (m w) as [[a|e] w1]; simpl in *; [exact Hm|].
  etransitivity; [exact Hm|apply Ht].
Qed.

(** A relation that every operation of the bridge respects on its own is
    respected by every step and every run. *)
Lemma respects_step_run :
  (∀ o w, R w (step w o)) → ∀ ops w, R w (run w ops).
Proof.
  intros Hstep ops. induction ops as [|o ops IH]; intros w; simpl.
  - reflexivity.
  - etransitivity; [apply Hstep|apply IH].
Qed.

End Steps.

(** ** Origin policy *)

#[local] Instance allowlist_grows_preorder : PreOrder allowlist_grows.
Proof.
  split.
  - intros w. exists []. by rewrite app_nil_r.
  - intros w1 w2 w3 [l1 H1] [l2 H2]. exists (l1 ++ l2)%list.
    rewrite H2, H1. symmetry. apply app_assoc.
Qed.

Lemma allowlist_grows_same (w w' : world) :
  allowlist w' = allowlist w → allowlist_grows w w'.
Proof. intros E. exists []. by rewrite app_nil_r. Qed.

Section OriginPolicy.
Context `{Host}.

Lemma settle_bridge (p : nat) (s : promise_state) (w : world) :
  bridge (settle p s w) = bridge w.
Proof. unfold settle. by repeat case_match. Qed.

Lemma step_allowlist_grows (o : op) (w : world) : allowlist_grows w (step w o).
Proof.
  assert (Htrace : ∀ w e, allowlist_grows w (set_trace (trace w ++ [e]) w))
    by (intros; by apply allowlist_grows_same).
  assert (Hsettle : ∀ p s w, allowlist_grows w (settle p s w))
    by (intros; apply allowlist_grows_same; unfold allowlist;
        by rewrite settle_bridge).
  destruct o as [origins|message target rr|type h|c|mid data tgt status
                |origin data|t|]; unfold step.
  1-5: apply (respects_api allowlist_grows); [|intros; apply Htrace].
  6: apply (respects_task allowlist_grows); [|intros; apply Htrace].
  1-6: respects_auto; try apply Hsettle; try by apply allowlist_grows_same.
  - eexists. reflexivity.
  - destruct (timers w !! t); [|reflexivity].
    etransitivity;
      [|apply (respects_task allowlist_grows); [|intros; apply Htrace]].
    + by apply allowlist_grows_same.
    + respects_auto; try apply Hsettle; by apply allowlist_grows_same.
  - destruct (jobs w) as [|r rest]; [reflexivity|].
    etransitivity;
      [|apply (respects_task allowlist_grows); [|intros; apply Htrace]].
    + by apply allowlist_grows_same.
    + respects_auto; try apply Hsettle; by apply allowlist_grows_same.
Qed.

Lemma array_some_app (f : string → option bool) (l l' : list string) :
  array_some f l = Some true → array_some f (l ++ l') = Some true.
Proof.
  induction l as [|x l IH]; simpl; [discriminate|].
  destruct (f x) as [[|]|]; auto.
Qed.

Lemma isOriginAllowed_app (l l' : list string) (origin : string) :
  _isOriginAllowed l origin = Some true →
  _isOriginAllowed (l ++ l') origin = Some true.
Proof.
  unfold _isOriginAllowed. destruct l as [|x l]; [discriminate|].
  change (length ((x :: l) ++ l') =? 0)%nat with false.
  change (length (x :: l) =? 0)%nat with false. cbv iota.
  rewrite existsb_app.
  destruct (existsb (String.eqb "*") (x :: l)); [done|].
  rewrite orb_false_l. intros Hsome.
  destruct (existsb (String.eqb "*") l'); [done|].
  by apply array_some_app.
Qed.

Lemma array_some_none_matches (l : list string) (origin : string) :
  origin ∉ l → (∀ p, p ∈ l → includes_star p = false) →
  array_some (origin_matches origin) l = Some false.
Proof.
  induction l as [|x l IH]; intros Hnotin Hplain; [done|]. simpl.
  unfold origin_matches at 1.
  destruct (String.eqb_spec x origin) as [->|_].
  - exfalso. apply Hnotin. by left.
  - rewrite (Hplain x) by (by left). apply IH.
    + intros Hin. apply Hnotin. by right.
    + intros p Hp. apply Hplain. by right.
Qed.

Lemma no_universal_wildcard (l : list string) :
  (∀ p, p ∈ l → includes_star p = false) →
  existsb (String.eqb "*") l = false.
Proof.
  intros Hplain. apply not_true_is_false. intros Hex.
  apply existsb_exists in Hex as (p & Hin & Heq).
  apply String.eqb_eq in Heq. subst p.
  apply list_elem_of_In in Hin. by specialize (Hplain _ Hin).
Qed.

Lemma on_message_rejected (w : world) (origin : string) (data : value) :
  _isOriginAllowed (allowlist w) origin = Some false →
  on_message origin data w = (Ok tt, warned w).
Proof.
  intros Hrej. unfold on_message, bind, gets. fold (allowlist w).
  rewrite Hrej. unfold debug_console, warned, bind, gets, when.
  by destruct (debug (opts (bridge w))).
Qed.

(** C3.  The origin policy fails closed.  With an empty allowlist, and with
    an allowlist none of whose entries contains a wildcard and of which the
    origin is not an element, [_isOriginAllowed] answers false, and the
    listener returns before validating the message or running any handler:
    the world is unchanged, up to the warning of debug mode. *)
Theorem origin_policy_fails_closed (w : world) (origin : string) (data : value) :
  (allowlist w = [] ∨
    ((origin ∉ allowlist w) ∧ (∀ p, p ∈ allowlist w → includes_star p = false))) →
  _isOriginAllowed (allowlist w) origin = Some false ∧
  on_message origin data w = (Ok tt, warned w).
Proof.
  intros Hcase.
  assert (Hrej : _isOriginAllowed (allowlist w) origin = Some false).
  { destruct Hcase as [->|[Hnotin Hplain]]; [done|].
    unfold _isOriginAllowed. destruct (length (allowlist w) =? 0)%nat; [done|].
    rewrite no_universal_wildcard by done.
    by apply array_some_none_matches. }
  split; [exact Hrej|by apply on_message_rejected].
Qed.

(** C10.  [allowOrigins] with an array sets the allowlist to the old
    allowlist followed by the given patterns, in every world, a bridge with
    an empty allowlist included; with anything else it throws and leaves the
    allowlist alone.  No operation of the bridge and no event removes a
    pattern: after any sequence of them the old allowlist is a prefix of the
    new one.  So an origin the check accepts is still accepted after
    [allowOrigins], and after any sequence of operations and events. *)
Theorem allowlist_only_grows (w : world) (L : list string) (ops : list op)
    (origin : string) :
  allowlist (step w (CallAllowOrigins (ArrayOf L))) = (allowlist w ++ L)%list ∧
  allowlist (step w (CallAllowOrigins NotAnArray)) = allowlist w ∧
  (∃ l, allowlist (run w ops) = (allowlist w ++ l)%list) ∧
  (_isOriginAllowed (allowlist w) origin = Some true →
   _isOriginAllowed (allowlist (step w (CallAllowOrigins (ArrayOf L)))) origin
     = Some true ∧
   _isOriginAllowed (allowlist (run w ops)) origin = Some true).
Proof.
  assert (Happ : allowlist (step w (CallAllowOrigins (ArrayOf L)))
                 = (allowlist w ++ L)%list).
  { unfold step, api, allowOrigins, debug_console, bind, gets, modify, when, emit.
    simpl. by destruct (debug (opts (bridge w))). }
  destruct (respects_step_run allowlist_grows step_allowlist_grows ops w)
    as [l Hl].
  split_and!.
  - exact Happ.
  - reflexivity.
  - by exists l.
  - intros Hacc. split.
    + rewrite Happ. by apply isOriginAllowed_app.
    + rewrite Hl. by apply isOriginAllowed_app.
Qed.

End OriginPolicy.

(** ** Wildcard patterns *)

Lemma glob_match_star (p s : list ascii) :
  glob_match ("*"%char :: p) s
  = glob_match p s
    || match s with [] => false | _ :: s' => glob_match ("*"%char :: p) s' end.
Proof. by destruct s. Qed.

Lemma glob_match_char (c : ascii) (p s : list ascii) :
  c ≠ "*"%char →
  glob_match (c :: p) s
  = match s with c' :: s' => Ascii.eqb c c' && glob_match p s' | [] => false end.
Proof.
  intros Hc. simpl. by destruct (Ascii.eqb_spec c "*"%char).
Qed.

Lemma glob_match_complete (p o : list ascii) :
  expands p o → glob_match p o = true.
Proof.
  induction 1 as [|c p o Hc _ IH|p x o _ IH].
  - done.
  - rewrite glob_match_char by done. by rewrite Ascii.eqb_refl.
  - induction x as [|a x IHx].
    + change ([] ++ o)%list with o. by rewrite glob_match_star, IH.
    + change ((a :: x) ++ o)%list with (a :: (x ++ o))%list.
      rewrite glob_match_star, IHx. apply orb_true_r.
Qed.

Lemma glob_match_sound (p o : list ascii) :
  glob_match p o = true → expands p o.
Proof.
  revert o. induction p as [|c p IH]; intros o.
  - destruct o; [constructor|discriminate].
  - destruct (Ascii.eqb_spec c "*"%char) as [->|Hc].
    + induction o as [|a o IHo]; rewrite glob_match_star.
      * rewrite orb_false_r. intros Hm.
        apply (expands_star p [] []). by apply IH.
      * intros [Hm|Hm]%orb_true_iff.
        -- apply (expands_star p [] (a :: o)). by apply IH.
        -- specialize (IHo Hm). inversion IHo as [|? ? ? Hne|? x o' He]; subst.
           ++ done.
           ++ apply (expands_star p (a :: x) o'). exact He.
    + rewrite glob_match_char by done. destruct o as [|a o]; [discriminate|].
      intros [Heq Hm]%andb_true_iff. apply Ascii.eqb_eq in Heq. subst a.
      constructor; [done|by apply IH].
Qed.

(** On a pattern free of syntax characters and an origin free of line
    terminators, the expression the bridge builds decides exactly the
    expansions of the pattern. *)

Lemma chars_app (a b : string) : chars (a ++ b) = (chars a ++ chars b)%list.
Proof. unfold chars. induction a as [|c a IH]; simpl; [done|by rewrite IH]. Qed.

Lemma replace_stars_head (s : string) :
  match chars (replace_stars s) with
  | c :: _ => c ≠ "*"%char
  | [] => True
  end.
Proof.
  destruct s as [|c s]; simpl; [done|].
  destruct (Ascii.eqb_spec c "*"%char); simpl; done.
Qed.

Lemma parse_pieces_literal (c : ascii) (rest : list ascii) :
  atom_of c = Some (Lit c) →
  match rest with d :: _ => d ≠ "*"%char | [] => True end →
  parse_pieces (c :: rest) = cons (Lit c, false) <$> parse_pieces rest.
Proof.
  intros Hc Hhead. simpl. rewrite Hc.
  destruct rest as [|d rest']; [done|].
  destruct (Ascii.eqb_spec d "*"%char) as [->|Hd]; [done|].
  destruct d as [[] [] [] [] [] [] [] []]; done.
Qed.

Lemma parse_replace_stars (s : string) :
  plain_pattern (chars s) →
  parse_pieces (chars (replace_stars s)) = Some (map piece_of (chars s)).
Proof.
  induction s as [|c s IH]; intros Hplain; [done|].
  assert (Hrest : plain_pattern (chars s)).
  { intros d Hd. apply Hplain. by right. }
  specialize (IH Hrest).
  change (chars (String c s)) with (c :: chars s).
  cbn [map replace_stars]. unfold piece_of at 1.
  destruct (Ascii.eqb_spec c "*"%char) as [->|Hc].
  - change (chars (String "."%char (String "*"%char (replace_stars s))))
      with ("."%char :: "*"%char :: chars (replace_stars s)).
    cbn [parse_pieces]. change (atom_of "."%char) with (Some AnyChar).
    cbv iota. by rewrite IH.
  - change (chars (String c (replace_stars s))) with (c :: chars (replace_stars s)).
    destruct (Hplain c) as [->|Hsyn]; [by left|done|].
    rewrite parse_pieces_literal, IH; [done| |apply replace_stars_head].
    unfold atom_of. rewrite Hsyn.
    destruct (Ascii.eqb_spec c "."%char) as [->|_]; [discriminate|done].
Qed.

Lemma parse_source_anchored (body : string) :
  parse_source ("^" ++ body ++ "$") = parse_pieces (chars body).
Proof.
  unfold parse_source.
  change (chars ("^" ++ body ++ "$")) with ("^"%char :: chars (body ++ "$")).
  cbv iota. rewrite chars_app.
  change (chars "$") with ["$"%char].
  rewrite rev_app_distr. simpl. by rewrite rev_involutive.
Qed.

Lemma match_pieces_star (a : atom) (r : list (atom * bool)) (s : list ascii) :
  match_pieces ((a, true) :: r) s
  = match_pieces r s
    || match s with
       | c :: s' => atom_matches a c && match_pieces ((a, true) :: r) s'
       | [] => false
       end.
Proof. by destruct s. Qed.

Lemma match_pieces_glob (p s : list ascii) :
  no_line_terminator s →
  match_pieces (map piece_of p) s = glob_match p s.
Proof.
  revert s. induction p as [|c p IH]; intros s Hs; [done|].
  cbn [map]. unfold piece_of at 1.
  destruct (Ascii.eqb_spec c "*"%char) as [->|Hc].
  - induction s as [|a s IHs]; rewrite match_pieces_star, glob_match_star.
    + by rewrite IH.
    + rewrite (IH (a :: s)) by done. cbn [atom_matches].
      rewrite (Hs a) by (by left). cbn [negb andb].
      rewrite IHs; [done|]. intros d Hd. apply Hs. by right.
  - rewrite glob_match_char by done. cbn [match_pieces atom_matches].
    destruct s as [|a s]; [done|]. rewrite IH; [done|].
    intros d Hd. apply Hs. by right.
Qed.

Lemma glob_match_refl (l : list ascii) : glob_match l l = true.
Proof.
  induction l as [|c l IH]; [done|].
  destruct (Ascii.eqb_spec c "*"%char) as [->|Hc].
  - rewrite glob_match_star. apply orb_true_iff. right.
    by rewrite glob_match_star, IH.
  - rewrite glob_match_char by done. by rewrite Ascii.eqb_refl.
Qed.

Section Wildcards.
Context `{Host}.

Lemma fragment_test_pattern (pattern origin : string) :
  plain_pattern (chars pattern) → no_line_terminator (chars origin) →
  fragment_test ("^" ++ replace_stars pattern ++ "$") origin
  = Some (glob_match (chars pattern) (chars origin)).
Proof.
  intros Hplain Hline. unfold fragment_test.
  rewrite parse_source_anchored, parse_replace_stars by done.
  simpl. by rewrite match_pieces_glob.
Qed.

(** A pattern with a star and no other syntax character accepts exactly its
    expansions, on origins that hold no line terminator. *)
Lemma plain_wildcard_accepts_expansions (pattern origin : string) :
  standard_on_fragment →
  includes_star pattern = true →
  plain_pattern (chars pattern) → no_line_terminator (chars origin) →
  origin_matches origin pattern = Some true ↔
  expands (chars pattern) (chars origin).
Proof.
  intros Hstd Hstar Hplain Hline. unfold origin_matches.
  destruct (String.eqb_spec pattern origin) as [->|Hne].
  - split; [intros _|done]. apply glob_match_sound, glob_match_refl.
  - rewrite Hstar.
    rewrite (Hstd _ _ _ (fragment_test_pattern pattern origin Hplain Hline)).
    split.
    + intros [= Hm]. by apply glob_match_sound.
    + intros He. by rewrite (glob_match_complete _ _ He).
Qed.

(** C4.  The code at the failing input: under the pattern
    [https://*.example.com] the check accepts the origin
    [https://evilexample.com], which is no expansion of the pattern.  The dot
    of the pattern reaches the expression unescaped and stands for any
    character. *)
Theorem wildcard_dot_matches_any_character :
  standard_on_fragment →
  _isOriginAllowed ["https://*.example.com"] "https://evilexample.com" = Some true ∧
  ¬ expands (chars "https://*.example.com") (chars "https://evilexample.com").
Proof.
  intros Hstd. split.
  - unfold _isOriginAllowed, origin_matches. simpl.
    by rewrite (Hstd _ "https://evilexample.com" true).
  - intros He%glob_match_complete. vm_compute in He. discriminate.
Qed.

End Wildcards.

Lemma wildcard_dot_matches_any_character_witness :
  _isOriginAllowed ["https://*.example.com"] "https://evilexample.com" = Some true ∧
  ¬ expands (chars "https://*.example.com") (chars "https://evilexample.com").
Proof.
  apply (wildcard_dot_matches_any_character (H := reference_host)).
  intros source s b E. exact E.
Defined.

(** ** Envelope validation *)

Section Validation.
Context `{Host}.

Lemma date_now_run (w : world) :
  date_now w = (Ok (Date_now (clock_reads w)), set_clock_reads (S (clock_reads w)) w).
Proof. reflexivity. Qed.

(** What [_validateMessage] computes: the clock is read only once the
    structural checks have passed. *)
Lemma validateMessage_run (message : value) (w : world) :
  _validateMessage message w =
  if negb (truthy message) || negb (typeof_object message) then (Ok false, w)
  else if negb (truthy (get message "id")) || negb (truthy (get message "timestamp"))
          || negb (truthy (get message "source")) || negb (truthy (get message "payload"))
  then (Ok false, w)
  else
    let age := num_sub (Int (Date_now (clock_reads w)))
                       (ToNumber (get message "timestamp")) in
    (Ok (negb (num_lt age 0 || num_gt age 60000)),
     set_clock_reads (S (clock_reads w)) w).
Proof.
  unfold _validateMessage.
  destruct (negb (truthy message) || negb (typeof_object message)); [done|].
  destruct (negb (truthy (get message "id")) || negb (truthy (get message "timestamp"))
            || negb (truthy (get message "source")) || negb (truthy (get message "payload")));
    [done|].
  unfold bind. rewrite date_now_run. cbv zeta.
  by destruct (num_lt _ 0 || num_gt _ 60000).
Qed.

(** Validation changes nothing but the count of clock readings. *)
Lemma validateMessage_frame (message : value) (r : result bool) (w w1 : world) :
  _validateMessage message w = (r, w1) →
  w1 = w ∨ w1 = set_clock_reads (S (clock_reads w)) w.
Proof.
  rewrite validateMessage_run.
  destruct (negb (truthy message) || negb (typeof_object message));
    [intros [= _ <-]; by left|].
  destruct (negb (truthy (get message "id")) || negb (truthy (get message "timestamp"))
            || negb (truthy (get message "source")) || negb (truthy (get message "payload")));
    [intros [= _ <-]; by left|].
  cbv zeta. intros [= _ <-]. by right.
Qed.

Lemma logged_frame (w : world) :
  bridge (logged w) = bridge w ∧ jobs (logged w) = jobs w ∧
  timers (logged w) = timers w ∧ promises (logged w) = promises w ∧
  next_timer (logged w) = next_timer w ∧ next_promise (logged w) = next_promise w.
Proof. unfold logged. by destruct (debug (opts (bridge w))). Qed.

(** A message that passes carries the four members, and its age, when it is
    a number, lies in the window. *)
Lemma validateMessage_accepts (message : value) (w w' : world) :
  _validateMessage message w = (Ok true, w') →
  truthy message = true ∧ typeof_object message = true ∧
  truthy (get message "id") = true ∧ truthy (get message "timestamp") = true ∧
  truthy (get message "source") = true ∧ truthy (get message "payload") = true ∧
  (∀ age, num_sub (Int (Date_now (clock_reads w))) (ToNumber (get message "timestamp"))
          = Int age → (0 ≤ age ≤ 60000)%Z).
Proof.
  rewrite validateMessage_run.
  destruct (truthy message), (typeof_object message); simpl; try done.
  destruct (truthy (get message "id")), (truthy (get message "timestamp")),
    (truthy (get message "source")), (truthy (get message "payload"));
    simpl; try done.
  intros [= Hage _]. repeat (split; [done|]). intros age Hsub.
  rewrite Hsub in Hage. simpl in Hage. lia.
Qed.

(** A message that fails validation is dropped: no handler runs, nothing is
    sent, nothing is thrown; the bridge, the timers, the promises and the
    pending reactions are as before. *)
Lemma invalid_message_dropped (origin : string) (data : value) (w w1 : world) :
  _isOriginAllowed (allowlist w) origin = Some true →
  _validateMessage data w = (Ok false, w1) →
  on_message origin data w = (Ok tt, warned w1) ∧
  bridge w1 = bridge w ∧ timers w1 = timers w ∧ promises w1 = promises w ∧
  jobs w1 = jobs w ∧ trace w1 = trace w.
Proof.
  intros Hallowed Hinvalid. split.
  - unfold on_message, bind, gets. fold (allowlist w). rewrite Hallowed, Hinvalid.
    simpl. unfold debug_console, warned, bind, gets, when.
    by destruct (debug (opts (bridge w1))).
  - rewrite validateMessage_run in Hinvalid.
    destruct (negb (truthy data) || negb (typeof_object data));
      [by injection Hinvalid as <-|].
    destruct (negb (truthy (get data "id")) || negb (truthy (get data "timestamp"))
              || negb (truthy (get data "source")) || negb (truthy (get data "payload")));
      [by injection Hinvalid as <-|].
    cbv zeta in Hinvalid. by injection Hinvalid as _ <-.
Qed.

(** C6.  The code at the failing input: a message that carries the four
    members but whose timestamp is an object passes [_validateMessage],
    although its age is no number of the window: the age is [NaN], and both
    comparisons with [NaN] are false. *)
Theorem object_timestamp_passes_validation (w : world) :
  _validateMessage untimed_message w
    = (Ok true, set_clock_reads (S (clock_reads w)) w) ∧
  ¬ age_within_window (Date_now (clock_reads w)) (get untimed_message "timestamp").
Proof.
  split.
  - rewrite validateMessage_run. simpl. by rewrite StringToNumber_object.
  - intros [age [Hage _]]. simpl in Hage. by rewrite StringToNumber_object in Hage.
Qed.

End Validation.

(** ** Sending *)

Section Sending.
Context `{Host}.

Lemma generateMessageId_run (w : world) :
  ∃ w', _generateMessageId w = (Ok (next_messageId w), w') ∧
        bridge w' = set_messageCounter (S (messageCounter (bridge w))) (bridge w) ∧
        timers w' = timers w ∧ next_timer w' = next_timer w ∧
        promises w' = promises w ∧ next_promise w' = next_promise w ∧
        jobs w' = jobs w ∧ trace w' = trace w ∧
        clock_reads w' = S (clock_reads w) ∧ random_draws w' = S (random_draws w).
Proof. eexists. split; [reflexivity|]. by repeat split. Qed.

(** The run of [postMessage] with [requiresResponse] up to the transport
    call, and what the call is given. *)
Lemma postMessage_over_run
    (transport : value → value → M unit) (message : value)
    (targetOrigin : string) (w : world) :
  sendable w message targetOrigin →
  ∃ w1,
    pendingResponses (bridge w1) !! next_messageId w
      = Some {| resolve := next_promise w; reject := next_promise w;
                timeoutId := next_timer w |} ∧
    timers w1 !! next_timer w
      = Some {| timer_messageId := next_messageId w;
                timer_reject := next_promise w |} ∧
    promises w1 !! next_promise w = Some Pending ∧
    postMessage_over transport message targetOrigin true w =
      (Ok (next_promise w),
       match transport (envelope (next_messageId w) (Date_now (S (clock_reads w)))
                          targetOrigin message true)
                       (VStr targetOrigin) w1 with
       | (Ok _, w2) => w2
       | (Threw e, w2) => (call_reject (next_promise w) e w2).2
       end).
Proof.
  intros (Htruthy & Hobject & Htarget & Hsize).
  unfold postMessage_over. rewrite Htruthy, Hobject. cbn [negb orb].
  destruct (String.eqb_spec targetOrigin "") as [|_]; [done|].
  unfold bind at 1, gets at 1.
  apply Z.ltb_ge in Hsize. rewrite Hsize.
  unfold debug_console, when, try_catch, bind, gets.
  destruct (debug (opts (bridge w))) eqn:Hdebug; simpl; rewrite Hdebug; simpl;
    (match goal with |- context [transport _ _ ?w1] => exists w1 end);
    unfold envelope, next_messageId;
    (split_and!;
      [ simpl; by rewrite lookup_insert_eq
      | simpl; by rewrite lookup_insert_eq
      | simpl; by rewrite lookup_insert_eq
      | destruct (transport _ _ _) as [[[]|e] w2]; reflexivity ]).
Qed.

(** C9.  In [postMessage] with [requiresResponse], whatever the transport
    call does, it runs in a world where the pending table already holds the
    entry of the new message id, with the continuations of the promise that
    is returned and the handle of a live timer for that id. *)
Theorem entry_registered_before_transport
    (transport : value → value → M unit) (message : value)
    (targetOrigin : string) (w : world) :
  sendable w message targetOrigin →
  ∃ w1,
    pendingResponses (bridge w1) !! next_messageId w
      = Some {| resolve := next_promise w; reject := next_promise w;
                timeoutId := next_timer w |} ∧
    timers w1 !! next_timer w
      = Some {| timer_messageId := next_messageId w;
                timer_reject := next_promise w |} ∧
    promises w1 !! next_promise w = Some Pending ∧
    postMessage_over transport message targetOrigin true w =
      (Ok (next_promise w),
       match transport (envelope (next_messageId w) (Date_now (S (clock_reads w)))
                          targetOrigin message true)
                       (VStr targetOrigin) w1 with
       | (Ok _, w2) => w2
       | (Threw e, w2) => (call_reject (next_promise w) e w2).2
       end).
Proof. apply postMessage_over_run. Qed.

(** A message over the ceiling is refused before anything else happens:
    the call throws and leaves the world as it was. *)
Lemma postMessage_too_large (transport : value → value → M unit)
    (message : value) (targetOrigin : string) (requiresResponse : bool) (w : world) :
  truthy message = true → typeof_object message = true → targetOrigin ≠ "" →
  (maxMessageSize (opts (bridge w))
   < Z.of_nat (String.length (JSON_stringify message)))%Z →
  postMessage_over transport message targetOrigin requiresResponse w
  = (Threw ReferenceError, w).
Proof.
  intros Htruthy Hobject Htarget Hsize.
  unfold postMessage_over. rewrite Htruthy, Hobject. cbn [negb orb].
  destruct (String.eqb_spec targetOrigin "") as [|_]; [done|].
  unfold bind at 1, gets at 1.
  apply Z.ltb_lt in Hsize. by rewrite Hsize.
Qed.

(** A message at or under the ceiling is handed to the transport, which
    takes it when it accepts the target origin. *)
Lemma postMessage_accepted (message : value) (targetOrigin : string)
    (requiresResponse : bool) (w : world) :
  sendable w message targetOrigin →
  target_accepted (VStr targetOrigin) = true →
  ∃ p w',
    postMessage message targetOrigin requiresResponse w = (Ok p, w') ∧
    EPostMessage (envelope (next_messageId w) (Date_now (S (clock_reads w)))
                    targetOrigin message requiresResponse)
                 (VStr targetOrigin) ∈ trace w'.
Proof.
  intros Hsend Htaken. destruct requiresResponse.
  - destruct (postMessage_over_run window_parent_postMessage
                message targetOrigin w Hsend) as (w1 & _ & _ & _ & Hrun).
    unfold postMessage. rewrite Hrun. eexists _, _. split; [reflexivity|].
    unfold window_parent_postMessage. rewrite Htaken.
    simpl. apply elem_of_app. right. by left.
  - destruct Hsend as (Htruthy & Hobject & Htarget & Hsize).
    unfold postMessage, postMessage_over. rewrite Htruthy, Hobject. cbn [negb orb].
    destruct (String.eqb_spec targetOrigin "") as [|_]; [done|].
    unfold bind at 1, gets at 1.
    apply Z.ltb_ge in Hsize. rewrite Hsize.
    unfold debug_console, when, window_parent_postMessage, bind, gets.
    rewrite Htaken.
    destruct (debug (opts (bridge w))) eqn:Hdebug; simpl; rewrite Hdebug; simpl;
      eexists _, _; (split; [reflexivity|]); simpl;
      apply elem_of_app; right; by left.
Qed.

(** A string as second argument is the target origin: the transport
    refuses the call only because the origin does not parse. *)
Lemma transport_error_string (targetOrigin : string) :
  target_accepted (VStr targetOrigin) = false →
  transport_error (VStr targetOrigin) = DOMException "SyntaxError".
Proof.
  unfold target_accepted, transport_error. simpl. rewrite andb_true_r.
  by intros ->.
Qed.

(** A message that passes the checks of [postMessage] and needs no
    response, with a target the transport refuses: the exception that
    leaves [postMessage] is the one of the transport. *)
Lemma postMessage_refused (message : value) (targetOrigin : string) (w : world) :
  sendable w message targetOrigin →
  target_accepted (VStr targetOrigin) = false →
  ∃ w', postMessage message targetOrigin false w
        = (Threw (DOMException "SyntaxError"), w').
Proof.
  intros (Htruthy & Hobject & Htarget & Hsize) Hrefused.
  unfold postMessage, postMessage_over. rewrite Htruthy, Hobject. cbn [negb orb].
  destruct (String.eqb_spec targetOrigin "") as [|_]; [done|].
  unfold bind at 1, gets at 1.
  apply Z.ltb_ge in Hsize. rewrite Hsize.
  unfold debug_console, when, window_parent_postMessage, bind, gets.
  rewrite Hrefused, (transport_error_string _ Hrefused).
  destruct (debug (opts (bridge w))) eqn:Hdebug; simpl; rewrite Hdebug; simpl;
    eexists; reflexivity.
Qed.

(** C5.  The code at the failing input: with a ceiling of nine, the payload
    [{ k: "é" }], whose JSON text has nine code units and ten bytes, passes
    the size check and is given to the transport: it is handed over when
    the transport takes the target origin, and otherwise the exception
    that leaves [postMessage] is the one of the transport.  The size
    compared with the ceiling is the number of code units of the text, not
    its number of bytes. *)
Theorem size_gate_counts_code_units (targetOrigin : string) (w : world) :
  JSON_stringify accented_payload = accented_text →
  maxMessageSize (opts (bridge w)) = 9%Z →
  targetOrigin ≠ "" →
  utf8_length (JSON_stringify accented_payload) = 10 ∧
  if target_accepted (VStr targetOrigin) then
    ∃ p w',
      postMessage accented_payload targetOrigin false w = (Ok p, w') ∧
      EPostMessage (envelope (next_messageId w) (Date_now (S (clock_reads w)))
                      targetOrigin accented_payload false)
                   (VStr targetOrigin) ∈ trace w'
  else
    ∃ w', postMessage accented_payload targetOrigin false w
          = (Threw (DOMException "SyntaxError"), w').
Proof.
  intros Htext Hmax Htarget. split; [by rewrite Htext|].
  assert (Hsend : sendable w accented_payload targetOrigin).
  { repeat split; try done. rewrite Htext, Hmax. by vm_compute. }
  destruct (target_accepted (VStr targetOrigin)) eqn:Htaken.
  - by apply postMessage_accepted.
  - by apply postMessage_refused.
Qed.

End Sending.

(** ** Dispatch to handlers *)

Section Dispatch.
Context `{Host}.

(** An accepted message reaches one of the two branches of the listener. *)
Lemma on_message_valid (origin : string) (data : value) (w w1 : world) :
  _isOriginAllowed (allowlist w) origin = Some true →
  _validateMessage data w = (Ok true, w1) →
  on_message origin data w
  = (if is_response data then handle_response data else dispatch data) (logged w1).
Proof.
  intros Hallowed Hvalid. unfold on_message, bind, gets. fold (allowlist w).
  rewrite Hallowed, Hvalid. cbn [negb]. unfold debug_console, logged, bind, gets, when.
  fold (is_response data).
  by destruct (debug (opts (bridge w1))).
Qed.

Lemma respondToMessage_run (messageId responseData targetOrigin status : value)
    (w : world) :
  truthy messageId = true →
  target_accepted (if truthy targetOrigin then targetOrigin else VStr "*") = true →
  ∃ w',
    respondToMessage messageId responseData targetOrigin status w
    = (Ok (response_envelope (next_messageId w) messageId
             (Date_now (S (clock_reads w))) responseData
             (js_or status (VStr "success"))), w') ∧
    trace w' = (trace w ++ (if debug (opts (bridge w)) then [EConsole Log] else [])
                ++ [EPostMessage
                      (response_envelope (next_messageId w) messageId
                         (Date_now (S (clock_reads w))) responseData
                         (js_or status (VStr "success")))
                      (if truthy targetOrigin then targetOrigin else VStr "*")])%list ∧
    jobs w' = jobs w ∧ promises w' = promises w ∧ timers w' = timers w ∧
    pendingResponses (bridge w') = pendingResponses (bridge w).
Proof.
  intros Hid Htaken. unfold respondToMessage. rewrite Hid. cbn [negb].
  unfold debug_console, when, window_parent_postMessage, bind, gets.
  destruct (debug (opts (bridge w))) eqn:Hdebug, (truthy targetOrigin);
    rewrite Htaken;
    simpl; rewrite Hdebug; simpl; eexists; (split; [reflexivity|]);
    simpl; rewrite <- ?app_assoc; done.
Qed.

(** A reply the transport refuses: the id is made, the line of debug mode
    is written, and the call throws what the transport threw. *)
Lemma respondToMessage_refused (messageId responseData targetOrigin status : value)
    (w : world) :
  truthy messageId = true →
  target_accepted (if truthy targetOrigin then targetOrigin else VStr "*") = false →
  ∃ w',
    respondToMessage messageId responseData targetOrigin status w
    = (Threw (transport_error (if truthy targetOrigin then targetOrigin
                               else VStr "*")), w') ∧
    trace w' = (trace w ++ (if debug (opts (bridge w)) then [EConsole Log] else []))%list ∧
    jobs w' = jobs w ∧ promises w' = promises w ∧ timers w' = timers w ∧
    pendingResponses (bridge w') = pendingResponses (bridge w) ∧
    messageCounter (bridge w') = S (messageCounter (bridge w)) ∧
    opts (bridge w') = opts (bridge w).
Proof.
  intros Hid Htaken. unfold respondToMessage. rewrite Hid. cbn [negb].
  unfold debug_console, when, window_parent_postMessage, bind, gets.
  destruct (debug (opts (bridge w))) eqn:Hdebug, (truthy targetOrigin);
    rewrite Htaken;
    simpl; rewrite Hdebug; simpl; eexists; (split; [reflexivity|]);
    simpl; rewrite ?app_nil_r; done.
Qed.

Lemma handler_found (ty : string) (h : handler) (message : value) (w : world) :
  get (get message "payload") "type" = VStr ty → ty ≠ "" →
  messageHandlers (bridge w) !! ty = Some h →
  (if truthy (get (get message "payload") "type")
   then lookup_handler (bridge w)
          (ToString (get (get message "payload") "type"))
   else Missing) = Own h.
Proof.
  intros -> Hty Hh. simpl.
  destruct (String.eqb_spec ty "") as [|_]; [done|]. simpl.
  unfold lookup_handler. by rewrite Hh.
Qed.

(** A handler that throws: the failure is logged, and reported to the
    source of the message when a response is required and the transport
    takes the source as a target. *)
Lemma handler_throws (ty : string) (h : handler) (e : value) (message : value)
    (w : world) :
  get (get message "payload") "type" = VStr ty → ty ≠ "" →
  messageHandlers (bridge w) !! ty = Some h →
  h (get message "payload") (meta_of message) = Throws e →
  nullish e = false → truthy (get message "id") = true →
  target_accepted (if truthy (get message "source") then get message "source"
                   else VStr "*") = true →
  ∃ w',
    dispatch message w = (Ok tt, w') ∧
    jobs w' = jobs w ∧
    trace w' =
      (trace w ++ [EHandler ty (get message "payload") (meta_of message);
                   EConsole Error]
       ++ if truthy (get message "requiresResponse") then
            (if debug (opts (bridge w)) then [EConsole Log] else [])
            ++ [EPostMessage
                  (response_envelope (next_messageId w) (get message "id")
                     (Date_now (S (clock_reads w))) (error_payload e) (VStr "error"))
                  (if truthy (get message "source") then get message "source"
                   else VStr "*")]
          else [])%list.
Proof.
  intros Hty Hne Hh Hout Hnull Hid Htaken.
  unfold dispatch, try_catch, bind at 1 2, gets at 1 2.
  rewrite (handler_found ty h message w Hty Hne Hh), Hty. cbn [ToString].
  unfold call_handler, bind at 1, emit, modify. rewrite Hout. unfold throw.
  unfold bind at 1, modify.
  destruct (truthy (get message "requiresResponse")).
  - unfold respond_error, error_get, bind at 1 2 3.
    assert (Hobj : error_object (Raised e) = Some e) by (by destruct e).
    rewrite Hobj. unfold ret at 1 2.
    set (w0 := set_trace _ (set_trace _ w)).
    destruct (respondToMessage_run (get message "id") (error_payload e)
                (get message "source") (VStr "error") w0 Hid Htaken)
      as (w' & Hrun & Htrace & Hjobs & _).
    unfold error_payload in Hrun. rewrite Hrun. exists w'.
    split; [done|]. split; [by rewrite Hjobs|]. rewrite Htrace. subst w0. simpl.
    by rewrite <- !app_assoc.
  - eexists. split; [reflexivity|]. split; [done|]. simpl.
    by rewrite <- !app_assoc.
Qed.

(** A handler whose deferred result rejects, on a message that requires a
    response: a reaction is left, and running it reports the failure to the
    source of the message. *)
Lemma handler_rejects_with_response (ty : string) (h : handler) (e : value)
    (message : value) (w : world) :
  get (get message "payload") "type" = VStr ty → ty ≠ "" →
  messageHandlers (bridge w) !! ty = Some h →
  h (get message "payload") (meta_of message) = ReturnsPromise (Rejects e) →
  truthy (get message "requiresResponse") = true →
  dispatch message w
  = (Ok tt,
     set_jobs (jobs w ++ [{| settled := Rejects e; answered := message |}])
       (set_trace (trace w ++ [EHandler ty (get message "payload") (meta_of message)])
          w)).
Proof.
  intros Hty Hne Hh Hout Hrr.
  unfold dispatch, try_catch, bind at 1 2, gets at 1 2.
  rewrite (handler_found ty h message w Hty Hne Hh), Hty. cbn [ToString].
  unfold call_handler, bind at 1, emit, modify. rewrite Hout, Hrr. done.
Qed.

Lemma rejected_reaction_runs (e message : value) (w : world) :
  nullish e = false → truthy (get message "id") = true →
  target_accepted (if truthy (get message "source") then get message "source"
                   else VStr "*") = true →
  ∃ w',
    run_reaction {| settled := Rejects e; answered := message |} w = (Ok tt, w') ∧
    trace w' =
      (trace w ++ (if debug (opts (bridge w)) then [EConsole Log] else [])
       ++ [EPostMessage
             (response_envelope (next_messageId w) (get message "id")
                (Date_now (S (clock_reads w))) (error_payload e) (VStr "error"))
             (if truthy (get message "source") then get message "source"
              else VStr "*")])%list.
Proof.
  intros Hnull Hid Htaken. unfold run_reaction, try_catch. simpl.
  unfold respond_error, error_get, bind at 1 2 3.
  assert (Hobj : error_object (Raised e) = Some e) by (by destruct e).
  rewrite Hobj. unfold ret at 1 2.
  destruct (respondToMessage_run (get message "id") (error_payload e)
              (get message "source") (VStr "error") w Hid Htaken)
    as (w' & Hrun & Htrace & _).
  unfold error_payload in Hrun. rewrite Hrun. by exists w'.
Qed.

(** C8.  The code at the failing input: a handler whose deferred result
    rejects, on a message that requires no response.  The listener calls the
    handler and leaves its result alone: nothing is logged, no reaction is
    attached, and the rejection is unhandled. *)
Theorem unobserved_rejection_without_response (origin : string) (data : value)
    (ty : string) (h : handler) (e : value) (w w1 : world) :
  _isOriginAllowed (allowlist w) origin = Some true →
  _validateMessage data w = (Ok true, w1) →
  is_response data = false →
  get (get data "payload") "type" = VStr ty → ty ≠ "" →
  messageHandlers (bridge w) !! ty = Some h →
  h (get data "payload") (meta_of data) = ReturnsPromise (Rejects e) →
  truthy (get data "requiresResponse") = false →
  on_message origin data w
  = (Ok tt,
     set_trace (trace (logged w1)
                ++ [EHandler ty (get data "payload") (meta_of data);
                    EUnhandledRejection (Raised e)])
       (logged w1)) ∧
  jobs (logged w1) = jobs w.
Proof.
  intros Hallowed Hvalid Hnot Hty Hne Hh Hout Hrr.
  rewrite (on_message_valid origin data w w1 Hallowed Hvalid), Hnot.
  assert (Hbridge : bridge (logged w1) = bridge w ∧ jobs (logged w1) = jobs w).
  { destruct (logged_frame w1) as (-> & -> & _).
    by destruct (validateMessage_frame _ _ _ _ Hvalid) as [->| ->]. }
  destruct Hbridge as [Hbridge Hjobs]. split; [|exact Hjobs].
  unfold dispatch, try_catch, bind at 1 2, gets at 1 2.
  rewrite (handler_found ty h data (logged w1) Hty Hne) by (by rewrite Hbridge).
  rewrite Hty. cbn [ToString].
  unfold call_handler, bind at 1, emit, modify. rewrite Hout, Hrr.
  simpl. by rewrite <- app_assoc.
Qed.

End Dispatch.

(** ** Message ids *)

Lemma uint_no_underscore (d : Decimal.uint) :
  no_underscore (NilEmpty.string_of_uint d).
Proof.
  induction d; intros c Hc; simpl in Hc;
    try (by apply elem_of_nil in Hc);
    apply elem_of_cons in Hc as [->|Hc]; try done; by apply IHd.
Qed.

Lemma dec_no_underscore (z : Z) : no_underscore (dec z).
Proof.
  unfold dec. destruct (Z.to_int z) as [d|d]; simpl.
  - apply uint_no_underscore.
  - intros c Hc. simpl in Hc. apply elem_of_cons in Hc as [->|Hc]; [done|].
    by apply uint_no_underscore in Hc.
Qed.

Lemma dec_inj (z z' : Z) : dec z = dec z' → z = z'.
Proof.
  intros E. apply DecimalZ.to_int_inj.
  assert (Hsome : Some (Z.to_int z) = Some (Z.to_int z'));
    [|by injection Hsome].
  rewrite <- !NilEmpty.isi. unfold dec in E. by rewrite E.
Qed.

Lemma append_cons (c : ascii) (a x : string) : String c a ++ x = String c (a ++ x).
Proof. reflexivity. Qed.

Lemma append_nil (x : string) : "" ++ x = x.
Proof. reflexivity. Qed.

(** A string is cut at its first underscore in one way only. *)
Lemma split_underscore (a a' b b' : string) :
  no_underscore a → no_underscore a' →
  a ++ String "_"%char b = a' ++ String "_"%char b' → a = a' ∧ b = b'.
Proof.
  revert a'. induction a as [|c a IH]; intros [|c' a'] Ha Ha' Heq;
    rewrite ?append_cons, ?append_nil in Heq.
  - by injection Heq as ->.
  - injection Heq as <- _. exfalso. apply (Ha' "_"%char); [by left|done].
  - injection Heq as -> _. exfalso. apply (Ha "_"%char); [by left|done].
  - injection Heq as -> Heq.
    destruct (IH a') as [-> ->]; try done.
    + intros d Hd. apply Ha. by right.
    + intros d Hd. apply Ha'. by right.
Qed.

(** The counter field of an id is read off the id. *)
Lemma mk_id_counter_inj (time time' : Z) (c c' : nat) (suffix suffix' : string) :
  mk_id time c suffix = mk_id time' c' suffix' → c = c'.
Proof.
  unfold mk_id. intros Heq.
  rewrite !append_cons, !append_nil in Heq. injection Heq as Heq.
  apply split_underscore in Heq as [_ Heq]; try apply dec_no_underscore.
  apply split_underscore in Heq as [Heq _]; try apply dec_no_underscore.
  apply dec_inj in Heq. lia.
Qed.

Lemma issued_mono (w w' : world) (id : string) :
  (counter w ≤ counter w')%nat → issued w id → issued w' id.
Proof. intros Hle (time & c & suffix & -> & Hc). exists time, c, suffix. split; [done|lia]. Qed.

Lemma issued_fresh (w : world) (id : string) (time : Z) (c : nat) (suffix : string) :
  issued w id → (counter w < c)%nat → id ≠ mk_id time c suffix.
Proof.
  intros (time' & c' & suffix' & -> & Hc) Hlt Heq.
  apply mk_id_counter_inj in Heq. lia.
Qed.

(** An issued id is no member of [Object.prototype]. *)
Lemma issued_not_inherited (time : Z) (c : nat) (suffix : string) :
  existsb (String.eqb (mk_id time c suffix)) Object_prototype_members = false.
Proof. reflexivity. Qed.

(** ** The transitions keep the bookkeeping sound *)

Lemma calls_app (p : nat) (l l' : list effect) :
  calls p (l ++ l') = (calls p l + calls p l')%nat.
Proof.
  induction l as [|e l IH]; [done|].
  destruct e; simpl; rewrite ?IH; lia.
Qed.

Lemma settled_promises_ne (p q : nat) (s : promise_state)
    (m : gmap nat promise_state) :
  p ≠ q → settled_promises q s m !! p = m !! p.
Proof.
  intros Hne. unfold settled_promises.
  destruct (m !! q) as [[]|]; try done. by rewrite lookup_insert_ne.
Qed.

Lemma settled_promises_pending (q : nat) (s : promise_state)
    (m : gmap nat promise_state) :
  m !! q = Some Pending → settled_promises q s m !! q = Some s.
Proof.
  intros Hq. unfold settled_promises. rewrite Hq. by rewrite lookup_insert_eq.
Qed.

Lemma settled_promises_none (p q : nat) (s : promise_state)
    (m : gmap nat promise_state) :
  m !! p = None → m !! q ≠ None ∨ p ≠ q → settled_promises q s m !! p = None.
Proof.
  intros Hp Hq. destruct (decide (p = q)) as [->|Hne].
  - destruct Hq as [Hq|Hq]; [by rewrite Hp in Hq|done].
  - by rewrite settled_promises_ne.
Qed.

Lemma transition_counter (w w' : world) :
  transition w w' → (counter w ≤ counter w')%nat.
Proof. destruct 1 as [[]| | | | |]; simpl in *; lia. Qed.

Lemma transition_well_formed (w w' : world) :
  well_formed w → transition w w' → well_formed w'.
Proof.
  intros [Htable Htimers Hfresh] Ht.
  pose proof (transition_counter w w' Ht) as Hcounter.
  destruct Ht as [[Eta Eti Ent Epr Enp _ Ecalls]
                 |time c suffix s id Ec Eta Eti Ent Epr Enp Hs Ecalls
                 |v _ Eta Eti Ent Epr Enp Ecalls
                 |key e v Hkey _ Eta Eti Ent Epr Enp Ecalls
                 |key e Hkey _ Eta Eti Ent Epr Enp Ecalls
                 |t cb Hcb _ Eta Eti Ent Epr Enp Ecalls].
  - split.
    + intros id e. rewrite Eta, Enp, Ent. intros He.
      destruct (Htable id e He) as (? & ? & ? & ?).
      eauto using issued_mono.
    + intros t cb. rewrite Eti, Enp, Ent. intros Hcb.
      destruct (Htimers t cb Hcb) as (? & ? & ?). eauto using issued_mono.
    + intros p. rewrite Enp, Ecalls, Epr. apply Hfresh.
  - split.
    + intros id' e. rewrite Eta, Enp, Ent.
      intros [[<- <-]|[_ He]]%lookup_insert_Some.
      * simpl. split_and!; try lia. exists time, c, suffix.
        split; [done|lia].
      * destruct (Htable id' e He) as (? & ? & ? & ?).
        split_and!; try lia. eauto using issued_mono.
    + intros t cb. rewrite Eti, Enp, Ent.
      intros [[<- <-]|[_ Hcb]]%lookup_insert_Some.
      * simpl. split_and!; try lia. exists time, c, suffix.
        split; [done|lia].
      * destruct (Htimers t cb Hcb) as (? & ? & ?).
        split_and!; try lia. eauto using issued_mono.
    + intros p. rewrite Enp, Ecalls, Epr. intros Hp.
      destruct (Hfresh p) as [Hc ?]; [lia|]. split.
      * rewrite Hc. destruct (Nat.eqb_spec p (next_promise w)); [lia|done].
      * rewrite lookup_insert_ne by lia. done.
  - split.
    + intros id e. rewrite Eta, Enp, Ent. intros He.
      destruct (Htable id e He) as (? & ? & ? & ?).
      split_and!; try lia. eauto using issued_mono.
    + intros t cb. rewrite Eti, Enp, Ent. intros Hcb.
      destruct (Htimers t cb Hcb) as (? & ? & ?).
      split_and!; try lia. eauto using issued_mono.
    + intros p. rewrite Enp, Ecalls, Epr. intros Hp.
      destruct (Hfresh p) as [? ?]; [lia|]. split; [done|].
      rewrite lookup_insert_ne by lia. done.
  - destruct (Htable key e Hkey) as (Hres & Hrej & _ & _).
    split.
    + intros id e'. rewrite Eta, Enp, Ent. intros [_ He]%lookup_delete_Some.
      destruct (Htable id e' He) as (? & ? & ? & ?).
      split_and!; try lia. eauto using issued_mono.
    + intros t cb. rewrite Eti, Enp, Ent. intros [_ Hcb]%lookup_delete_Some.
      destruct (Htimers t cb Hcb) as (? & ? & ?).
      split_and!; try lia. eauto using issued_mono.
    + intros p. rewrite Enp, Ecalls, Epr. intros Hp.
      destruct (Hfresh p Hp) as [-> Hnone].
      assert (p ≠ resolve e) as Hne by lia.
      split.
      * destruct (Nat.eqb_spec p (resolve e)); [done|lia].
      * by rewrite settled_promises_ne.
  - split.
    + intros id e'. rewrite Eta, Enp, Ent. intros He.
      destruct (Htable id e' He) as (? & ? & ? & ?).
      split_and!; try lia. eauto using issued_mono.
    + intros t cb. rewrite Eti, Enp, Ent. intros [_ Hcb]%lookup_delete_Some.
      destruct (Htimers t cb Hcb) as (? & ? & ?).
      split_and!; try lia. eauto using issued_mono.
    + intros p. rewrite Enp, Ecalls, Epr. apply Hfresh.
  - split.
    + intros id e'. rewrite Eta, Enp, Ent. intros [_ He]%lookup_delete_Some.
      destruct (Htable id e' He) as (? & ? & ? & ?).
      split_and!; try lia. eauto using issued_mono.
    + intros t' cb'. rewrite Eti, Enp, Ent. intros [_ Hcb']%lookup_delete_Some.
      destruct (Htimers t' cb' Hcb') as (? & ? & ?).
      split_and!; try lia. eauto using issued_mono.
    + intros p. rewrite Enp, Ecalls, Epr. apply Hfresh.
Qed.

(** The state of a request moves with the fields it reads. *)
Lemma advances_same (r : request) (w w' : world) :
  calls (req_promise r) (trace w') = calls (req_promise r) (trace w) →
  table w' !! req_id r = table w !! req_id r →
  timers w' !! req_timer r = timers w !! req_timer r →
  promises w' !! req_promise r = promises w !! req_promise r →
  advances r w w'.
Proof.
  intros Ec Eta Eti Epr.
  unfold advances, in_flight, stalled, settled_once, abandoned.
  rewrite Ec, Eta, Eti, Epr. tauto.
Qed.

Lemma advances_refl (r : request) (w : world) : advances r w w.
Proof. by apply advances_same. Qed.

Lemma advances_trans (r : request) (w1 w2 w3 : world) :
  advances r w1 w2 → advances r w2 w3 → advances r w1 w3.
Proof.
  intros (A1 & A2 & A3 & A4) (B1 & B2 & B3 & B4). unfold advances.
  split_and!.
  - intros Hf. destruct (A1 Hf) as [?|[?|[?|?]]]; [auto| | |].
    + destruct B2 as [?|?]; auto.
    + auto.
    + auto.
  - intros Hs. destruct (A2 Hs) as [?|?]; auto.
  - auto.
  - auto.
Qed.

Lemma state_advances (r : request) (w w' : world) :
  advances r w w' →
  in_flight r w ∨ stalled r w ∨ settled_once r w ∨ abandoned r w →
  in_flight r w' ∨ stalled r w' ∨ settled_once r w' ∨ abandoned r w'.
Proof.
  intros (A1 & A2 & A3 & A4) [?|[?|[?|?]]]; [auto| | |].
  - destruct A2 as [?|?]; auto.
  - auto.
  - auto.
Qed.

Lemma settled_promises_fulfilled (p q : nat) (v : value)
    (m : gmap nat promise_state) :
  (∀ e, m !! p ≠ Some (Rejected e)) →
  ∀ e, settled_promises q (Fulfilled v) m !! p ≠ Some (Rejected e).
Proof.
  intros Hm e. unfold settled_promises.
  destruct (m !! q) as [[]|] eqn:Hq; try apply Hm.
  destruct (decide (p = q)) as [->|Hne].
  - by rewrite lookup_insert_eq.
  - rewrite lookup_insert_ne by done. apply Hm.
Qed.

Lemma transition_tracks (r : request) (w w' : world) :
  well_formed w → tracks r w → transition w w' → tracks r w' ∧ advances r w w'.
Proof.
  intros [Htable Htimers Hfresh] [(Hp & Ht & Hid) Howner Htimer Hstate Hful] Htr.
  pose proof (transition_counter w w' Htr) as Hcounter.
  destruct Htr as [[Eta Eti Ent Epr Enp _ Ecalls]
                  |time c suffix s id Ec Eta Eti Ent Epr Enp Hs Ecalls
                  |v _ Eta Eti Ent Epr Enp Ecalls
                  |key e v Hkey _ Eta Eti Ent Epr Enp Ecalls
                  |key e Hkey _ Eta Eti Ent Epr Enp Ecalls
                  |t cb Hcb _ Eta Eti Ent Epr Enp Ecalls].
  - assert (Hadv : advances r w w')
      by (apply advances_same; by rewrite ?Ecalls, ?Eta, ?Eti, ?Epr).
    split; [|exact Hadv]. split.
    + rewrite Enp, Ent. eauto using issued_mono.
    + intros id e. rewrite Eta. apply Howner.
    + intros t cb. rewrite Eti. apply Htimer.
    + by apply (state_advances r w).
    + intros e. rewrite Epr. apply Hful.
  - assert (Hnew : req_id r ≠ id) by (apply (issued_fresh w); [done|lia]).
    assert (Hadv : advances r w w').
    { apply advances_same; rewrite ?Ecalls, ?Eta, ?Eti, ?Epr.
      - destruct (Nat.eqb_spec (req_promise r) (next_promise w)); lia.
      - by rewrite lookup_insert_ne.
      - by rewrite lookup_insert_ne by lia.
      - by rewrite lookup_insert_ne by lia. }
    split; [|exact Hadv]. split.
    + rewrite Enp, Ent. split_and!; try lia. eauto using issued_mono.
    + intros id' e. rewrite Eta.
      intros [[<- <-]|[_ He]]%lookup_insert_Some; [simpl|by apply Howner].
      intros [?|[?|[?|?]]]; [done|lia..].
    + intros t cb. rewrite Eti.
      intros [[<- <-]|[_ Hcb]]%lookup_insert_Some; [simpl|by apply Htimer].
      intros [?|[?|?]]; [lia|done|lia].
    + by apply (state_advances r w).
    + intros e. rewrite Epr, lookup_insert_ne by lia. apply Hful.
  - assert (Hadv : advances r w w').
    { apply advances_same; rewrite ?Ecalls, ?Eta, ?Eti, ?Epr; try done.
      by rewrite lookup_insert_ne by lia. }
    split; [|exact Hadv]. split.
    + rewrite Enp, Ent. split_and!; try lia. eauto using issued_mono.
    + intros id e. rewrite Eta. apply Howner.
    + intros t cb. rewrite Eti. apply Htimer.
    + by apply (state_advances r w).
    + intros e. rewrite Epr, lookup_insert_ne by lia. apply Hful.
  - assert (Hadv : advances r w w').
    { destruct (decide (key = req_id r)) as [->|Hne].
      - destruct (Howner _ _ Hkey) as [_ ->]; [by left|]. simpl in *.
        assert (Hdone : calls (req_promise r) (trace w) = 0 →
                        promises w !! req_promise r = Some Pending →
                        settled_once r w').
        { intros Hc Hpending. unfold settled_once.
          rewrite Ecalls, Eta, Eti, Epr, Hc, Nat.eqb_refl. simpl.
          rewrite !lookup_delete_eq, (settled_promises_pending _ _ _ Hpending).
          split_and!; try done. by eexists. }
        unfold advances. split_and!.
        + intros (Hc & _ & _ & Hpending). right; right; left. by apply Hdone.
        + intros (Hc & _ & _ & Hpending). right. by apply Hdone.
        + intros (_ & Hgone & _). by rewrite Hkey in Hgone.
        + intros (_ & Hgone & _). by rewrite Hkey in Hgone.
      - assert (resolve e ≠ req_promise r ∧ timeoutId e ≠ req_timer r)
          as (Hres & Hti).
        { split; intros Heq; destruct (Howner _ _ Hkey) as [? _]; auto. }
        apply advances_same; rewrite ?Ecalls, ?Eta, ?Eti, ?Epr.
        + destruct (Nat.eqb_spec (req_promise r) (resolve e)); [done|lia].
        + by rewrite lookup_delete_ne.
        + by rewrite lookup_delete_ne.
        + by rewrite settled_promises_ne. }
    split; [|exact Hadv]. split.
    + rewrite Enp, Ent. split_and!; try lia. eauto using issued_mono.
    + intros id e'. rewrite Eta. intros [_ He]%lookup_delete_Some.
      by apply Howner.
    + intros t cb. rewrite Eti. intros [_ Hcb]%lookup_delete_Some.
      by apply Htimer.
    + by apply (state_advances r w).
    + rewrite Epr. by apply settled_promises_fulfilled.
  - assert (Hadv : advances r w w').
    { destruct (decide (key = req_id r)) as [->|Hne].
      - destruct (Howner _ _ Hkey) as [_ ->]; [by left|]. simpl in *.
        assert (Hstall : calls (req_promise r) (trace w) = 0 →
                         promises w !! req_promise r = Some Pending →
                         stalled r w').
        { intros Hc Hpending. unfold stalled.
          rewrite Ecalls, Eta, Eti, Epr, Hc, lookup_delete_eq. done. }
        unfold advances. split_and!.
        + intros (Hc & _ & _ & Hpending). right; left. by apply Hstall.
        + intros (Hc & _ & _ & Hpending). left. by apply Hstall.
        + intros (_ & Hgone & _). by rewrite Hkey in Hgone.
        + intros (_ & Hgone & _). by rewrite Hkey in Hgone.
      - assert (timeoutId e ≠ req_timer r) as Hti.
        { intros Heq; destruct (Howner _ _ Hkey) as [? _]; auto. }
        apply advances_same; rewrite ?Ecalls, ?Eta, ?Eti, ?Epr; try done.
        by rewrite lookup_delete_ne. }
    split; [|exact Hadv]. split.
    + rewrite Enp, Ent. split_and!; try lia. eauto using issued_mono.
    + intros id e'. rewrite Eta. by apply Howner.
    + intros t cb. rewrite Eti. intros [_ Hcb]%lookup_delete_Some.
      by apply Htimer.
    + by apply (state_advances r w).
    + intros e'. rewrite Epr. apply Hful.
  - assert (Hadv : advances r w w').
    { destruct (decide (t = req_timer r)) as [->|Hne].
      - destruct (Htimer _ _ Hcb) as [_ ->]; [by left|]. simpl in *.
        unfold advances. split_and!.
        + intros (Hc & _ & _ & Hpending). right; right; right.
          unfold abandoned. rewrite Ecalls, Eta, Eti, Epr, Hc, !lookup_delete_eq.
          done.
        + intros (_ & _ & Hdead & _). by rewrite Hcb in Hdead.
        + intros (_ & _ & Hdead & _). by rewrite Hcb in Hdead.
        + intros (_ & _ & Hdead & _). by rewrite Hcb in Hdead.
      - assert (timer_messageId cb ≠ req_id r) as Hmid.
        { intros Heq; destruct (Htimer _ _ Hcb) as [? _]; auto. }
        apply advances_same; rewrite ?Ecalls, ?Eta, ?Eti, ?Epr; try done.
        + by rewrite lookup_delete_ne.
        + by rewrite lookup_delete_ne. }
    split; [|exact Hadv]. split.
    + rewrite Enp, Ent. split_and!; try lia. eauto using issued_mono.
    + intros id e'. rewrite Eta. intros [_ He]%lookup_delete_Some.
      by apply Howner.
    + intros t' cb'. rewrite Eti. intros [_ Hcb']%lookup_delete_Some.
      by apply Htimer.
    + by apply (state_advances r w).
    + intros e'. rewrite Epr. apply Hful.
Qed.

(** ** The code moves by these transitions *)

#[local] Instance quiet_preorder : PreOrder quiet.
Proof.
  split.
  - intros w. by split.
  - intros w1 w2 w3 [A1 A2 A3 A4 A5 A6 A7] [B1 B2 B3 B4 B5 B6 B7].
    split; [congruence..|lia|]. intros p. by rewrite B7, A7.
Qed.

Lemma quiet_emit (w : world) (e : effect) :
  quiet_effect e → quiet w (set_trace (trace w ++ [e]) w).
Proof.
  intros He. split; try done. intros p. simpl. rewrite calls_app, (He p). lia.
Qed.

Lemma transition_quiet_l (w w1 w2 : world) :
  quiet w w1 → transition w1 w2 → transition w w2.
Proof.
  intros Hquiet Ht. pose proof Hquiet as [Eta Eti Ent Epr Enp Hc Ecalls].
  destruct Ht as [Hq| | | | |].
  - apply Quiet. by etransitivity.
  - eapply Requested; rewrite <- ?Eta, <- ?Eti, <- ?Ent, <- ?Epr, <- ?Enp;
      try done; [lia|]. intros p. by rewrite <- Ecalls.
  - eapply Announced; rewrite <- ?Eta, <- ?Eti, <- ?Ent, <- ?Epr, <- ?Enp;
      try done; [lia|]. intros p. by rewrite <- Ecalls.
  - eapply Answered; rewrite <- ?Eta, <- ?Eti, <- ?Ent, <- ?Epr, <- ?Enp;
      try done; [lia|]. intros p. by rewrite <- Ecalls.
  - eapply Refused; rewrite <- ?Eta, <- ?Eti, <- ?Ent, <- ?Epr, <- ?Enp;
      try done; [lia|]. intros p. by rewrite <- Ecalls.
  - eapply TimedOut; rewrite <- ?Eta, <- ?Eti, <- ?Ent, <- ?Epr, <- ?Enp;
      try done; [lia|]. intros p. by rewrite <- Ecalls.
Qed.

Lemma transition_quiet_r (w w1 w2 : world) :
  transition w w1 → quiet w1 w2 → transition w w2.
Proof.
  intros Ht Hquiet. pose proof Hquiet as [Eta Eti Ent Epr Enp Hc Ecalls].
  destruct Ht as [Hq| | | | |].
  - apply Quiet. by etransitivity.
  - eapply Requested; rewrite ?Eta, ?Eti, ?Ent, ?Epr, ?Enp;
      try done; [lia|]. intros p. by rewrite Ecalls.
  - eapply Announced; rewrite ?Eta, ?Eti, ?Ent, ?Epr, ?Enp;
      try done; [lia|]. intros p. by rewrite Ecalls.
  - eapply Answered; rewrite ?Eta, ?Eti, ?Ent, ?Epr, ?Enp;
      try done; [lia|]. intros p. by rewrite Ecalls.
  - eapply Refused; rewrite ?Eta, ?Eti, ?Ent, ?Epr, ?Enp;
      try done; [lia|]. intros p. by rewrite Ecalls.
  - eapply TimedOut; rewrite ?Eta, ?Eti, ?Ent, ?Epr, ?Enp;
      try done; [lia|]. intros p. by rewrite Ecalls.
Qed.

Ltac quiet_update :=
  split; unfold table, counter; simpl; try done; try lia;
  intros; rewrite ?calls_app; simpl; lia.

Lemma settle_fields (p : nat) (s : promise_state) (w : world) :
  bridge (settle p s w) = bridge w ∧ timers (settle p s w) = timers w ∧
  next_timer (settle p s w) = next_timer w ∧
  next_promise (settle p s w) = next_promise w ∧
  trace (settle p s w) = trace w ∧
  promises (settle p s w) = settled_promises p s (promises w).
Proof.
  unfold settle, settled_promises. by destruct (promises w !! p) as [[]|].
Qed.

Lemma js_lookup_own {A} (m : gmap string A) (key : string) (a : A) :
  js_lookup m key = Own a → m !! key = Some a.
Proof.
  unfold js_lookup. destruct (m !! key); [by intros [= ->]|].
  by destruct (existsb _ _).
Qed.

Lemma settle_timers (p : nat) (s : promise_state) (w : world) :
  timers (settle p s w) = timers w.
Proof. apply settle_fields. Qed.

Lemma settle_next_timer (p : nat) (s : promise_state) (w : world) :
  next_timer (settle p s w) = next_timer w.
Proof. apply settle_fields. Qed.

Lemma settle_next_promise (p : nat) (s : promise_state) (w : world) :
  next_promise (settle p s w) = next_promise w.
Proof. apply settle_fields. Qed.

Lemma settle_trace (p : nat) (s : promise_state) (w : world) :
  trace (settle p s w) = trace w.
Proof. apply settle_fields. Qed.

Lemma settle_promises (p : nat) (s : promise_state) (w : world) :
  promises (settle p s w) = settled_promises p s (promises w).
Proof. apply settle_fields. Qed.

Ltac settle_simpl :=
  unfold table, counter; simpl;
  rewrite ?settle_bridge, ?settle_timers, ?settle_next_timer,
    ?settle_next_promise, ?settle_trace, ?settle_promises; simpl.

Ltac count_calls :=
  intros; settle_simpl; rewrite ?calls_app; simpl;
  repeat match goal with |- context [(?a =? ?b)%nat] => destruct (a =? b)%nat end;
  lia.

Section Refinement.
Context `{Host}.

Lemma quiet_raise {A} (code message : string) (details : value) :
  respects quiet (@raise A code message details).
Proof. respects_auto; quiet_update. Qed.

Lemma quiet_debug_console (l : console_level) : respects quiet (debug_console l).
Proof. respects_auto; quiet_update. Qed.

Lemma quiet_validateMessage (message : value) :
  respects quiet (_validateMessage message).
Proof. respects_auto; quiet_update. Qed.

Lemma quiet_respondToMessage (messageId responseData targetOrigin status : value) :
  respects quiet (respondToMessage messageId responseData targetOrigin status).
Proof. respects_auto; quiet_update. Qed.

Lemma quiet_dispatch (message : value) : respects quiet (dispatch message).
Proof. respects_auto; quiet_update. Qed.

Lemma quiet_run_reaction (r : reaction) : respects quiet (run_reaction r).
Proof. respects_auto; quiet_update. Qed.

Lemma quiet_allowOrigins (origins : origins_arg) :
  respects quiet (allowOrigins origins).
Proof. respects_auto; quiet_update. Qed.

Lemma quiet_registerHandler (type : string) (h : option handler) :
  respects quiet (registerHandler type h).
Proof. respects_auto; quiet_update. Qed.

Lemma quiet_onMessage (c : option callback) : respects quiet (onMessage c).
Proof. respects_auto; quiet_update. Qed.

(** The response branch answers the entry it finds, or cancels its timer
    and throws, or changes nothing. *)
Lemma handle_response_transition (data : value) (w : world) :
  transition w (handle_response data w).2.
Proof.
  unfold handle_response, bind at 1, gets at 1.
  destruct (js_lookup _ _) as [e| |] eqn:Hlookup.
  - apply js_lookup_own in Hlookup.
    destruct (is_string (get data "status") "error");
      unfold clearTimeout, new_UniCanvasError, call_reject, call_resolve,
        delete_pending, throw, emit, bind, gets, modify, ret; simpl.
    + eapply (Refused _ _ _ e); settle_simpl; try done; count_calls.
    + eapply (Answered _ _ _ e); settle_simpl; try done; count_calls.
  - destruct (is_string (get data "status") "error"); apply Quiet;
      unfold new_UniCanvasError, throw, bind, gets, modify, ret; simpl;
      reflexivity.
  - apply Quiet. reflexivity.
Qed.

Lemma moves_quiet {A} (m : M A) : respects quiet m → moves m.
Proof. intros Hm w. apply Quiet, Hm. Qed.

Lemma moves_bind_l {A B} (m : M A) (k : A → M B) :
  respects quiet m → (∀ a, moves (k a)) → moves (bind m k).
Proof.
  intros Hm Hk w. unfold bind. specialize (Hm w).
  destruct (m w) as [[a|e] w1]; simpl in *.
  - eapply transition_quiet_l; [exact Hm|apply Hk].
  - by apply Quiet.
Qed.

Lemma task_transition (m : M unit) (w : world) :
  transition w (m w).2 → transition w (task m w).
Proof.
  intros Hm. unfold task. destruct (m w) as [[[]|e] w1]; simpl in *; [done|].
  eapply transition_quiet_r; [exact Hm|]. by apply quiet_emit.
Qed.

Lemma api_transition {A} (m : M A) (w : world) :
  transition w (m w).2 → transition w (api m w).
Proof.
  intros Hm. unfold api. destruct (m w) as [[a|e] w1]; simpl in *; [done|].
  eapply transition_quiet_r; [exact Hm|]. by apply quiet_emit.
Qed.

Lemma on_message_moves (origin : string) (data : value) :
  moves (on_message origin data).
Proof.
  unfold on_message. apply moves_bind_l; [by apply respects_gets; exact _|].
  intros list. destruct (_isOriginAllowed list origin) as [[|]|].
  - apply moves_bind_l; [apply quiet_validateMessage|]. intros valid.
    destruct valid; cbn [negb].
    + apply moves_bind_l; [apply quiet_debug_console|]. intros _.
      destruct (_ && _).
      * intros w. apply handle_response_transition.
      * apply moves_quiet, quiet_dispatch.
    + apply moves_quiet, quiet_debug_console.
  - apply moves_quiet, quiet_debug_console.
  - apply moves_quiet. by apply respects_throw; exact _.
Qed.

Lemma on_timeout_transition (t : nat) (cb : timer_callback) (w : world) :
  timers w !! t = Some cb →
  transition w
    (on_timeout cb (set_timers (delete t (timers w)) (next_timer w) w)).2.
Proof.
  intros Hcb.
  unfold on_timeout, delete_pending, new_UniCanvasError, call_reject, throw,
    emit, bind, gets, modify, ret; simpl.
  eapply (TimedOut _ _ t cb); settle_simpl; try done.
Qed.

Lemma postMessage_moves (message : value) (targetOrigin : string)
    (requiresResponse : bool) :
  moves (postMessage message targetOrigin requiresResponse).
Proof.
  unfold postMessage, postMessage_over.
  destruct (_ || _); [apply moves_quiet, quiet_raise|].
  destruct (String.eqb _ _); [apply moves_quiet, quiet_raise|].
  apply moves_bind_l; [by apply respects_gets; exact _|]. intros max.
  destruct (_ <? _)%Z; [apply moves_quiet, quiet_raise|].
  intros w.
  unfold _generateMessageId, debug_console, when, new_promise, setTimeout,
    store_pending, window_parent_postMessage, Promise_resolve, try_catch,
    random_string, date_now, emit, bind, gets, modify, ret.
  destruct requiresResponse, (target_accepted (VStr targetOrigin)) eqn:Htaken,
    (debug (opts (bridge w))) eqn:Hdebug;
    try rewrite (transport_error_string _ Htaken);
    unfold throw, call_reject, emit, bind, modify; simpl; rewrite ?Hdebug; simpl.
  1-2: eapply (Requested _ _ (Date_now (clock_reads w)) (S (counter w))
                 (random_suffix (random_draws w)) Pending);
      unfold table, counter; simpl; try done; [lia|count_calls].
  1-2: eapply (Requested _ _ (Date_now (clock_reads w)) (S (counter w))
                 (random_suffix (random_draws w))
                 (Rejected (DOMException "SyntaxError")));
      settle_simpl; try done;
      [lia|unfold settled_promises; by rewrite lookup_insert_eq, insert_insert_eq
      |count_calls].
  1-2: eapply Announced; unfold table, counter; simpl; try done; [lia|count_calls].
  1-2: apply Quiet; quiet_update.
Qed.

(** Every step of the bridge is one transition. *)
Lemma step_transition (o : op) (w : world) : transition w (step w o).
Proof.
  destruct o as [origins|message target rr|type h|c|mid data tgt status
                |origin data|t|]; unfold step.
  - apply api_transition, Quiet, quiet_allowOrigins.
  - apply api_transition, postMessage_moves.
  - apply api_transition, Quiet, quiet_registerHandler.
  - apply api_transition, Quiet, quiet_onMessage.
  - apply api_transition, Quiet, quiet_respondToMessage.
  - apply task_transition, on_message_moves.
  - destruct (timers w !! t) as [cb|] eqn:Hcb; [|by apply Quiet].
    unfold task.
    pose proof (on_timeout_transition t cb w Hcb) as Ht.
    destruct (on_timeout cb _) as [[[]|e] w1]; simpl in *; [done|].
    eapply transition_quiet_r; [exact Ht|]. by apply quiet_emit.
  - destruct (jobs w) as [|r rest]; [by apply Quiet|].
    apply (transition_quiet_l _ (set_jobs rest w)); [by split|].
    apply task_transition, Quiet, quiet_run_reaction.
Qed.

End Refinement.

(** ** Requests and their responses *)

Section Correlation.
Context `{Host}.

Lemma new_bridge_well_formed (o : constructor_options) :
  well_formed (new_SandboxBridge o).
Proof.
  split; unfold table; simpl; try done.
  intros p _. split; [|done]. by destruct (default false (given_debug o)).
Qed.

Lemma run_well_formed (ops : list op) (w : world) :
  well_formed w → well_formed (run w ops).
Proof.
  revert w. induction ops as [|o ops IH]; intros w Hw; [done|].
  simpl. apply IH. eapply transition_well_formed; [done|apply step_transition].
Qed.

Lemma run_tracks (r : request) (ops : list op) (w : world) :
  well_formed w → tracks r w → tracks r (run w ops) ∧ advances r w (run w ops).
Proof.
  revert w. induction ops as [|o ops IH]; intros w Hw Hr;
    [split; [done|apply advances_refl]|].
  simpl.
  destruct (transition_tracks r w (step w o) Hw Hr (step_transition o w))
    as [Hr' Hadv].
  destruct (IH (step w o)) as [Hr'' Hadv']; [|done|].
  - eapply transition_well_formed; [done|apply step_transition].
  - split; [done|]. by eapply advances_trans.
Qed.

Lemma next_messageId_shape (w : world) :
  next_messageId w
  = mk_id (Date_now (clock_reads w)) (S (counter w)) (random_suffix (random_draws w)).
Proof. reflexivity. Qed.

(** What a request leaves in the world, when the transport takes it. *)
Lemma postMessage_request (message : value) (targetOrigin : string) (w : world) :
  sendable w message targetOrigin →
  target_accepted (VStr targetOrigin) = true →
  ∃ w1,
    postMessage message targetOrigin true w = (Ok (next_promise w), w1) ∧
    table w1 = <[next_messageId w := entry_of (request_of w)]> (table w) ∧
    timers w1 = <[next_timer w := callback_of (request_of w)]> (timers w) ∧
    next_timer w1 = S (next_timer w) ∧
    promises w1 = <[next_promise w := Pending]> (promises w) ∧
    next_promise w1 = S (next_promise w) ∧
    counter w1 = S (counter w) ∧
    (∀ p, calls p (trace w1) = calls p (trace w)).
Proof.
  intros (Htruthy & Hobject & Htarget & Hsize) Htaken.
  unfold postMessage, postMessage_over. rewrite Htruthy, Hobject. cbn [negb orb].
  destruct (String.eqb_spec targetOrigin "") as [|_]; [done|].
  unfold bind at 1, gets at 1.
  apply Z.ltb_ge in Hsize. rewrite Hsize.
  unfold _generateMessageId, debug_console, when, new_promise, setTimeout,
    store_pending, window_parent_postMessage, try_catch,
    random_string, date_now, emit, bind, gets, modify, ret.
  rewrite Htaken.
  destruct (debug (opts (bridge w))) eqn:Hdebug; simpl; rewrite Hdebug; simpl;
    eexists; (split; [reflexivity|]); unfold table, counter; simpl;
    split_and!; try done; count_calls.
Qed.

Lemma step_postMessage (message : value) (targetOrigin : string) (w w1 : world)
    (p : nat) :
  postMessage message targetOrigin true w = (Ok p, w1) →
  step w (CallPostMessage message targetOrigin true) = w1.
Proof. intros Hrun. unfold step, api. by rewrite Hrun. Qed.

(** A request made in a well-formed world, and taken by the transport, is
    in flight and owns its id, its promise and its timer. *)
Lemma request_tracked (message : value) (targetOrigin : string) (w : world) :
  well_formed w → sendable w message targetOrigin →
  target_accepted (VStr targetOrigin) = true →
  tracks (request_of w) (step w (CallPostMessage message targetOrigin true)) ∧
  in_flight (request_of w) (step w (CallPostMessage message targetOrigin true)).
Proof.
  intros [Htable Htimers Hfresh] Hsend Htaken.
  destruct (postMessage_request message targetOrigin w Hsend Htaken)
    as (w1 & Hrun & Eta & Eti & Ent & Epr & Enp & Ec & Ecalls).
  rewrite (step_postMessage _ _ _ _ _ Hrun).
  assert (Hflight : in_flight (request_of w) w1).
  { unfold in_flight. rewrite Ecalls, Eta, Eti, Epr. simpl.
    rewrite !lookup_insert_eq. split_and!; try done. by apply Hfresh. }
  split; [|exact Hflight]. split.
  - simpl. rewrite Enp, Ent. split_and!; try lia.
    rewrite next_messageId_shape. eexists _, _, _. split; [done|lia].
  - intros id e. rewrite Eta.
    intros [[<- <-]|[Hne He]]%lookup_insert_Some; [done|].
    destruct (Htable id e He) as (Hres & Hrej & Hti & Hissued). simpl.
    intros [?|[?|[?|?]]]; [done|lia..].
  - intros t cb. rewrite Eti.
    intros [[<- <-]|[Hne Hcb]]%lookup_insert_Some; [done|].
    destruct (Htimers t cb Hcb) as (Hlt & Hrej & Hissued). simpl.
    intros [?|[Hid|?]]; [done| |lia].
    exfalso. simpl in Hid.
    apply (issued_fresh w _ (Date_now (clock_reads w)) (S (counter w))
             (random_suffix (random_draws w))) in Hissued; [|lia].
    by rewrite <- next_messageId_shape in Hissued.
  - by left.
  - intros e. rewrite Epr. simpl. by rewrite lookup_insert_eq.
Qed.

(** Where the request has no entry, a response that names its id finds
    nothing: the branch returns at once, the world is the same. *)
Lemma late_response_ignored (data : value) (w0 w : world) :
  ToString (get data "responseToId") = next_messageId w0 →
  table w !! next_messageId w0 = None →
  handle_response data w = (Ok tt, w).
Proof.
  intros Hkey Hnone. unfold handle_response, bind, gets. rewrite Hkey.
  unfold js_lookup. fold (table w). rewrite Hnone.
  by rewrite next_messageId_shape, issued_not_inherited.
Qed.

(** The timeout of a request removes its entry and then throws: the
    continuation is not called. *)
Lemma timeout_throws (r : request) (w : world) :
  in_flight r w →
  trace (step w (TimerFires (req_timer r)))
  = (trace w ++ [EUncaught ReferenceError])%list ∧
  abandoned r (step w (TimerFires (req_timer r))).
Proof.
  intros (Hc & _ & Htimer & Hpending). unfold step. rewrite Htimer.
  split; [done|]. unfold abandoned, table. simpl.
  rewrite calls_app, Hc, !lookup_delete_eq. done.
Qed.

(** An error response that finds the entry of a request cancels its timer
    and then throws: the continuation is not called and the entry stays. *)
Lemma error_response_throws (data : value) (r : request) (w : world) :
  in_flight r w ∨ stalled r w →
  ToString (get data "responseToId") = req_id r →
  is_string (get data "status") "error" = true →
  ∃ w',
    handle_response data w = (Threw ReferenceError, w') ∧
    trace w' = (trace w ++ [EClearTimeout (req_timer r)])%list ∧
    stalled r w'.
Proof.
  intros Hwaits Hkey Hstatus.
  assert (Hentry : table w !! req_id r = Some (entry_of r))
    by (by destruct Hwaits as [(_ & ? & _)|(_ & ? & _)]).
  assert (Hc : calls (req_promise r) (trace w) = 0)
    by (by destruct Hwaits as [(? & _)|(? & _)]).
  assert (Hpending : promises w !! req_promise r = Some Pending)
    by (by destruct Hwaits as [(_ & _ & _ & ?)|(_ & _ & _ & ?)]).
  unfold handle_response, bind at 1, gets at 1.
  rewrite Hkey. unfold js_lookup. fold (table w). rewrite Hentry, Hstatus.
  eexists. split; [reflexivity|]. split; [done|].
  unfold stalled, table. simpl. rewrite calls_app, Hc, lookup_delete_eq. done.
Qed.

(** C1.  The code at the failing inputs.  A request made by [postMessage]
    with [requiresResponse] and taken by the transport, followed by any
    operations and events.  Its promise is never rejected.  The request
    waits (no continuation called, entry in the table, timer live, promise
    pending), or it is stalled (as before, but the timer is cancelled), or
    it was fulfilled by one call, or it is lost (no continuation called,
    entry and timer gone, promise pending).  While it waits, the firing of
    its timer removes the entry and throws a [ReferenceError] in place of
    the rejection: the request is lost, and stays so whatever follows.
    While it waits or is stalled, the branch of the listener for an error
    response that names its id cancels the timer and throws a
    [ReferenceError] in place of the rejection: the entry stays, the
    request is stalled, and from there only a success response ends it.
    Once the request is fulfilled or lost, a response that names the id
    leaves the world as it is without throwing, and so does the firing of
    the timer. *)
Theorem rejections_never_reach_the_promise (o : constructor_options)
    (before after : list op) (message : value) (targetOrigin : string) :
  let w0 := run (new_SandboxBridge o) before in
  let r := request_of w0 in
  let w := run (step w0 (CallPostMessage message targetOrigin true)) after in
  sendable w0 message targetOrigin →
  target_accepted (VStr targetOrigin) = true →
  (postMessage message targetOrigin true w0).1 = Ok (req_promise r) ∧
  (∀ e, promises w !! req_promise r ≠ Some (Rejected e)) ∧
  (in_flight r w ∨ stalled r w ∨ settled_once r w ∨ abandoned r w) ∧
  (in_flight r w →
     let w' := step w (TimerFires (req_timer r)) in
     trace w' = (trace w ++ [EUncaught ReferenceError])%list ∧
     abandoned r w' ∧
     ∀ later, abandoned r (run w' later)) ∧
  (in_flight r w ∨ stalled r w →
     ∀ data, ToString (get data "responseToId") = req_id r →
             is_string (get data "status") "error" = true →
             ∃ w', handle_response data w = (Threw ReferenceError, w') ∧
                   trace w' = (trace w ++ [EClearTimeout (req_timer r)])%list ∧
                   stalled r w' ∧
                   ∀ later, stalled r (run w' later)
                            ∨ settled_once r (run w' later)) ∧
  (settled_once r w ∨ abandoned r w →
     (∀ data, ToString (get data "responseToId") = req_id r →
              handle_response data w = (Ok tt, w)) ∧
     step w (TimerFires (req_timer r)) = w).
Proof.
  intros w0 r w Hsend Htaken.
  assert (Hw0 : well_formed w0) by apply run_well_formed, new_bridge_well_formed.
  destruct (request_tracked message targetOrigin w0 Hw0 Hsend Htaken)
    as [Htracks _].
  assert (Hw1 : well_formed (step w0 (CallPostMessage message targetOrigin true)))
    by (eapply transition_well_formed; [done|apply step_transition]).
  assert (Hw : well_formed w) by (by apply run_well_formed).
  destruct (run_tracks r after _ Hw1 Htracks) as [Hr _]. fold w in Hr.
  pose proof Hr as [_ _ _ Hstate Hful].
  split_and!.
  - destruct (postMessage_request message targetOrigin w0 Hsend Htaken)
      as (w1 & -> & _).
    done.
  - exact Hful.
  - exact Hstate.
  - intros Hflight w'.
    assert (Hr' : tracks r w' ∧ advances r w w')
      by (apply transition_tracks; [done..|apply step_transition]).
    destruct Hr' as [Hr' _].
    destruct (timeout_throws r w Hflight) as [Htrace Hlost].
    split_and!; [exact Htrace|exact Hlost|].
    intros later.
    destruct (run_tracks r later w') as [_ (_ & _ & _ & Hstay)]; [|done|auto].
    eapply transition_well_formed; [done|apply step_transition].
  - intros Hwaits data Hkey Hstatus.
    destruct (error_response_throws data r w Hwaits Hkey Hstatus)
      as (w' & Hrun & Htrace & Hstalled).
    exists w'. split_and!; [exact Hrun|exact Htrace|exact Hstalled|].
    assert (Htr : transition w w').
    { pose proof (handle_response_transition data w) as Htr.
      by rewrite Hrun in Htr. }
    intros later.
    destruct (transition_tracks r w w' Hw Hr Htr) as [Hr' _].
    destruct (run_tracks r later w') as [_ (_ & Hstay & _)]; [|done|auto].
    by eapply transition_well_formed.
  - intros Hover.
    assert (Hgone : table w !! req_id r = None)
      by (by destruct Hover as [(_ & ? & _)|(_ & ? & _)]).
    assert (Hdead : timers w !! req_timer r = None)
      by (by destruct Hover as [(_ & _ & ? & _)|(_ & _ & ? & _)]).
    split.
    + intros data Hkey. by apply (late_response_ignored data w0).
    + unfold step. by rewrite Hdead.
Qed.

Lemma next_messageId_truthy (w : world) : truthy (VStr (next_messageId w)) = true.
Proof. reflexivity. Qed.

(** What the response branch does with a success response that finds its
    entry. *)
Lemma handle_response_resolves (data : value) (key : string) (e : PendingResponse)
    (w : world) :
  ToString (get data "responseToId") = key →
  table w !! key = Some e →
  is_string (get data "status") "error" = false →
  ∃ w',
    handle_response data w = (Ok tt, w') ∧
    promises w' = settled_promises (resolve e) (Fulfilled (get data "payload"))
                    (promises w) ∧
    trace w' = (trace w ++ [EClearTimeout (timeoutId e);
                            EResolve (resolve e) (get data "payload")])%list.
Proof.
  intros Hkey He Hstatus. unfold handle_response, bind at 1, gets at 1.
  rewrite Hkey. unfold js_lookup. fold (table w). rewrite He, Hstatus.
  unfold clearTimeout, call_resolve, delete_pending, emit, bind, gets, modify, ret.
  simpl. eexists. split; [reflexivity|]. settle_simpl.
  split; [done|]. by rewrite <- app_assoc.
Qed.

(** C2.  A request made by [postMessage] with [requiresResponse] and taken
    by the transport, followed by any operations and events, then a message
    event from an allowed origin whose data is valid, is a response, carries
    the id of the request as [responseToId] and a status other than
    'error': if the timer of the request is still live (the timeout has not
    fired, no earlier response cancelled it), the promise [postMessage]
    returned is fulfilled with exactly the payload of the response. *)
Theorem matching_response_fulfils (o : constructor_options)
    (before after : list op) (message : value) (targetOrigin origin : string)
    (data : value) (w1 : world) :
  let w0 := run (new_SandboxBridge o) before in
  let r := request_of w0 in
  let w := run (step w0 (CallPostMessage message targetOrigin true)) after in
  let w' := step w (MessageEvent origin data) in
  sendable w0 message targetOrigin →
  target_accepted (VStr targetOrigin) = true →
  is_Some (timers w !! req_timer r) →
  _isOriginAllowed (allowlist w) origin = Some true →
  _validateMessage data w = (Ok true, w1) →
  truthy (get data "isResponse") = true →
  get data "responseToId" = VStr (req_id r) →
  is_string (get data "status") "error" = false →
  (postMessage message targetOrigin true w0).1 = Ok (req_promise r) ∧
  promises w' !! req_promise r = Some (Fulfilled (get data "payload")) ∧
  trace w' = (trace (logged w1)
              ++ [EClearTimeout (req_timer r);
                  EResolve (req_promise r) (get data "payload")])%list ∧
  settled_once r w'.
Proof.
  intros w0 r w w' Hsend Htaken Hlive Hallowed Hvalid Hresp Hid Hstatus.
  assert (Hw0 : well_formed w0) by apply run_well_formed, new_bridge_well_formed.
  destruct (request_tracked message targetOrigin w0 Hw0 Hsend Htaken)
    as [Htracks _].
  assert (Hw1 : well_formed (step w0 (CallPostMessage message targetOrigin true)))
    by (eapply transition_well_formed; [done|apply step_transition]).
  assert (Hw : well_formed w) by (by apply run_well_formed).
  destruct (run_tracks r after _ Hw1 Htracks) as [Hr _]. fold w in Hr.
  assert (Hr' : tracks r w' ∧ advances r w w')
    by (apply transition_tracks; [done..|apply step_transition]).
  destruct Hr' as [Hr' _].
  destruct Hr as [_ _ _ [(Hcalls & Hentry & Htimer & Hpending)
                        |[(_ & _ & Hdead & _)
                         |[(_ & _ & Hdead & _)|(_ & _ & Hdead & _)]]] _];
    try (rewrite Hdead in Hlive; by destruct Hlive).
  assert (Hframe : table (logged w1) = table w
                   ∧ promises (logged w1) = promises w).
  { unfold table. destruct (logged_frame w1) as (-> & _ & _ & -> & _).
    by destruct (validateMessage_frame _ _ _ _ Hvalid) as [->| ->]. }
  destruct Hframe as [Etable Epromises].
  destruct (handle_response_resolves data (req_id r) (entry_of r) (logged w1))
    as (w2 & Hrun & Epr & Etr); [by rewrite Hid|by rewrite Etable|done|].
  assert (Hstep : w' = w2).
  { subst w'. unfold step, task.
    rewrite (on_message_valid origin data w w1 Hallowed Hvalid).
    unfold is_response. rewrite Hresp, Hid.
    change (req_id r) with (next_messageId w0).
    rewrite next_messageId_truthy. cbn [andb].
    by rewrite Hrun. }
  assert (Hfulfilled : promises w' !! req_promise r
                       = Some (Fulfilled (get data "payload"))).
  { rewrite Hstep, Epr, Epromises. simpl.
    by apply settled_promises_pending. }
  split_and!.
  - destruct (postMessage_request message targetOrigin w0 Hsend Htaken)
      as (? & -> & _).
    done.
  - exact Hfulfilled.
  - by rewrite Hstep, Etr.
  - destruct Hr' as [_ _ _ [(_ & _ & _ & Hstill)
                           |[(_ & _ & _ & Hstill)
                            |[Hsettled|(_ & _ & _ & Hstill)]]] _];
      [rewrite Hfulfilled in Hstill; discriminate..|done
      |rewrite Hfulfilled in Hstill; discriminate].
Qed.

End Correlation.

(** ** No teardown *)

#[local] Instance appends_known_preorder : PreOrder appends_known.
Proof.
  split.
  - intros w. exists []. split; [by rewrite app_nil_r|constructor].
  - intros w1 w2 w3 (l1 & E1 & F1) (l2 & E2 & F2). exists (l1 ++ l2)%list.
    split; [by rewrite E2, E1, app_assoc|by apply Forall_app].
Qed.

Ltac known_update :=
  first
    [ by (exists []; split; [settle_simpl; by rewrite app_nil_r|constructor])
    | by (eexists [_]; split; [settle_simpl; reflexivity|by repeat constructor])
    | by (eexists [_; _]; split;
            [settle_simpl; by rewrite <- ?app_assoc
            |repeat constructor; simpl; auto]) ].

Lemma transition_sizes (w w' : world) :
  transition w w' →
  (size (table w) ≤ S (size (table w')))%nat ∧
  (size (timers w) ≤ S (size (timers w')))%nat.
Proof.
  destruct 1 as [[Eta Eti _ _ _ _ _]
                |time c suffix s id _ Eta Eti _ _ _ _ _
                |v _ Eta Eti _ _ _ _
                |key e v _ _ Eta Eti _ _ _ _
                |key e _ _ Eta Eti _ _ _ _
                |t cb _ _ Eta Eti _ _ _ _]; rewrite Eta, Eti;
    rewrite ?map_size_insert, ?map_size_delete;
    repeat case_match; simpl; lia.
Qed.

Lemma quiet_keeps_all (w w' : world) : quiet w w' → keeps_all w w'.
Proof. intros [Eta Eti _ _ _ _ _]. split; intros ? ?; by rewrite ?Eta, ?Eti. Qed.

Section Teardown.
Context `{Host}.

Lemma api_quiet {A} (m : M A) (w : world) :
  quiet w (m w).2 → quiet w (api m w).
Proof.
  unfold api. destruct (m w) as [[a|e] w1]; simpl; [done|].
  intros Hm. etransitivity; [exact Hm|]. by apply quiet_emit.
Qed.

Lemma task_quiet (m : M unit) (w : world) :
  quiet w (m w).2 → quiet w (task m w).
Proof.
  unfold task. destruct (m w) as [[[]|e] w1]; simpl; [done|].
  intros Hm. etransitivity; [exact Hm|]. by apply quiet_emit.
Qed.

(** [postMessage] adds to the table and to the timers, under a new id and
    a new handle. *)
Lemma postMessage_keeps_all (message : value) (targetOrigin : string)
    (requiresResponse : bool) (w : world) :
  well_formed w →
  keeps_all w (postMessage message targetOrigin requiresResponse w).2.
Proof.
  intros [Htable Htimers _].
  assert (Hquiet : ∀ {A} code text details,
             keeps_all w (@raise A code text details w).2)
    by (intros; apply quiet_keeps_all, quiet_raise).
  unfold postMessage, postMessage_over.
  destruct (_ || _); [apply Hquiet|].
  destruct (String.eqb _ _); [apply Hquiet|].
  unfold bind at 1, gets at 1.
  destruct (_ <? _)%Z; [apply Hquiet|].
  unfold _generateMessageId, debug_console, when, new_promise, setTimeout,
    store_pending, window_parent_postMessage, Promise_resolve, try_catch,
    random_string, date_now, emit, bind, gets, modify, ret.
  assert (Hfresh : ∀ id e, table w !! id = Some e → id ≠ next_messageId w).
  { intros id e He. destruct (Htable id e He) as (_ & _ & _ & Hissued).
    rewrite next_messageId_shape. apply (issued_fresh w); [done|lia]. }
  assert (Hhandle : ∀ t cb, timers w !! t = Some cb → t ≠ next_timer w).
  { intros t cb Hcb. destruct (Htimers t cb Hcb) as (? & _). lia. }
  destruct requiresResponse, (target_accepted (VStr targetOrigin)) eqn:Htaken,
    (debug (opts (bridge w))) eqn:Hdebug;
    try rewrite (transport_error_string _ Htaken);
    unfold throw, call_reject, emit, bind, modify; simpl; rewrite ?Hdebug; simpl;
    (split; [intros id e He|intros t cb Hcb]); settle_simpl; try done;
    rewrite lookup_insert_ne; try done.
  all: first [ intros <-; by eapply Hfresh | intros <-; by eapply Hhandle ].
Qed.

Lemma answers_quiet (data : value) (w w' : world) : quiet w w' → answers data w w'.
Proof. intros [Eta Eti _ _ _ _ _]. split; by left. Qed.

Lemma answers_quiet_l (data : value) (w w1 w2 : world) :
  quiet w w1 → answers data w1 w2 → answers data w w2.
Proof. intros [Eta Eti _ _ _ _ _]. unfold answers. by rewrite Eta, Eti. Qed.

Lemma answers_quiet_r (data : value) (w w1 w2 : world) :
  answers data w w1 → quiet w1 w2 → answers data w w2.
Proof. intros Ha [Eta Eti _ _ _ _ _]. unfold answers. by rewrite Eta, Eti. Qed.

Lemma handle_response_answers (data : value) (w : world) :
  answers data w (handle_response data w).2.
Proof.
  unfold answers.
  destruct (handle_response data w) as [res w'] eqn:Hrun. simpl.
  revert Hrun. unfold handle_response, bind at 1, gets at 1.
  destruct (js_lookup _ _) as [e| |] eqn:Hlookup.
  - apply js_lookup_own in Hlookup. fold (table w) in Hlookup.
    destruct (is_string (get data "status") "error") eqn:Hstatus;
      unfold clearTimeout, new_UniCanvasError, call_reject, call_resolve,
        delete_pending, throw, emit, bind, gets, modify, ret; simpl;
      intros [= _ <-]; settle_simpl.
    + split; [by left|right]. exists e. split; [exact Hlookup|done].
    + split; [by right|right]. exists e. split; [exact Hlookup|done].
  - destruct (is_string (get data "status") "error");
      unfold new_UniCanvasError, throw, bind, gets, modify, ret; simpl;
      intros [= _ <-]; (split; by left).
  - intros [= _ <-]. split; by left.
Qed.

Lemma on_message_answers (origin : string) (data : value) (w : world) :
  answers data w (on_message origin data w).2.
Proof.
  unfold on_message, bind at 1, gets at 1.
  destruct (_isOriginAllowed _ origin) as [[|]|].
  - unfold bind at 1.
    pose proof (quiet_validateMessage data w) as Hvalid.
    destruct (_validateMessage data w) as [[valid|e] w1]; simpl in Hvalid;
      [|by apply answers_quiet].
    destruct valid; cbn [negb].
    + unfold bind at 1.
      pose proof (quiet_debug_console Log w1) as Hlog.
      destruct (debug_console Log w1) as [[[]|e] w2]; simpl in Hlog;
        [|apply answers_quiet; by etransitivity].
      apply (answers_quiet_l data w w2); [by etransitivity|].
      destruct (_ && _).
      * apply handle_response_answers.
      * apply answers_quiet, quiet_dispatch.
    + apply (answers_quiet_l data w w1); [done|].
      apply answers_quiet, quiet_debug_console.
  - apply answers_quiet, quiet_debug_console.
  - by apply answers_quiet.
Qed.

(** What a step leaves in the table and among the timers. *)
Lemma step_frame (o : op) (w : world) :
  well_formed w →
  (∀ id e, table w !! id = Some e →
           table (step w o) !! id = Some e ∨ may_remove_entry o w id) ∧
  (∀ t cb, timers w !! t = Some cb →
           timers (step w o) !! t = Some cb ∨ may_stop_timer o w t).
Proof.
  intros Hw.
  assert (Hkeeps : keeps_all w (step w o) →
            (∀ id e, table w !! id = Some e →
                     table (step w o) !! id = Some e ∨ may_remove_entry o w id) ∧
            (∀ t cb, timers w !! t = Some cb →
                     timers (step w o) !! t = Some cb ∨ may_stop_timer o w t)).
  { intros [Hta Hti]. split; intros ? ? ?; left; auto. }
  destruct o as [origins|message target rr|type h|c|mid data tgt status
                |origin data|t|]; unfold step in *.
  - apply Hkeeps, quiet_keeps_all, api_quiet, quiet_allowOrigins.
  - apply Hkeeps.
    pose proof (postMessage_keeps_all message target rr w Hw) as Hpost.
    unfold api. destruct (postMessage message target rr w) as [[p|e] w1];
      simpl in Hpost; [done|].
    destruct Hpost as [Hta Hti]. split; intros ? ? ?; [by apply Hta|by apply Hti].
  - apply Hkeeps, quiet_keeps_all, api_quiet, quiet_registerHandler.
  - apply Hkeeps, quiet_keeps_all, api_quiet, quiet_onMessage.
  - apply Hkeeps, quiet_keeps_all, api_quiet, quiet_respondToMessage.
  - clear Hkeeps.
    assert (Ha : answers data w (task (on_message origin data) w)).
    { pose proof (on_message_answers origin data w) as Ha. unfold task.
      destruct (on_message origin data w) as [[[]|e] w1]; simpl in Ha; [done|].
      eapply answers_quiet_r; [exact Ha|]. by apply quiet_emit. }
    destruct Ha as [Hta Hti]. simpl. split.
    + intros id e He. destruct Hta as [->|[Hstatus ->]]; [by left|].
      destruct (decide (ToString (get data "responseToId") = id)) as [Heq|Hne].
      * by right.
      * left. by rewrite lookup_delete_ne.
    + intros t cb Hcb. destruct Hti as [->|(e & He & ->)]; [by left|].
      destruct (decide (timeoutId e = t)) as [Heq|Hne].
      * right. by exists e.
      * left. by rewrite lookup_delete_ne.
  - clear Hkeeps. destruct (timers w !! t) as [cb|] eqn:Hcb.
    + unfold task, on_timeout, delete_pending, new_UniCanvasError, call_reject,
        throw, emit, bind, gets, modify, ret; simpl. split.
      * intros id e He.
        destruct (decide (timer_messageId cb = id)) as [Heq|Hne].
        -- right. by exists cb.
        -- left. unfold table in *. simpl. by rewrite lookup_delete_ne.
      * intros t' cb' Hcb'. destruct (decide (t = t')) as [Heq|Hne].
        -- by right.
        -- left. by rewrite lookup_delete_ne.
    + split; intros ? ? ?; by left.
  - apply Hkeeps, quiet_keeps_all.
    destruct (jobs w) as [|r rest]; [reflexivity|].
    etransitivity; [|apply task_quiet, quiet_run_reaction]. by split.
Qed.

Lemma known_handle_response (data : value) :
  respects appends_known (handle_response data).
Proof.
  intros w. unfold handle_response, bind at 1, gets at 1.
  destruct (js_lookup _ _) as [e| |];
    destruct (is_string (get data "status") "error");
    unfold clearTimeout, new_UniCanvasError, call_reject, call_resolve,
      delete_pending, emit, throw, bind, gets, modify, ret; simpl;
    known_update.
Qed.

Lemma known_on_timeout (cb : timer_callback) :
  respects appends_known (on_timeout cb).
Proof.
  intros w.
  unfold on_timeout, delete_pending, new_UniCanvasError, call_reject, throw,
    emit, bind, gets, modify, ret; simpl.
  known_update.
Qed.

Lemma known_raise {A} (code message : string) (details : value) :
  respects appends_known (@raise A code message details).
Proof. respects_auto; known_update. Qed.

Lemma known_postMessage (message : value) (targetOrigin : string)
    (requiresResponse : bool) :
  respects appends_known (postMessage message targetOrigin requiresResponse).
Proof.
  unfold postMessage, postMessage_over.
  destruct (_ || _); [apply known_raise|].
  destruct (String.eqb _ _); [apply known_raise|].
  apply respects_bind; [exact _|by apply respects_gets; exact _|]. intros max.
  destruct (_ <? _)%Z; [apply known_raise|].
  intros w.
  unfold _generateMessageId, debug_console, when, new_promise, setTimeout,
    store_pending, window_parent_postMessage, Promise_resolve, try_catch,
    random_string, date_now, emit, bind, gets, modify, ret.
  destruct requiresResponse, (target_accepted (VStr targetOrigin)) eqn:Htaken,
    (debug (opts (bridge w))) eqn:Hdebug;
    try rewrite (transport_error_string _ Htaken);
    unfold throw, call_reject, emit, bind, modify; simpl; rewrite ?Hdebug; simpl;
    first [ by (exists []; split; [by rewrite app_nil_r|constructor])
          | by (eexists; split;
                  [settle_simpl; by rewrite <- ?app_assoc|by repeat constructor]) ].
Qed.

Lemma known_on_message (origin : string) (data : value) :
  respects appends_known (on_message origin data).
Proof.
  unfold on_message. repeat respects_step.
  all: try apply known_handle_response.
  all: respects_auto; known_update.
Qed.

Lemma step_appends_known (o : op) (w : world) : appends_known w (step w o).
Proof.
  assert (Htrace : ∀ w e,
             known_effect e → appends_known w (set_trace (trace w ++ [e]) w)).
  { intros w0 e He. exists [e]. split; [done|by constructor]. }
  destruct o as [origins|message target rr|type h|c|mid data tgt status
                |origin data|t|]; unfold step.
  - apply (respects_api appends_known); [|by intros; apply Htrace].
    respects_auto; known_update.
  - apply (respects_api appends_known); [|by intros; apply Htrace].
    apply known_postMessage.
  - apply (respects_api appends_known); [|by intros; apply Htrace].
    respects_auto; known_update.
  - apply (respects_api appends_known); [|by intros; apply Htrace].
    respects_auto; known_update.
  - apply (respects_api appends_known); [|by intros; apply Htrace].
    respects_auto; known_update.
  - apply (respects_task appends_known); [|by intros; apply Htrace].
    apply known_on_message.
  - destruct (timers w !! t) as [cb|]; [|reflexivity].
    etransitivity;
      [|apply (respects_task appends_known);
        [apply known_on_timeout|by intros; apply Htrace]].
    known_update.
  - destruct (jobs w) as [|r rest]; [reflexivity|].
    etransitivity;
      [|apply (respects_task appends_known); [|by intros; apply Htrace]].
    + known_update.
    + respects_auto; known_update.
Qed.


End Teardown.


(** ** The statements at concrete inputs

    Each statement that has hypotheses is applied once to the reference
    host: the scenario of the specification for the origin policy (allowlist
    [https://a.test], message from [https://b.test]), a request answered
    with [{ pong: true }], and the inputs named by the statements. *)

Example default_ceiling :
  maxMessageSize (opts (bridge (new_SandboxBridge no_options))) = 1048576%Z.
Proof. reflexivity. Qed.

Lemma origin_policy_fails_closed_witness :
  _isOriginAllowed (allowlist (new_SandboxBridge trusting_a_test)) "https://b.test"
    = Some false ∧
  on_message "https://b.test" ping_notification (new_SandboxBridge trusting_a_test)
    = (Ok tt, warned (new_SandboxBridge trusting_a_test)).
Proof.
  apply (origin_policy_fails_closed (H := reference_host)).
  right. split.
  - intros Hin%list_elem_of_singleton. discriminate.
  - intros p Hp%list_elem_of_singleton. subst p. reflexivity.
Defined.

Lemma allowlist_only_grows_witness :
  allowlist (step (new_SandboxBridge no_options)
               (CallAllowOrigins (ArrayOf ["https://a.test"])))
    = ["https://a.test"] ∧
  _isOriginAllowed
    (allowlist (step (new_SandboxBridge trusting_a_test)
                  (CallAllowOrigins (ArrayOf ["https://b.test"]))))
    "https://a.test" = Some true.
Proof.
  destruct (allowlist_only_grows (H := reference_host)
              (new_SandboxBridge no_options) ["https://a.test"] []
              "https://a.test") as (Happ & _).
  destruct (allowlist_only_grows (H := reference_host)
              (new_SandboxBridge trusting_a_test) ["https://b.test"]
              [CallPostMessage ping "https://a.test" true] "https://a.test")
    as (_ & _ & _ & Hacc).
  split; [exact Happ|]. apply Hacc. reflexivity.
Defined.

Lemma size_gate_counts_code_units_witness :
  utf8_length (JSON_stringify accented_payload) = 10 ∧
  ∃ p w',
    postMessage accented_payload "https://a.test" false (new_SandboxBridge ceiling_nine)
      = (Ok p, w') ∧
    EPostMessage (envelope (next_messageId (new_SandboxBridge ceiling_nine))
                    (Date_now 1) "https://a.test" accented_payload false)
                 (VStr "https://a.test") ∈ trace w'.
Proof.
  apply (size_gate_counts_code_units (H := reference_host) "https://a.test"
           (new_SandboxBridge ceiling_nine)).
  - reflexivity.
  - reflexivity.
  - discriminate.
Defined.

Lemma unobserved_rejection_without_response_witness :
  let w := step (new_SandboxBridge trusting_a_test)
             (CallRegisterHandler "ping" (Some failing_handler)) in
  trace (step w (MessageEvent "https://a.test" ping_notification))
  = [ EHandler "ping" ping (meta_of ping_notification);
      EUnhandledRejection (Raised (VObj [("message", VStr "boom")])) ].
Proof.
  intros w.
  destruct (unobserved_rejection_without_response (H := reference_host)
              "https://a.test" ping_notification "ping" failing_handler
              (VObj [("message", VStr "boom")]) w
              (set_clock_reads 1 w)) as [Hrun _].
  - reflexivity.
  - reflexivity.
  - reflexivity.
  - reflexivity.
  - discriminate.
  - reflexivity.
  - reflexivity.
  - reflexivity.
  - unfold step, task. rewrite Hrun. reflexivity.
Defined.

Lemma entry_registered_before_transport_witness :
  let w := new_SandboxBridge no_options in
  ∃ w1,
    table w1 !! "msg_1700000000000_1_k3x9q0abc"
      = Some {| resolve := 0; reject := 0; timeoutId := 0 |} ∧
    postMessage ping "https://a.test" true w
    = (Ok 0, (window_parent_postMessage
                (envelope "msg_1700000000000_1_k3x9q0abc" 1700000000001
                   "https://a.test" ping true)
                (VStr "https://a.test") w1).2).
Proof.
  intros w.
  destruct (entry_registered_before_transport (H := reference_host)
              window_parent_postMessage ping "https://a.test" w)
    as (w1 & Hentry & _ & _ & Hrun).
  - repeat split; [discriminate|]. simpl. lia.
  - exists w1. split; [exact Hentry|exact Hrun].
Defined.

Lemma rejections_never_reach_the_promise_witness :
  let w0 := run (new_SandboxBridge trusting_a_test) [] in
  let r := request_of w0 in
  let w := run (step w0 (CallPostMessage ping "https://a.test" true)) [] in
  let w' := step w (TimerFires (req_timer r)) in
  trace w' = (trace w ++ [EUncaught ReferenceError])%list ∧
  abandoned r w' ∧
  abandoned r (run w' [MessageEvent "https://a.test" pong_response]).
Proof.
  intros w0 r w w'.
  destruct (rejections_never_reach_the_promise (H := reference_host)
              trusting_a_test [] [] ping "https://a.test")
    as (_ & _ & _ & Htimeout & _).
  - repeat split; [discriminate|]. vm_compute. discriminate.
  - reflexivity.
  - destruct Htimeout as (Htrace & Hlost & Hlater).
    + unfold in_flight. vm_compute. repeat split.
    + split_and!; [exact Htrace|exact Hlost|apply Hlater].
Defined.

Lemma matching_response_fulfils_witness :
  let w0 := run (new_SandboxBridge trusting_a_test) [] in
  let r := request_of w0 in
  let w := run (step w0 (CallPostMessage ping "https://a.test" true)) [] in
  let w' := step w (MessageEvent "https://a.test" pong_response) in
  (postMessage ping "https://a.test" true w0).1 = Ok (req_promise r) ∧
  promises w' !! req_promise r = Some (Fulfilled pong).
Proof.
  intros w0 r w w'.
  destruct (matching_response_fulfils (H := reference_host) trusting_a_test [] []
              ping "https://a.test" "https://a.test" pong_response
              (set_clock_reads 3 w)) as (Hpromise & Hfulfilled & _).
  - repeat split; [discriminate|]. vm_compute. discriminate.
  - reflexivity.
  - eexists. vm_compute. reflexivity.
  - vm_compute. reflexivity.
  - vm_compute. reflexivity.
  - vm_compute. reflexivity.
  - vm_compute. reflexivity.
  - vm_compute. reflexivity.
  - split; [exact Hpromise|exact Hfulfilled].
Defined.

(** ** Scenarios of the specification, run on the reference host *)

(** A handler for [ping] returns [{ pong: true }]; a request of type [ping]
    that requires a response is answered with that payload, to its source. *)
Example ping_is_answered_with_pong :
  trace (run (new_SandboxBridge trusting_a_test)
           [ CallRegisterHandler "ping" (Some pong_handler);
             MessageEvent "https://a.test" ping_request;
             ReactionRuns ])
  = [ EHandler "ping" ping (meta_of ping_request);
      EPostMessage
        (response_envelope "msg_1700000000001_1_k3x9q0abc" (VStr "m1")
           1700000000002 pong (VStr "success"))
        (VStr "https://a.test") ].
Proof. vm_compute. reflexivity. Qed.

(** Two requests, answered in the reverse order: each promise is fulfilled
    with the payload of its own response. *)
Example responses_out_of_order :
  let w := run (new_SandboxBridge trusting_a_test)
             [ CallPostMessage ping "https://a.test" true;
               CallPostMessage ping "https://a.test" true;
               MessageEvent "https://a.test"
                 (response_to "msg_1700000000002_2_k3x9q0abc" (VStr "B"));
               MessageEvent "https://a.test"
                 (response_to "msg_1700000000000_1_k3x9q0abc" (VStr "A")) ] in
  promises w !! 0 = Some (Fulfilled (VStr "A")) ∧
  promises w !! 1 = Some (Fulfilled (VStr "B")) ∧
  table w = ∅ ∧ timers w = ∅.
Proof. vm_compute. repeat split. Qed.

(** A request that nobody answers: the timer removes the entry and throws;
    no continuation is called, the promise stays pending, and the late
    response is ignored. *)
Example late_response_after_timeout :
  let w := run (new_SandboxBridge trusting_a_test)
             [ CallPostMessage ping "https://a.test" true;
               TimerFires 0;
               MessageEvent "https://a.test"
                 (response_to "msg_1700000000000_1_k3x9q0abc" pong) ] in
  calls 0 (trace w) = 0 ∧
  promises w !! 0 = Some Pending ∧
  EUncaught ReferenceError ∈ trace w ∧
  table w = ∅.
Proof. vm_compute. split_and!; [done|done|by repeat constructor|done]. Qed.

(** A request answered with an error: the timer is cancelled, the listener
    throws, the entry stays and the promise stays pending; the success
    response that follows fulfils it. *)
Example error_response_then_success :
  let w := run (new_SandboxBridge trusting_a_test)
             [ CallPostMessage ping "https://a.test" true;
               MessageEvent "https://a.test"
                 (VObj [ ("id", VStr "r");
                         ("responseToId", VStr "msg_1700000000000_1_k3x9q0abc");
                         ("timestamp", VNum (Int 1700000000000));
                         ("source", VStr "https://a.test");
                         ("payload", VObj [("message", VStr "no")]);
                         ("isResponse", VBool true);
                         ("status", VStr "error") ]) ] in
  promises w !! 0 = Some Pending ∧ timers w = ∅ ∧
  is_Some (table w !! "msg_1700000000000_1_k3x9q0abc") ∧
  promises (step w (MessageEvent "https://a.test"
                      (response_to "msg_1700000000000_1_k3x9q0abc" pong))) !! 0
  = Some (Fulfilled pong).
Proof. vm_compute. split_and!; [done|done|by eexists|done]. Qed.

(** The second argument of the transport, at the reference host: a URL is
    taken; the origin of a sandboxed frame is not, and the transport throws
    a [SyntaxError]; an object selects the options of the call, whose
    target origin defaults to the slash; an object whose [transfer] member
    is no sequence makes the conversion of the options throw. *)
Example second_argument_of_the_transport :
  target_accepted (VStr "https://a.test") = true ∧
  target_accepted (VStr "null") = false ∧
  transport_error (VStr "null") = DOMException "SyntaxError" ∧
  target_accepted (VObj [("name", VStr "frame")]) = true ∧
  transport_target (VObj [("name", VStr "frame")]) = "/" ∧
  transport_error (VObj [("transfer", VNum (Int 1))]) = TypeError.
Proof. vm_compute. repeat split. Qed.
(* ===================================================================== *)
(** * Further properties of the bridge *)

(** ** Timers and their entries *)

Lemma transition_paired (w w' : world) :
  well_formed w → paired w → transition w w' → paired w'.
Proof.
  intros [Htable Htimers Hfresh] [Hentry Htimer Hpromise Hhandle] Htr.
  destruct Htr as [[Eta Eti Ent Epr Enp _ Ecalls]
                  |time c suffix s id Ec Eta Eti Ent Epr Enp Hs Ecalls
                  |v _ Eta Eti Ent Epr Enp Ecalls
                  |key e v Hkey _ Eta Eti Ent Epr Enp Ecalls
                  |key e Hkey _ Eta Eti Ent Epr Enp Ecalls
                  |t cb Hcb _ Eta Eti Ent Epr Enp Ecalls].
  - split; rewrite ?Eta, ?Eti, ?Epr; done.
  - assert (Hnew : ∀ id', issued w id' → id' ≠ id).
    { intros id' Hid'. subst id. apply (issued_fresh w); [done|lia]. }
    split.
    + intros id' e. rewrite Eta, Eti, Epr.
      intros [[<- <-]|[Hne He]]%lookup_insert_Some; simpl.
      * rewrite !lookup_insert_eq. split_and!; [done|by exists s|by right].
      * destruct (Htable _ _ He) as (? & ? & ? & _).
        destruct (Hentry _ _ He) as (? & ? & ?).
        rewrite !lookup_insert_ne by lia. done.
    + intros t cb. rewrite Eta, Eti.
      intros [[<- <-]|[Hne Hcb]]%lookup_insert_Some; simpl.
      * by rewrite lookup_insert_eq.
      * destruct (Htimers _ _ Hcb) as (_ & _ & Hi).
        rewrite lookup_insert_ne by (intros Heq; by destruct (Hnew _ Hi)).
        by apply Htimer.
    + intros id1 id2 e1 e2. rewrite Eta.
      intros [[<- <-]|[Hne1 He1]]%lookup_insert_Some
             [[<- <-]|[Hne2 He2]]%lookup_insert_Some; simpl; try done.
      * destruct (Htable _ _ He2) as (_ & ? & _). lia.
      * destruct (Htable _ _ He1) as (_ & ? & _). lia.
      * by apply Hpromise.
    + intros id1 id2 e1 e2. rewrite Eta.
      intros [[<- <-]|[Hne1 He1]]%lookup_insert_Some
             [[<- <-]|[Hne2 He2]]%lookup_insert_Some; simpl; try done.
      * destruct (Htable _ _ He2) as (_ & _ & ? & _). lia.
      * destruct (Htable _ _ He1) as (_ & _ & ? & _). lia.
      * by apply Hhandle.
  - split; rewrite ?Eta, ?Eti, ?Epr; try done.
    intros id e He. destruct (Htable _ _ He) as (_ & ? & _).
    destruct (Hentry _ _ He) as (? & ? & ?).
    rewrite lookup_insert_ne by lia. done.
  - destruct (Hentry _ _ Hkey) as (Hsame & _ & _).
    split.
    + intros id' e'. rewrite Eta, Eti, Epr.
      intros [Hne He']%lookup_delete_Some.
      destruct (Hentry _ _ He') as (? & ? & ?).
      split_and!; [done| |].
      * rewrite settled_promises_ne; [done|].
        intros Heq. apply Hne. apply (Hpromise _ _ e e'); congruence.
      * rewrite lookup_delete_ne; [done|].
        intros Heq. apply Hne. by apply (Hhandle _ _ e e').
    + intros t cb. rewrite Eta, Eti.
      intros [Hne Hcb]%lookup_delete_Some.
      pose proof (Htimer _ _ Hcb) as He'.
      rewrite lookup_delete_ne; [done|].
      intros Heq. rewrite Heq, He' in Hkey.
      by simplify_eq.
    + intros id1 id2 e1 e2. rewrite Eta.
      intros [_ He1]%lookup_delete_Some [_ He2]%lookup_delete_Some.
      by apply Hpromise.
    + intros id1 id2 e1 e2. rewrite Eta.
      intros [_ He1]%lookup_delete_Some [_ He2]%lookup_delete_Some.
      by apply Hhandle.
  - split; rewrite ?Eta, ?Epr; try done.
    + intros id' e' He'. rewrite Eti.
      destruct (Hentry _ _ He') as (? & ? & Hlive).
      split_and!; [done..|].
      destruct (decide (timeoutId e = timeoutId e')) as [->|Hne].
      * left. apply lookup_delete_eq.
      * by rewrite lookup_delete_ne.
    + intros t cb. rewrite Eti. intros [_ Hcb]%lookup_delete_Some.
      by apply Htimer.
  - pose proof (Htimer _ _ Hcb) as Hown.
    split.
    + intros id' e'. rewrite Eta, Eti, Epr.
      intros [Hne He']%lookup_delete_Some.
      destruct (Hentry _ _ He') as (? & ? & ?).
      split_and!; [done..|].
      rewrite lookup_delete_ne; [done|].
      intros Heq. apply Hne. by apply (Hhandle _ _ _ e' Hown He').
    + intros t' cb'. rewrite Eta, Eti.
      intros [Hne Hcb']%lookup_delete_Some.
      pose proof (Htimer _ _ Hcb') as He'.
      rewrite lookup_delete_ne; [done|].
      intros Heq. rewrite Heq, He' in Hown.
      by simplify_eq.
    + intros id1 id2 e1 e2. rewrite Eta.
      intros [_ He1]%lookup_delete_Some [_ He2]%lookup_delete_Some.
      by apply Hpromise.
    + intros id1 id2 e1 e2. rewrite Eta.
      intros [_ He1]%lookup_delete_Some [_ He2]%lookup_delete_Some.
      by apply Hhandle.
Qed.

Section Pairs.
Context `{Host}.

Lemma new_bridge_paired (o : constructor_options) : paired (new_SandboxBridge o).
Proof. split; unfold table; simpl; try done; intros ? ?; by rewrite lookup_empty. Qed.

Lemma run_paired (ops : list op) (w : world) :
  well_formed w → paired w → paired (run w ops).
Proof.
  revert w. induction ops as [|o ops IH]; intros w Hw Hp; [done|].
  simpl. apply IH.
  - eapply transition_well_formed; [done|apply step_transition].
  - eapply transition_paired; [done..|apply step_transition].
Qed.

(** X1.  In every state a bridge reaches from its construction, every live
    timer belongs to an entry of the pending table: the entry under the id
    the timer carries holds the handle of the timer and the promise the
    timer would reject.  The converse fails by design of the code as it
    stands: an entry has its timer live or has no timer at all.  The two
    continuations of an entry are those of one promise, which exists and is
    not fulfilled, and no two entries share a promise or a timer. *)
Theorem timers_keep_their_entries (o : constructor_options) (ops : list op) :
  paired (run (new_SandboxBridge o) ops).
Proof.
  apply run_paired; [apply new_bridge_well_formed|apply new_bridge_paired].
Qed.

End Pairs.

(** ** Message ids *)

Lemma sent_ids_app (l l' : list effect) :
  sent_ids (l ++ l') = (sent_ids l ++ sent_ids l')%list.
Proof. apply omap_app. Qed.

#[local] Instance posts_fresh_ids_preorder : PreOrder posts_fresh_ids.
Proof.
  split.
  - intros w. split; [done|]. exists []. rewrite app_nil_r.
    split_and!; [done|constructor|constructor].
  - intros w1 w2 w3 (Hc1 & l1 & E1 & N1 & F1) (Hc2 & l2 & E2 & N2 & F2).
    split; [lia|]. exists (l1 ++ l2)%list.
    rewrite E2, E1, app_assoc, sent_ids_app. split_and!; [done| |].
    + apply NoDup_app. split_and!; [done| |done].
      intros v Hv1 Hv2. rewrite Forall_forall in F1, F2.
      destruct (F1 _ Hv1) as (t1 & c1 & s1 & -> & ?).
      destruct (F2 _ Hv2) as (t2 & c2 & s2 & Heq & ?).
      assert (Hid : mk_id t1 c1 s1 = mk_id t2 c2 s2) by congruence.
      apply mk_id_counter_inj in Hid. lia.
    + apply Forall_app. split.
      * eapply Forall_impl; [exact F1|].
        intros v (t & c & s & -> & ?). exists t, c, s. split; [done|lia].
      * eapply Forall_impl; [exact F2|].
        intros v (t & c & s & -> & ?). exists t, c, s. split; [done|lia].
Qed.

Lemma fresh_same (w w' : world) (l : list effect) :
  counter w' = counter w → trace w' = (trace w ++ l)%list → sent_ids l = [] →
  posts_fresh_ids w w'.
Proof.
  intros Hc Htr Hl. split; [lia|]. exists l. rewrite Hl.
  split_and!; [done|constructor|constructor].
Qed.

Ltac fresh_update :=
  first
    [ by (apply (fresh_same _ _ []);
            [settle_simpl; done|settle_simpl; by rewrite app_nil_r|done])
    | by (eapply (fresh_same _ _ [_]); [settle_simpl; done|settle_simpl; done|done]) ].

Section Identifiers.
Context `{Host}.

Lemma fresh_raise {A} (code message : string) (details : value) :
  respects posts_fresh_ids (@raise A code message details).
Proof. respects_auto; fresh_update. Qed.

Lemma fresh_respondToMessage (messageId responseData targetOrigin status : value) :
  respects posts_fresh_ids
    (respondToMessage messageId responseData targetOrigin status).
Proof.
  unfold respondToMessage. destruct (truthy messageId); cbn [negb];
    [|apply fresh_raise].
  intros w.
  unfold _generateMessageId, debug_console, when, window_parent_postMessage,
    random_string, date_now, emit, bind, gets, modify, ret.
  destruct (debug (opts (bridge w))) eqn:Hdebug, (truthy targetOrigin);
    try destruct (target_accepted targetOrigin);
    unfold throw; simpl; rewrite ?Hdebug; simpl;
    (split; [unfold counter; simpl; lia|]);
    rewrite <- ?app_assoc;
    first
      [ by (exists []; split; [by rewrite app_nil_r|split; constructor])
      | by (eexists [_]; split; [reflexivity|split; constructor])
      | (eexists; split; [reflexivity|]); simpl;
        (split; [apply NoDup_singleton|]);
        repeat constructor;
        exists (Date_now (clock_reads w)), (S (counter w)),
          (random_suffix (random_draws w));
        (split; [reflexivity|unfold counter; simpl; lia]) ].
Qed.

Lemma fresh_postMessage (message : value) (targetOrigin : string)
    (requiresResponse : bool) :
  respects posts_fresh_ids (postMessage message targetOrigin requiresResponse).
Proof.
  unfold postMessage, postMessage_over.
  destruct (_ || _); [apply fresh_raise|].
  destruct (String.eqb _ _); [apply fresh_raise|].
  apply respects_bind; [exact _|by apply respects_gets; exact _|]. intros max.
  destruct (_ <? _)%Z; [apply fresh_raise|].
  intros w.
  unfold _generateMessageId, debug_console, when, new_promise, setTimeout,
    store_pending, window_parent_postMessage, Promise_resolve, try_catch,
    random_string, date_now, emit, bind, gets, modify, ret.
  destruct requiresResponse, (target_accepted (VStr targetOrigin)) eqn:Htaken,
    (debug (opts (bridge w))) eqn:Hdebug;
    try rewrite (transport_error_string _ Htaken);
    unfold throw, call_reject, emit, bind, modify; simpl; rewrite ?Hdebug; simpl;
    (split; [settle_simpl; lia|]); settle_simpl;
    rewrite <- ?app_assoc;
    first
      [ by (exists []; split; [by rewrite app_nil_r|split; constructor])
      | by (eexists [_]; split; [reflexivity|split; constructor])
      | by (eexists [_; _]; split; [reflexivity|split; constructor])
      | by (eexists [_; _; _]; split; [reflexivity|split; constructor])
      | (eexists; split; [reflexivity|]); simpl;
        (split; [apply NoDup_singleton|]);
        repeat constructor;
        exists (Date_now (clock_reads w)), (S (counter w)),
          (random_suffix (random_draws w));
        (split; [reflexivity|unfold counter; simpl; lia]) ].
Qed.

Ltac fresh_auto :=
  unfold on_message, on_timeout, run_reaction, dispatch, handle_response,
    call_callback, call_handler, respond, respond_error, respond_success,
    attach_reactions, error_get, registerHandler, onMessage, allowOrigins,
    _validateMessage, store_pending, delete_pending, assign_handler,
    raise, new_UniCanvasError, call_resolve,
    call_reject, clearTimeout, date_now, debug_console, emit;
  repeat first [apply fresh_respondToMessage | respects_step];
  fresh_update.

Lemma step_posts_fresh_ids (o : op) (w : world) : posts_fresh_ids w (step w o).
Proof.
  assert (Htrace : ∀ w e, posts_fresh_ids w (set_trace (trace w ++ [EThrown e]) w))
    by (intros; fresh_update).
  assert (Htrace' : ∀ w e, posts_fresh_ids w (set_trace (trace w ++ [EUncaught e]) w))
    by (intros; fresh_update).
  destruct o as [origins|message target rr|type h|c|mid data tgt status
                |origin data|t|]; unfold step.
  - apply (respects_api posts_fresh_ids); [|done]. fresh_auto.
  - apply (respects_api posts_fresh_ids); [|done]. apply fresh_postMessage.
  - apply (respects_api posts_fresh_ids); [|done]. fresh_auto.
  - apply (respects_api posts_fresh_ids); [|done]. fresh_auto.
  - apply (respects_api posts_fresh_ids); [|done]. apply fresh_respondToMessage.
  - apply (respects_task posts_fresh_ids); [|done]. fresh_auto.
  - destruct (timers w !! t) as [cb|]; [|reflexivity].
    etransitivity; [|apply (respects_task posts_fresh_ids); [|done]].
    + fresh_update.
    + fresh_auto.
  - destruct (jobs w) as [|r rest]; [reflexivity|].
    etransitivity; [|apply (respects_task posts_fresh_ids); [|done]].
    + fresh_update.
    + fresh_auto.
Qed.

(** X2.  The messages a bridge hands to the transport over its lifetime,
    requests, notifications and replies alike, carry ids that differ from
    each other, whatever the clock and the random source return. *)
Theorem sent_ids_are_distinct (o : constructor_options) (ops : list op) :
  NoDup (sent_ids (trace (run (new_SandboxBridge o) ops))).
Proof.
  destruct (respects_step_run posts_fresh_ids step_posts_fresh_ids ops
              (new_SandboxBridge o)) as (_ & l & -> & Hnodup & _).
  rewrite sent_ids_app.
  replace (sent_ids (trace (new_SandboxBridge o))) with (@nil value); [done|].
  simpl. by destruct (default false (given_debug o)).
Qed.

End Identifiers.

(** ** Calls that fail, notifications, and the age window *)

Section Calls.
Context `{Host}.

Lemma raise_run {A} (code message : string) (details : value) (w : world) :
  @raise A code message details w = (Threw ReferenceError, w).
Proof. reflexivity. Qed.

Lemma sent_ids_snoc (l : list effect) (e : effect) :
  sent_ids (l ++ [e])
  = (sent_ids l ++ match e with
                   | EPostMessage message _ => [get message "id"]
                   | _ => []
                   end)%list.
Proof. unfold sent_ids. rewrite omap_app. by destruct e. Qed.

(** What a notification leaves in the world. *)
Lemma postMessage_notification (message : value) (targetOrigin : string)
    (w : world) :
  sendable w message targetOrigin →
  ∃ w',
    (if target_accepted (VStr targetOrigin) then
       postMessage message targetOrigin false w = (Ok (next_promise w), w') ∧
       promises w' = <[next_promise w := Fulfilled (sent_receipt (next_messageId w))]>
                       (promises w) ∧
       trace w' = (trace w ++ (if debug (opts (bridge w)) then [EConsole Log] else [])
                   ++ [EPostMessage
                         (envelope (next_messageId w) (Date_now (S (clock_reads w)))
                            targetOrigin message false)
                         (VStr targetOrigin)])%list
     else
       postMessage message targetOrigin false w
         = (Threw (DOMException "SyntaxError"), w') ∧
       promises w' = promises w ∧ next_promise w' = next_promise w ∧
       trace w' = (trace w
                   ++ (if debug (opts (bridge w)) then [EConsole Log] else []))%list) ∧
    table w' = table w ∧ timers w' = timers w ∧ jobs w' = jobs w ∧
    counter w' = S (counter w).
Proof.
  intros (Htruthy & Hobject & Htarget & Hsize).
  apply Z.ltb_ge in Hsize.
  destruct (target_accepted (VStr targetOrigin)) eqn:Htaken;
    unfold postMessage, postMessage_over; rewrite Htruthy, Hobject;
    cbn [negb orb];
    (destruct (String.eqb_spec targetOrigin "") as [|_]; [done|]);
    unfold bind at 1, gets at 1; rewrite Hsize;
    unfold _generateMessageId, debug_console, when, Promise_resolve,
      window_parent_postMessage, random_string, date_now, emit, bind, gets,
      modify, ret;
    rewrite Htaken, ?(transport_error_string _ Htaken);
    destruct (debug (opts (bridge w))) eqn:Hdebug; unfold throw;
    simpl; rewrite ?Hdebug; simpl;
    eexists; (split; [split; [reflexivity|]|]); unfold table, counter; simpl;
    rewrite <- ?app_assoc, ?app_nil_r; done.
Qed.

(** X30.  A request the transport refuses.  [postMessage] with
    [requiresResponse] and a target origin the transport does not take
    throws nothing: the executor of the promise catches the [SyntaxError]
    of the transport and rejects with it.  The caller gets the promise,
    already rejected; nothing was sent; and the entry and the timer of the
    request, made before the transport was called, are left behind.  When
    that timer fires, it removes the entry and throws a [ReferenceError];
    the promise is as it was. *)
Theorem refused_request_keeps_its_entry (message : value) (targetOrigin : string)
    (w : world) :
  sendable w message targetOrigin →
  target_accepted (VStr targetOrigin) = false →
  ∃ w1,
    postMessage message targetOrigin true w = (Ok (next_promise w), w1) ∧
    table w1 = <[next_messageId w := entry_of (request_of w)]> (table w) ∧
    timers w1 = <[next_timer w := callback_of (request_of w)]> (timers w) ∧
    promises w1 = <[next_promise w := Rejected (DOMException "SyntaxError")]>
                    (promises w) ∧
    sent_ids (trace w1) = sent_ids (trace w) ∧
    let w2 := step w1 (TimerFires (next_timer w)) in
    table w2 = delete (next_messageId w) (table w1) ∧
    timers w2 = delete (next_timer w) (timers w1) ∧
    promises w2 = promises w1 ∧
    trace w2 = (trace w1 ++ [EUncaught ReferenceError])%list.
Proof.
  intros (Htruthy & Hobject & Htarget & Hsize) Htaken.
  assert (Hrun : ∃ w1,
    postMessage message targetOrigin true w = (Ok (next_promise w), w1) ∧
    table w1 = <[next_messageId w := entry_of (request_of w)]> (table w) ∧
    timers w1 = <[next_timer w := callback_of (request_of w)]> (timers w) ∧
    promises w1 = <[next_promise w := Rejected (DOMException "SyntaxError")]>
                    (promises w) ∧
    sent_ids (trace w1) = sent_ids (trace w)).
  { unfold postMessage, postMessage_over. rewrite Htruthy, Hobject. cbn [negb orb].
    destruct (String.eqb_spec targetOrigin "") as [|_]; [done|].
    unfold bind at 1, gets at 1.
    apply Z.ltb_ge in Hsize. rewrite Hsize.
    unfold _generateMessageId, debug_console, when, new_promise, setTimeout,
      store_pending, window_parent_postMessage, try_catch,
      random_string, date_now, emit, bind, gets, modify, ret.
    rewrite Htaken, (transport_error_string _ Htaken).
    destruct (debug (opts (bridge w))) eqn:Hdebug;
      unfold throw, call_reject, emit, bind, modify; simpl; rewrite ?Hdebug; simpl;
      eexists; (split; [reflexivity|]); settle_simpl;
      (split_and!; try done;
        [ unfold settled_promises; by rewrite lookup_insert_eq, insert_insert_eq
        | by rewrite !sent_ids_app, ?app_nil_r ]). }
  destruct Hrun as (w1 & Hrun & Eta & Eti & Epr & Esent).
  exists w1. split_and!; try done.
  assert (Htimer : timers w1 !! next_timer w = Some (callback_of (request_of w)))
    by (rewrite Eti; apply lookup_insert_eq).
  unfold step. rewrite Htimer. done.
Qed.



(** X5.  For a message whose timestamp is a number, [_validateMessage]
    accepts exactly when id, source and payload are truthy, the timestamp
    is not zero, and the clock of the receiver reads no less than the
    timestamp and no more than one minute past it: a message stamped in the
    receiver's future is rejected, both ends of the window are accepted. *)
Theorem numeric_timestamp_window (message : value) (t : Z) (w : world) :
  get message "timestamp" = VNum (Int t) →
  (_validateMessage message w).1 = Ok true ↔
  truthy (get message "id") = true ∧ truthy (get message "source") = true ∧
  truthy (get message "payload") = true ∧ t ≠ 0%Z ∧
  (t ≤ Date_now (clock_reads w) ≤ t + 60000)%Z.
Proof.
  intros Hts. rewrite validateMessage_run.
  destruct message as [| | | | | |fields]; try discriminate.
  cbn [truthy typeof_object negb orb]. rewrite Hts.
  cbn [truthy ToNumber num_sub num_lt num_gt].
  destruct (truthy (get (VObj fields) "id")),
    (truthy (get (VObj fields) "source")),
    (truthy (get (VObj fields) "payload")),
    (Z.eqb_spec t 0); cbn [negb orb fst];
    try (split; [discriminate|intros (? & ? & ? & ? & ?); done]).
  destruct (Z.ltb_spec (Date_now (clock_reads w) - t) 0),
    (Z.ltb_spec 60000 (Date_now (clock_reads w) - t)); cbn [negb orb];
    (split; [intros [=]|intros (_ & _ & _ & _ & ?)]); try done; try lia.
Qed.

(** A step that is quiet leaves a request that waits waiting. *)
Lemma quiet_in_flight (r : request) (w w' : world) :
  quiet w w' → in_flight r w → in_flight r w'.
Proof.
  intros [Eta Eti _ Epr _ _ Ecalls] (? & ? & ? & ?).
  unfold in_flight. rewrite Ecalls, Eta, Eti, Epr. done.
Qed.

End Calls.

Section Replies.
Context (receiver sender : Host).

(** X6.  A reply whose data is falsy never reaches the requester.  The
    envelope [respondToMessage] builds for [undefined], [null], [false],
    [0], [NaN] or the empty string is dropped by the validation of the
    receiving bridge, whatever the origin, the status and the age: the
    request it answers stays in flight, left to its timeout. *)
Theorem falsy_reply_never_settles (r : request) (w : world)
    (origin id : string) (now : Z) (responseData status : value) :
  in_flight r w → truthy responseData = false →
  in_flight r
    (@step receiver w
       (MessageEvent origin
          (@response_envelope sender id (VStr (req_id r)) now responseData status))).
Proof.
  intros Hflight Hfalsy. apply (quiet_in_flight r w); [|done].
  unfold step. apply task_quiet. unfold on_message, bind at 1, gets at 1.
  destruct (_isOriginAllowed _ _) as [[|]|].
  - set (data := response_envelope _ _ _ _ _).
    assert (truthy data = true ∧ typeof_object data = true
            ∧ truthy (get data "payload") = false) as (Ht & Ho & Hp)
      by (split_and!; [done|done|exact Hfalsy]).
    unfold bind. rewrite validateMessage_run, Ht, Ho, Hp, !orb_true_r.
    cbn [negb orb]. apply quiet_debug_console.
  - apply quiet_debug_console.
  - reflexivity.
Qed.

End Replies.



Lemma refused_request_keeps_its_entry_witness :
  let w := new_SandboxBridge no_options in
  ∃ w1,
    postMessage ping "null" true w = (Ok (next_promise w), w1) ∧
    promises w1 !! next_promise w = Some (Rejected (DOMException "SyntaxError")) ∧
    is_Some (table w1 !! next_messageId w) ∧
    table (step w1 (TimerFires (next_timer w))) !! next_messageId w = None.
Proof.
  intros w.
  destruct (refused_request_keeps_its_entry (H := reference_host) ping "null" w)
    as (w1 & Hrun & Htable & _ & Hpromises & _ & Htable' & _).
  - repeat split; [discriminate|]. vm_compute. discriminate.
  - reflexivity.
  - exists w1. split_and!.
    + exact Hrun.
    + rewrite Hpromises. apply lookup_insert_eq.
    + rewrite Htable, lookup_insert_eq. by eexists.
    + rewrite Htable'. apply lookup_delete_eq.
Defined.

Lemma numeric_timestamp_window_witness :
  (_validateMessage ping_request (new_SandboxBridge no_options)).1 = Ok true ↔
  truthy (get ping_request "id") = true ∧ truthy (get ping_request "source") = true ∧
  truthy (get ping_request "payload") = true ∧ 1700000000000%Z ≠ 0%Z ∧
  (1700000000000 ≤ Date_now (clock_reads (new_SandboxBridge no_options))
   ≤ 1700000000000 + 60000)%Z.
Proof.
  apply (numeric_timestamp_window (H := reference_host)). reflexivity.
Defined.

Lemma falsy_reply_never_settles_witness :
  let w := step (new_SandboxBridge trusting_a_test)
             (CallPostMessage ping "https://a.test" true) in
  let r := request_of (new_SandboxBridge trusting_a_test) in
  in_flight r
    (step w (MessageEvent "https://a.test"
               (response_envelope "r1" (VStr (req_id r)) 1700000000000 (VNum (Int 0))
                  (VStr "success")))).
Proof.
  apply (falsy_reply_never_settles reference_host reference_host).
  - vm_compute. done.
  - reflexivity.
Defined.

(** ** A request and its reply, across two bridges *)

Section Exchange.
Context `{Host}.

(** An envelope with a numeric timestamp inside the window is accepted. *)
Lemma validateMessage_envelope (data : value) (t : Z) (w : world) :
  truthy data = true → typeof_object data = true →
  truthy (get data "id") = true → get data "timestamp" = VNum (Int t) →
  truthy (get data "source") = true → truthy (get data "payload") = true →
  t ≠ 0%Z → (t ≤ Date_now (clock_reads w) ≤ t + 60000)%Z →
  _validateMessage data w = (Ok true, set_clock_reads (S (clock_reads w)) w).
Proof.
  intros Ht Ho Hid Hts Hsrc Hp Hnz Hwin.
  rewrite validateMessage_run, Ht, Ho, Hid, Hts, Hsrc, Hp.
  cbn [truthy ToNumber num_sub num_lt num_gt negb orb].
  destruct (Z.eqb_spec t 0) as [|_]; [done|]. cbn [negb orb].
  destruct (Z.ltb_spec (Date_now (clock_reads w) - t) 0); [lia|].
  destruct (Z.ltb_spec 60000 (Date_now (clock_reads w) - t)); [lia|]. done.
Qed.

(** What a request leaves in the world, and what it hands to the
    transport, when the transport takes the target origin. *)
Lemma postMessage_sends (message : value) (targetOrigin : string) (w : world) :
  sendable w message targetOrigin →
  target_accepted (VStr targetOrigin) = true →
  ∃ w1,
    postMessage message targetOrigin true w = (Ok (next_promise w), w1) ∧
    table w1 = <[next_messageId w := entry_of (request_of w)]> (table w) ∧
    timers w1 = <[next_timer w := callback_of (request_of w)]> (timers w) ∧
    promises w1 = <[next_promise w := Pending]> (promises w) ∧
    opts (bridge w1) = opts (bridge w) ∧
    clock_reads w1 = S (S (clock_reads w)) ∧
    trace w1 = (trace w ++ (if debug (opts (bridge w)) then [EConsole Log] else [])
                ++ [ESetTimeout (next_timer w) (messageTimeout (opts (bridge w)));
                    EPostMessage
                      (envelope (next_messageId w) (Date_now (S (clock_reads w)))
                         targetOrigin message true)
                      (VStr targetOrigin)])%list.
Proof.
  intros (Htruthy & Hobject & Htarget & Hsize) Htaken.
  unfold postMessage, postMessage_over.
  rewrite Htruthy, Hobject. cbn [negb orb].
  destruct (String.eqb_spec targetOrigin "") as [|_]; [done|].
  unfold bind at 1, gets at 1.
  apply Z.ltb_ge in Hsize. rewrite Hsize.
  unfold _generateMessageId, debug_console, when, new_promise, setTimeout,
    store_pending, window_parent_postMessage, try_catch,
    random_string, date_now, emit, bind, gets, modify, ret.
  rewrite Htaken.
  destruct (debug (opts (bridge w))) eqn:Hdebug; simpl; rewrite Hdebug; simpl;
    eexists; (split; [reflexivity|]); unfold table; simpl;
    rewrite <- ?app_assoc; done.
Qed.

(** A handler that returns a value, or a deferred value that fulfils, on a
    message that requires a response: a reaction is left. *)
Lemma handler_returns (ty : string) (h : handler) (v : value) (message : value)
    (w : world) :
  get (get message "payload") "type" = VStr ty → ty ≠ "" →
  messageHandlers (bridge w) !! ty = Some h →
  h (get message "payload") (meta_of message) = Returns v
  ∨ h (get message "payload") (meta_of message) = ReturnsPromise (Fulfils v) →
  truthy (get message "requiresResponse") = true →
  dispatch message w
  = (Ok tt,
     set_jobs (jobs w ++ [{| settled := Fulfils v; answered := message |}])
       (set_trace (trace w ++ [EHandler ty (get message "payload") (meta_of message)])
          w)).
Proof.
  intros Hty Hne Hh Hout Hrr.
  unfold dispatch, try_catch, bind at 1 2, gets at 1 2.
  rewrite (handler_found ty h message w Hty Hne Hh), Hty. cbn [ToString].
  unfold call_handler, bind at 1, emit, modify.
  destruct Hout as [-> | ->]; rewrite Hrr; done.
Qed.

(** Running the reaction of a fulfilled result sends the success reply to
    the source of the message, when the transport takes it as a target. *)
Lemma fulfilled_reaction_runs (v message : value) (w : world) :
  truthy (get message "id") = true →
  target_accepted (if truthy (get message "source") then get message "source"
                   else VStr "*") = true →
  ∃ w',
    run_reaction {| settled := Fulfils v; answered := message |} w = (Ok tt, w') ∧
    trace w' =
      (trace w ++ (if debug (opts (bridge w)) then [EConsole Log] else [])
       ++ [EPostMessage
             (response_envelope (next_messageId w) (get message "id")
                (Date_now (S (clock_reads w))) v (VStr "success"))
             (if truthy (get message "source") then get message "source"
              else VStr "*")])%list.
Proof.
  intros Hid Htaken. unfold run_reaction, try_catch. cbn [settled answered].
  unfold respond_success, bind at 1.
  destruct (respondToMessage_run (get message "id") v (get message "source")
              VUndefined w Hid Htaken) as (w' & Hrun & Htrace & _).
  rewrite Hrun. exists w'. split; [done|]. exact Htrace.
Qed.

(** A success response that finds its entry, with the promise pending:
    the promise is fulfilled with the payload, the entry and the timer go. *)
Lemma handle_response_fulfils (data : value) (key : string) (e : PendingResponse)
    (w : world) :
  ToString (get data "responseToId") = key →
  table w !! key = Some e →
  promises w !! resolve e = Some Pending →
  is_string (get data "status") "error" = false →
  ∃ w',
    handle_response data w = (Ok tt, w') ∧
    promises w' !! resolve e = Some (Fulfilled (get data "payload")) ∧
    table w' = delete key (table w) ∧
    timers w' = delete (timeoutId e) (timers w).
Proof.
  intros Hkey He Hpending Hstatus. unfold handle_response, bind at 1, gets at 1.
  rewrite Hkey. unfold js_lookup. fold (table w). rewrite He, Hstatus.
  unfold clearTimeout, call_resolve, delete_pending, emit, bind, gets, modify, ret.
  simpl. eexists. split; [reflexivity|]. settle_simpl.
  split_and!; [|done|done]. by apply settled_promises_pending.
Qed.

Lemma logged_fields (w : world) :
  table (logged w) = table w ∧ clock_reads (logged w) = clock_reads w ∧
  counter (logged w) = counter w ∧ random_draws (logged w) = random_draws w ∧
  opts (bridge (logged w)) = opts (bridge w) ∧
  messageHandlers (bridge (logged w)) = messageHandlers (bridge w).
Proof. unfold logged. by destruct (debug (opts (bridge w))). Qed.

End Exchange.

Section RoundTrip.
Context (requester responder : Host).

(** X7.  A request and its reply across two bridges.  The requester sends
    [message] with [requiresResponse]; the responder trusts the requester's
    origin, has a handler for the type of the message, and the handler
    returns the truthy value [v] (directly or as a deferred value that
    fulfils); the requester trusts the responder's origin; the transport of
    each side takes the target origin it is given (the requester's, the
    target of the call; the responder's, the origin of the requester); each
    envelope reaches the other side within one minute of its stamp, by the
    receiver's clock.  Then the responder hands to the transport, addressed to the
    requester's origin, a success reply that names the request, and that
    reply, delivered to the requester, fulfils the promise [postMessage]
    returned with [v] and removes the entry and the timer of the request. *)
Theorem request_reply_round_trip (a b : world) (message : value) (target ty : string)
    (h : handler) (v : value) :
  let id := @next_messageId requester a in
  let stamp := @Date_now requester (S (clock_reads a)) in
  let sent := @envelope requester id stamp target message true in
  let a1 := @step requester a (CallPostMessage message target true) in
  let b1 := @step responder b (MessageEvent (@location_origin requester) sent) in
  let b2 := @step responder b1 ReactionRuns in
  let stamp' := @Date_now responder (S (clock_reads b1)) in
  let reply := @response_envelope responder (@next_messageId responder b1)
                 (VStr id) stamp' v (VStr "success") in
  let a2 := @step requester a1 (MessageEvent (@location_origin responder) reply) in
  @sendable requester a message target →
  @target_accepted requester (VStr target) = true →
  @target_accepted responder (VStr (@location_origin requester)) = true →
  @location_origin requester ≠ "" → @location_origin responder ≠ "" →
  @_isOriginAllowed responder (allowlist b) (@location_origin requester) = Some true →
  @_isOriginAllowed requester (allowlist a) (@location_origin responder) = Some true →
  get message "type" = VStr ty → ty ≠ "" →
  messageHandlers (bridge b) !! ty = Some h → jobs b = [] →
  h message (meta_of sent) = Returns v
  ∨ h message (meta_of sent) = ReturnsPromise (Fulfils v) →
  truthy v = true →
  stamp ≠ 0%Z →
  (stamp ≤ @Date_now responder (clock_reads b) ≤ stamp + 60000)%Z →
  stamp' ≠ 0%Z →
  (stamp' ≤ @Date_now requester (clock_reads a1) ≤ stamp' + 60000)%Z →
  EPostMessage sent (VStr target) ∈ trace a1 ∧
  EPostMessage reply (VStr (@location_origin requester)) ∈ trace b2 ∧
  promises a2 !! next_promise a = Some (Fulfilled v) ∧
  table a2 !! id = None ∧ timers a2 !! next_timer a = None.
Proof.
  intros id stamp sent a1 b1 b2 stamp' reply a2
    Hsend HtakenA HtakenB HoriginA HoriginB HallowB HallowA Hty Hne Hh Hjobs
    Hout Hv Hstamp Hwindow Hstamp' Hwindow'.
  pose proof Hsend as (Hmessage & Hobject & _).
  (* the requester sends *)
  destruct (@postMessage_sends requester message target a Hsend HtakenA)
    as (w1 & Hrun1 & Eta & Eti & Epr & Eopts & Eclock & Etrace).
  apply (@step_postMessage requester) in Hrun1. fold a1 in Hrun1. subst w1.
  (* the responder receives the request *)
  assert (HsourceA : truthy (VStr (@location_origin requester)) = true).
  { simpl. by destruct (String.eqb_spec (@location_origin requester) ""). }
  assert (HsourceB : truthy (VStr (@location_origin responder)) = true).
  { simpl. by destruct (String.eqb_spec (@location_origin responder) ""). }
  assert (Hvalid : @_validateMessage responder sent b
                   = (Ok true, set_clock_reads (S (clock_reads b)) b)).
  { apply (@validateMessage_envelope responder sent stamp); try done. }
  assert (Hb1 : b1 = set_jobs [{| settled := Fulfils v; answered := sent |}]
                       (set_trace (trace (logged (set_clock_reads (S (clock_reads b)) b))
                                   ++ [EHandler ty message (meta_of sent)])
                          (logged (set_clock_reads (S (clock_reads b)) b)))).
  { unfold b1, step, task.
    rewrite (@on_message_valid responder _ _ _ _ HallowB Hvalid).
    change (is_response sent) with false. cbv iota.
    rewrite (@handler_returns responder ty h v sent); try done.
    - destruct (logged_frame (set_clock_reads (S (clock_reads b)) b))
        as (_ & -> & _). simpl. by rewrite Hjobs.
    - destruct (logged_fields (set_clock_reads (S (clock_reads b)) b))
        as (_ & _ & _ & _ & _ & ->). done. }
  (* the responder's reaction replies *)
  assert (Hb2 : EPostMessage reply (VStr (@location_origin requester)) ∈ trace b2).
  { unfold b2, step, task. rewrite Hb1 at 1. cbn [jobs set_jobs].
    destruct (@fulfilled_reaction_runs responder v sent (set_jobs [] b1))
      as (w' & Hrun & Htrace'); [done| |].
    { change (get sent "source") with (VStr (@location_origin requester)).
      by rewrite HsourceA. }
    rewrite Hb1 in Hrun at 1. cbn [set_jobs jobs bridge timers next_timer promises
      next_promise clock_reads random_draws trace] in Hrun.
    rewrite Hb1 at 1. cbn [set_jobs jobs bridge timers next_timer promises
      next_promise clock_reads random_draws trace].
    rewrite Hrun. rewrite Htrace'.
    change (get sent "id") with (VStr id).
    change (get sent "source") with (VStr (@location_origin requester)).
    rewrite HsourceA.
    rewrite !elem_of_app. right. right. apply list_elem_of_singleton. done. }
  (* the requester receives the reply *)
  assert (Hvalid' : @_validateMessage requester reply a1
                    = (Ok true, set_clock_reads (S (clock_reads a1)) a1)).
  { apply (@validateMessage_envelope requester reply stamp'); try done. }
  assert (HallowA' : @_isOriginAllowed requester (allowlist a1)
                       (@location_origin responder) = Some true).
  { unfold allowlist. by rewrite Eopts. }
  set (a1' := logged (set_clock_reads (S (clock_reads a1)) a1)).
  destruct (logged_fields (set_clock_reads (S (clock_reads a1)) a1))
    as (Hta & _). fold a1' in Hta.
  destruct (logged_frame (set_clock_reads (S (clock_reads a1)) a1))
    as (_ & _ & Hti & Hpr & _). fold a1' in Hti, Hpr.
  destruct (handle_response_fulfils reply id (entry_of (request_of a)) a1')
    as (w' & Hrun & Hfulfilled & Htable & Htimers); try done.
  { rewrite Hta. change (table (set_clock_reads _ a1)) with (table a1).
    rewrite Eta. apply lookup_insert_eq. }
  { rewrite Hpr. change (promises (set_clock_reads _ a1)) with (promises a1).
    rewrite Epr. apply lookup_insert_eq. }
  assert (Ha2 : a2 = w').
  { unfold a2, step, task.
    rewrite (@on_message_valid requester _ _ _ _ HallowA' Hvalid').
    change (is_response reply) with true. cbv iota. fold a1'. by rewrite Hrun. }
  split_and!.
  - rewrite Etrace, !elem_of_app. right. right. by repeat constructor.
  - exact Hb2.
  - rewrite Ha2. exact Hfulfilled.
  - rewrite Ha2, Htable. apply lookup_delete_eq.
  - rewrite Ha2, Htimers. apply lookup_delete_eq.
Qed.

End RoundTrip.

Lemma request_reply_round_trip_witness :
  let a := new_SandboxBridge trusting_app_test in
  let b := @answering_ping frozen_host in
  let id := @next_messageId frozen_host a in
  let stamp := @Date_now frozen_host (S (clock_reads a)) in
  let sent := @envelope frozen_host id stamp "https://app.test" ping true in
  let a1 := @step frozen_host a (CallPostMessage ping "https://app.test" true) in
  let b1 := @step frozen_host b (MessageEvent (@location_origin frozen_host) sent) in
  let b2 := @step frozen_host b1 ReactionRuns in
  let stamp' := @Date_now frozen_host (S (clock_reads b1)) in
  let reply := @response_envelope frozen_host (@next_messageId frozen_host b1)
                 (VStr id) stamp' pong (VStr "success") in
  let a2 := @step frozen_host a1 (MessageEvent (@location_origin frozen_host) reply) in
  EPostMessage sent (VStr "https://app.test") ∈ trace a1 ∧
  EPostMessage reply (VStr (@location_origin frozen_host)) ∈ trace b2 ∧
  promises a2 !! next_promise a = Some (Fulfilled pong) ∧
  table a2 !! id = None ∧ timers a2 !! next_timer a = None.
Proof.
  apply (request_reply_round_trip frozen_host frozen_host
           (new_SandboxBridge trusting_app_test) (@answering_ping frozen_host)
           ping "https://app.test" "ping" pong_handler pong).
  - repeat split; [discriminate|]. vm_compute. discriminate.
  - reflexivity.
  - reflexivity.
  - discriminate.
  - discriminate.
  - reflexivity.
  - reflexivity.
  - reflexivity.
  - discriminate.
  - reflexivity.
  - reflexivity.
  - left. reflexivity.
  - reflexivity.
  - discriminate.
  - vm_compute. split; discriminate.
  - discriminate.
  - vm_compute. split; discriminate.
Defined.

(** ** Routing of inbound messages *)

Section Routing.
Context `{Host}.

(** What the lookup of the listener finds on a bridge whose table of
    handlers still has [Object.prototype] as its prototype: nothing, exactly
    when the type is falsy, or is no key of the table and no name of a
    member every plain object inherits. *)
Lemma routed_missing (message : value) (w : world) :
  messageHandlers_prototype (bridge w) = None →
  routed message w = Missing ↔
  truthy (get (get message "payload") "type") = false
  ∨ messageHandlers (bridge w) !! ToString (get (get message "payload") "type") = None
    ∧ ToString (get (get message "payload") "type") ∉ Object_prototype_members.
Proof.
  intros Hproto. unfold routed, lookup_handler. rewrite Hproto.
  destruct (truthy _); [|by split; [left|]].
  destruct (messageHandlers (bridge w) !! _) as [h|].
  - split; [discriminate|]. by intros [?|[? _]].
  - destruct (existsb _ _) eqn:Hex.
    + split; [discriminate|]. intros [?|[_ Hno]]; [done|].
      exfalso. apply Hno. apply existsb_exists in Hex as (x & Hin & Heq).
      apply String.eqb_eq in Heq. subst x. by apply list_elem_of_In.
    + split; [intros _|done]. right. split; [done|].
      intros Hin. apply not_true_iff_false in Hex. apply Hex.
      apply existsb_exists. eexists. split; [by apply list_elem_of_In|].
      apply String.eqb_refl.
Qed.

(** X8.  A message that is no response and for which the lookup of the
    listener finds no handler, on a bridge with no catch-all callback, is
    dropped without a trace beyond the debug line: no handler runs, nothing
    is sent back, even when the message requires a response.  The sender is
    left to its timeout.  On a bridge under which no handler was registered
    as [__proto__], the lookup finds no handler exactly when the type of the
    message is falsy, or is no registered type and no name of a member of
    [Object.prototype]. *)
Theorem unrouted_message_gets_no_reply (origin : string) (data : value)
    (w w1 : world) :
  _isOriginAllowed (allowlist w) origin = Some true →
  _validateMessage data w = (Ok true, w1) →
  is_response data = false →
  routed data w = Missing →
  globalMessageCallback (bridge w) = None →
  on_message origin data w = (Ok tt, logged w1) ∧
  (messageHandlers_prototype (bridge w) = None →
   truthy (get (get data "payload") "type") = false
   ∨ messageHandlers (bridge w) !! ToString (get (get data "payload") "type") = None
     ∧ ToString (get (get data "payload") "type") ∉ Object_prototype_members).
Proof.
  intros Hallowed Hvalid Hresp Hrouted Hnone. split.
  - rewrite (on_message_valid _ _ _ _ Hallowed Hvalid), Hresp.
    assert (Hbridge : bridge (logged w1) = bridge w).
    { destruct (logged_frame w1) as (-> & _).
      by destruct (validateMessage_frame _ _ _ _ Hvalid) as [->| ->]. }
    unfold dispatch, try_catch, bind, gets. rewrite Hbridge.
    unfold routed in Hrouted. by rewrite Hrouted, Hnone.
  - intros Hproto. by apply routed_missing.
Qed.

Lemma replies_app (l l' : list effect) :
  replies (l ++ l') = (replies l ++ replies l')%list.
Proof. apply omap_app. Qed.

(** What [respond] does, call after call, on a message that requires a
    response. *)
Lemma for_each_respond (message : value) (ds : list value) (w : world) :
  truthy (get message "id") = true →
  truthy (get message "requiresResponse") = true →
  target_accepted (reply_target message) = true →
  ∃ w' l,
    for_each (respond message) ds w = (Ok tt, w') ∧
    trace w' = (trace w ++ l)%list ∧
    replies l = map (fun d => (get message "id", d, VStr "success",
                               reply_target message)) ds.
Proof.
  intros Hid Hrr Htaken. revert w. induction ds as [|d ds IH]; intros w.
  - exists w, []. by rewrite app_nil_r.
  - cbn [for_each]. unfold bind at 1, respond at 1. rewrite Hrr.
    unfold respond_success, bind at 1.
    destruct (respondToMessage_run (get message "id") d (get message "source")
                VUndefined w Hid Htaken) as (w1 & Hrun & Htrace & _).
    rewrite Hrun. unfold ret at 1.
    destruct (IH w1) as (w' & l & Hrest & Htrace' & Hreplies).
    rewrite Hrest. eexists w', _. split; [done|].
    rewrite Htrace', Htrace, <- !app_assoc. split; [done|].
    rewrite !replies_app, Hreplies.
    by destruct (debug (opts (bridge w))).
Qed.

Lemma for_each_respond_mute (message : value) (ds : list value) (w : world) :
  truthy (get message "requiresResponse") = false →
  for_each (respond message) ds w = (Ok tt, w).
Proof.
  intros Hrr. induction ds as [|d ds IH]; [done|].
  cbn [for_each]. unfold bind, respond at 1. by rewrite Hrr.
Qed.


(** X10.  A response that names a member of [Object.prototype] as the
    request it answers: in no state a bridge reaches from its construction
    is such a name a key of the pending table, so the lookup finds the
    inherited member, and the listener throws: a [ReferenceError] when the
    status is 'error' (the argument of [reject] is evaluated first), a
    [TypeError] otherwise (the member has no [resolve]).  The table, the
    timers, the promises and the trace are as they were. *)
Theorem response_naming_inherited_member (o : constructor_options) (ops : list op)
    (data : value) :
  let w := run (new_SandboxBridge o) ops in
  ToString (get data "responseToId") ∈ Object_prototype_members →
  handle_response data w
  = (Threw (if is_string (get data "status") "error"
            then ReferenceError else TypeError), w).
Proof.
  intros w Hmember.
  assert (Hnone : table w !! ToString (get data "responseToId") = None).
  { destruct (table w !! _) as [e|] eqn:He; [|done]. exfalso.
    destruct (wf_table w (run_well_formed ops _ (new_bridge_well_formed o)) _ _ He)
      as (_ & _ & _ & time & c & suffix & Hid & _).
    pose proof (issued_not_inherited time c suffix) as Hno.
    rewrite <- Hid in Hno. apply not_true_iff_false in Hno. apply Hno.
    apply existsb_exists. exists (ToString (get data "responseToId")).
    split; [by apply list_elem_of_In|apply String.eqb_refl]. }
  assert (Hyes : existsb (String.eqb (ToString (get data "responseToId")))
                   Object_prototype_members = true).
  { apply existsb_exists. exists (ToString (get data "responseToId")).
    split; [by apply list_elem_of_In|apply String.eqb_refl]. }
  unfold handle_response, bind at 1, gets at 1, js_lookup.
  fold (table w). rewrite Hnone, Hyes.
  by destruct (is_string (get data "status") "error").
Qed.

End Routing.

(** ** The origin check *)

Section Origins.
Context `{Host}.

Lemma array_some_true (f : string → option bool) (l : list string) :
  (∀ x, x ∈ l → f x ≠ None) →
  array_some f l = Some true ↔ ∃ x, x ∈ l ∧ f x = Some true.
Proof.
  induction l as [|x l IH]; intros Hdef.
  - split; [discriminate|]. intros (x & Hx & _). by apply elem_of_nil in Hx.
  - cbn [array_some].
    assert (Hl : ∀ y, y ∈ l → f y ≠ None) by (intros y Hy; apply Hdef; by right).
    specialize (IH Hl).
    destruct (f x) as [[|]|] eqn:Hfx.
    + split; [intros _|done]. exists x. split; [by left|done].
    + rewrite IH. split.
      * intros (y & Hy & Hfy). exists y. split; [by right|done].
      * intros (y & [->|Hy]%elem_of_cons & Hfy); [congruence|by exists y].
    + destruct (Hdef x); [by left|done].
Qed.

(** X11.  The origin check, on an allowlist none of whose patterns the
    engine rejects: an origin is accepted exactly when the allowlist holds
    the universal wildcard, or the origin itself, or a pattern with a star
    whose anchored expression matches the origin. *)
Theorem origin_accepted_iff (l : list string) (origin : string) :
  (∀ p, p ∈ l → RegExp_test ("^" ++ replace_stars p ++ "$") origin ≠ None) →
  _isOriginAllowed l origin = Some true ↔
  "*" ∈ l ∨ origin ∈ l
  ∨ ∃ p, p ∈ l ∧ includes_star p = true
         ∧ RegExp_test ("^" ++ replace_stars p ++ "$") origin = Some true.
Proof.
  intros Hdef. unfold _isOriginAllowed.
  destruct l as [|x l]; cbn [length Nat.eqb].
  - split; [discriminate|].
    intros [Hin|[Hin|(p & Hin & _)]]; by apply elem_of_nil in Hin.
  - set (L := x :: l) in *.
    destruct (existsb (String.eqb "*") L) eqn:Hstar.
    + split; [intros _|done]. left.
      apply existsb_exists in Hstar as (p & Hin & Heq).
      apply String.eqb_eq in Heq. subst p. by apply list_elem_of_In.
    + assert (Hnostar : "*" ∉ L).
      { intros Hin. apply not_true_iff_false in Hstar. apply Hstar.
        apply existsb_exists. exists "*". split; [by apply list_elem_of_In|done]. }
      rewrite array_some_true.
      * split.
        -- intros (p & Hin & Hm). unfold origin_matches in Hm.
           destruct (String.eqb_spec p origin) as [->|_]; [by right; left|].
           destruct (includes_star p) eqn:Hp; [|discriminate].
           right. right. by exists p.
        -- intros [Hin|[Hin|(p & Hin & Hp & Hm)]]; [done| |].
           ++ exists origin. split; [done|]. unfold origin_matches.
              by rewrite String.eqb_refl.
           ++ exists p. split; [done|]. unfold origin_matches.
              destruct (String.eqb p origin); [done|]. by rewrite Hp.
      * intros p Hin. unfold origin_matches.
        destruct (String.eqb p origin); [done|].
        destruct (includes_star p); [by apply Hdef|done].
Qed.

(** X12.  A pattern the engine rejects poisons the listener.  When the
    allowlist holds no universal wildcard, and a pattern with a star whose
    expression the engine rejects comes before any entry that matches the
    origin, the check throws: the listener ends with an uncaught
    [SyntaxError] before it looks at the message, and nothing else
    changes. *)
Theorem rejected_pattern_throws (w : world) (before after : list string)
    (pattern origin : string) (data : value) :
  allowlist w = (before ++ pattern :: after)%list →
  "*" ∉ allowlist w →
  (∀ p, p ∈ before → origin_matches origin p = Some false) →
  pattern ≠ origin → includes_star pattern = true →
  RegExp_test ("^" ++ replace_stars pattern ++ "$") origin = None →
  _isOriginAllowed (allowlist w) origin = None ∧
  step w (MessageEvent origin data) = set_trace (trace w ++ [EUncaught SyntaxError]) w.
Proof.
  intros Hlist Hnostar Hbefore Hne Hstar Hrejects.
  assert (Hcheck : _isOriginAllowed (allowlist w) origin = None).
  { unfold _isOriginAllowed.
    destruct (existsb (String.eqb "*") (allowlist w)) eqn:Hex.
    { exfalso. apply Hnostar.
      apply existsb_exists in Hex as (p & Hin & Heq).
      apply String.eqb_eq in Heq. subst p. by apply list_elem_of_In. }
    rewrite Hlist. rewrite length_app. cbn [length].
    replace (length before + S (length after) =? 0)%nat with false
      by (symmetry; apply Nat.eqb_neq; lia).
    clear Hlist Hnostar Hex. induction before as [|q before IH]; cbn [app array_some].
    - unfold origin_matches. destruct (String.eqb_spec pattern origin); [done|].
      by rewrite Hstar, Hrejects.
    - rewrite (Hbefore q) by (by left). apply IH.
      intros p Hp. apply Hbefore. by right. }
  split; [exact Hcheck|].
  unfold step, task, on_message, bind, gets. fold (allowlist w). by rewrite Hcheck.
Qed.

End Origins.

(** ** Settings *)

#[local] Instance same_settings_preorder : PreOrder same_settings.
Proof.
  split.
  - by intros w.
  - intros w1 w2 w3 (? & ? & ? & ?) (? & ? & ? & ?). split_and!; congruence.
Qed.

Ltac settings_update :=
  by (split_and!; settle_simpl; done).

Section Settings.
Context `{Host}.

Lemma step_same_settings (o : op) (w : world) : same_settings w (step w o).
Proof.
  assert (Htrace : ∀ w e, same_settings w (set_trace (trace w ++ [e]) w))
    by (intros; settings_update).
  destruct o as [origins|message target rr|type h|c|mid data tgt status
                |origin data|t|]; unfold step.
  - apply (respects_api same_settings); [|done]. respects_auto; settings_update.
  - apply (respects_api same_settings); [|done]. respects_auto; settings_update.
  - apply (respects_api same_settings); [|done]. respects_auto; settings_update.
  - apply (respects_api same_settings); [|done]. respects_auto; settings_update.
  - apply (respects_api same_settings); [|done]. respects_auto; settings_update.
  - apply (respects_task same_settings); [|done]. respects_auto; settings_update.
  - destruct (timers w !! t) as [cb|]; [|reflexivity].
    etransitivity; [|apply (respects_task same_settings); [|done]].
    + settings_update.
    + respects_auto; settings_update.
  - destruct (jobs w) as [|r rest]; [reflexivity|].
    etransitivity; [|apply (respects_task same_settings); [|done]].
    + settings_update.
    + respects_auto; settings_update.
Qed.

(** X13.  The timeout, the size ceiling, the security level and the debug
    flag are fixed at construction: no operation and no event changes them,
    and neither the timeout nor the ceiling is ever zero, because the
    constructor replaces a zero that was given by the default. *)
Theorem settings_are_fixed_at_construction (o : constructor_options) (ops : list op) :
  let w := run (new_SandboxBridge o) ops in
  messageTimeout (opts (bridge w)) = or_default_Z (given_messageTimeout o) 5000 ∧
  maxMessageSize (opts (bridge w)) = or_default_Z (given_maxMessageSize o) 1048576 ∧
  securityLevel (opts (bridge w)) = or_default_string (given_securityLevel o) "strict" ∧
  debug (opts (bridge w)) = default false (given_debug o) ∧
  messageTimeout (opts (bridge w)) ≠ 0%Z ∧ maxMessageSize (opts (bridge w)) ≠ 0%Z.
Proof.
  intros w.
  destruct (respects_step_run same_settings step_same_settings ops
              (new_SandboxBridge o)) as (Ht & Hm & Hs & Hd).
  fold w in Ht, Hm, Hs, Hd. rewrite Ht, Hm, Hs, Hd. cbn.
  split_and!; try done; unfold or_default_Z.
  - destruct (given_messageTimeout o) as [z|]; [|done].
    by destruct (Z.eqb_spec z 0).
  - destruct (given_maxMessageSize o) as [z|]; [|done].
    by destruct (Z.eqb_spec z 0).
Qed.

End Settings.

Lemma unrouted_message_gets_no_reply_witness :
  on_message "https://a.test" ping_request (new_SandboxBridge trusting_a_test)
  = (Ok tt, logged (set_clock_reads 1 (new_SandboxBridge trusting_a_test))).
Proof.
  apply (unrouted_message_gets_no_reply (H := reference_host));
    vm_compute; reflexivity.
Defined.


Lemma response_naming_inherited_member_witness :
  let w := run (new_SandboxBridge trusting_a_test)
             [CallPostMessage ping "https://a.test" true] in
  handle_response (response_to "toString" pong) w = (Threw TypeError, w).
Proof.
  apply (response_naming_inherited_member (H := reference_host) trusting_a_test
           [CallPostMessage ping "https://a.test" true] (response_to "toString" pong)).
  apply list_elem_of_In. simpl. repeat (first [by left | right]).
Defined.

Lemma origin_accepted_iff_witness :
  _isOriginAllowed ["https://*.example.com"] "https://a.example.com" = Some true ↔
  "*" ∈ ["https://*.example.com"] ∨ "https://a.example.com" ∈ ["https://*.example.com"]
  ∨ ∃ p, p ∈ ["https://*.example.com"] ∧ includes_star p = true
         ∧ RegExp_test ("^" ++ replace_stars p ++ "$") "https://a.example.com"
           = Some true.
Proof.
  apply (origin_accepted_iff (H := reference_host)).
  intros p Hin. apply list_elem_of_singleton in Hin. subst p. vm_compute. discriminate.
Defined.

Lemma rejected_pattern_throws_witness :
  let w := new_SandboxBridge poisoned_allowlist in
  _isOriginAllowed (allowlist w) "https://c.test" = None ∧
  step w (MessageEvent "https://c.test" ping_request)
  = set_trace (trace w ++ [EUncaught SyntaxError]) w.
Proof.
  apply (rejected_pattern_throws (H := reference_host)
           (new_SandboxBridge poisoned_allowlist) ["https://a.test"]
           [] "https://*.b.test(" "https://c.test" ping_request).
  - reflexivity.
  - intros Hin. apply list_elem_of_In in Hin. simpl in Hin.
    repeat (destruct Hin as [Hin|Hin]; [discriminate|]). done.
  - intros p Hin. apply list_elem_of_singleton in Hin. subst p. reflexivity.
  - discriminate.
  - reflexivity.
  - reflexivity.
Defined.

(** ** A request and the error of its handler, across two bridges *)

Section Failures.
Context `{Host}.

(** An error response that finds its entry: the timer of the entry is
    cancelled, and the listener throws before the continuation is called.
    The entry stays and the promise is not touched. *)
Lemma handle_response_stalls (data : value) (key : string) (e : PendingResponse)
    (w : world) :
  ToString (get data "responseToId") = key →
  table w !! key = Some e →
  is_string (get data "status") "error" = true →
  handle_response data w
  = (Threw ReferenceError,
     set_trace (trace w ++ [EClearTimeout (timeoutId e)])
       (set_timers (delete (timeoutId e) (timers w)) (next_timer w) w)).
Proof.
  intros Hkey He Hstatus. unfold handle_response, bind at 1, gets at 1.
  rewrite Hkey. unfold js_lookup. fold (table w). by rewrite He, Hstatus.
Qed.

End Failures.

Section ErrorTrip.
Context (requester responder : Host).

(** X27.  A request whose handler throws, across two bridges.  The
    requester sends [message] with [requiresResponse]; the responder trusts
    the requester's origin and has a handler for the type of the message,
    which throws a value [e] that is neither [null] nor [undefined]; the
    requester trusts the responder's origin; each transport takes the
    target it is given; each envelope reaches the other side within one
    minute of its stamp.  Then the responder's listener hands to the
    transport, in the same turn and addressed to the requester's origin, an
    error reply that names the request and carries the message and the
    details of [e].  That reply, delivered to the requester, does not
    reject the promise [postMessage] returned: the listener cancels the
    timer of the request and throws a [ReferenceError], the last thing of
    the turn; the promise stays pending and the entry stays in the table,
    with no timer left to remove it. *)
Theorem handler_error_round_trip (a b : world) (message : value) (target ty : string)
    (h : handler) (e : value) :
  let id := @next_messageId requester a in
  let stamp := @Date_now requester (S (clock_reads a)) in
  let sent := @envelope requester id stamp target message true in
  let a1 := @step requester a (CallPostMessage message target true) in
  let b1 := @step responder b (MessageEvent (@location_origin requester) sent) in
  let received := set_clock_reads (S (clock_reads b)) b in
  let stamp' := @Date_now responder (S (clock_reads received)) in
  let reply := @response_envelope responder (@next_messageId responder received)
                 (VStr id) stamp' (error_payload e) (VStr "error") in
  let a2 := @step requester a1 (MessageEvent (@location_origin responder) reply) in
  @sendable requester a message target →
  @target_accepted requester (VStr target) = true →
  @target_accepted responder (VStr (@location_origin requester)) = true →
  @location_origin requester ≠ "" → @location_origin responder ≠ "" →
  @_isOriginAllowed responder (allowlist b) (@location_origin requester) = Some true →
  @_isOriginAllowed requester (allowlist a) (@location_origin responder) = Some true →
  get message "type" = VStr ty → ty ≠ "" →
  messageHandlers (bridge b) !! ty = Some h →
  h message (meta_of sent) = Throws e → nullish e = false →
  stamp ≠ 0%Z →
  (stamp ≤ @Date_now responder (clock_reads b) ≤ stamp + 60000)%Z →
  stamp' ≠ 0%Z →
  (stamp' ≤ @Date_now requester (clock_reads a1) ≤ stamp' + 60000)%Z →
  EPostMessage reply (VStr (@location_origin requester)) ∈ trace b1 ∧
  promises a2 !! next_promise a = Some Pending ∧
  table a2 !! id = Some (entry_of (@request_of requester a)) ∧
  timers a2 !! next_timer a = None ∧
  (∃ l, trace a2 = (trace a1 ++ l ++ [EClearTimeout (next_timer a);
                                      EUncaught ReferenceError])%list ∧
        ∀ p err, EReject p err ∉ l).
Proof.
  intros id stamp sent a1 b1 received stamp' reply a2
    Hsend HtakenA HtakenB HoriginA HoriginB HallowB HallowA Hty Hne Hh Hout Hnull
    Hstamp Hwindow Hstamp' Hwindow'.
  pose proof Hsend as (Hmessage & Hobject & _).
  destruct (@postMessage_sends requester message target a Hsend HtakenA)
    as (w1 & Hrun1 & Eta & Eti & Epr & Eopts & Eclock & Etrace).
  apply (@step_postMessage requester) in Hrun1. fold a1 in Hrun1. subst w1.
  assert (HsourceA : truthy (VStr (@location_origin requester)) = true).
  { simpl. by destruct (String.eqb_spec (@location_origin requester) ""). }
  assert (HsourceB : truthy (VStr (@location_origin responder)) = true).
  { simpl. by destruct (String.eqb_spec (@location_origin responder) ""). }
  (* the responder receives the request, and its handler throws *)
  assert (Hvalid : @_validateMessage responder sent b = (Ok true, received)).
  { apply (@validateMessage_envelope responder sent stamp); try done. }
  assert (Hb1 : EPostMessage reply (VStr (@location_origin requester)) ∈ trace b1).
  { unfold b1, step, task.
    rewrite (@on_message_valid responder _ _ _ _ HallowB Hvalid).
    change (is_response sent) with false. cbv iota.
    destruct (logged_fields received) as (_ & Hclock & Hcounter & Hdraws & _ & Hhandlers).
    destruct (@handler_throws responder ty h e sent (logged received))
      as (w' & Hrun & _ & Htrace); try done.
    { by rewrite Hhandlers. }
    { change (get sent "source") with (VStr (@location_origin requester)).
      by rewrite HsourceA. }
    rewrite Hrun, Htrace.
    change (truthy (get sent "requiresResponse")) with true. cbv iota.
    change (get sent "id") with (VStr id).
    change (get sent "source") with (VStr (@location_origin requester)).
    rewrite HsourceA.
    assert (Hid : @next_messageId responder (logged received)
                  = @next_messageId responder received).
    { unfold next_messageId. unfold counter in Hcounter.
      by rewrite Hclock, Hcounter, Hdraws. }
    rewrite Hid, Hclock.
    rewrite !elem_of_app. right. right. right. apply list_elem_of_singleton. done. }
  (* the requester receives the error reply *)
  assert (Hvalid' : @_validateMessage requester reply a1
                    = (Ok true, set_clock_reads (S (clock_reads a1)) a1)).
  { apply (@validateMessage_envelope requester reply stamp'); try done. }
  assert (HallowA' : @_isOriginAllowed requester (allowlist a1)
                       (@location_origin responder) = Some true).
  { unfold allowlist. by rewrite Eopts. }
  set (a1' := logged (set_clock_reads (S (clock_reads a1)) a1)).
  destruct (logged_fields (set_clock_reads (S (clock_reads a1)) a1))
    as (Hta & Hclock' & _). fold a1' in Hta, Hclock'.
  destruct (logged_frame (set_clock_reads (S (clock_reads a1)) a1))
    as (_ & _ & Hti & Hpr & _). fold a1' in Hti, Hpr.
  assert (Hentry : table a1' !! id = Some (entry_of (@request_of requester a))).
  { rewrite Hta. change (table (set_clock_reads _ a1)) with (table a1).
    rewrite Eta. apply lookup_insert_eq. }
  assert (Ha2 : a2 = set_trace
                  ((trace a1' ++ [EClearTimeout (next_timer a)])
                   ++ [EUncaught ReferenceError])
                  (set_timers (delete (next_timer a) (timers a1')) (next_timer a1') a1')).
  { unfold a2, step, task.
    rewrite (@on_message_valid requester _ _ _ _ HallowA' Hvalid').
    change (is_response reply) with true. cbv iota. fold a1'.
    by rewrite (handle_response_stalls reply id _ a1' eq_refl Hentry eq_refl). }
  split_and!.
  - exact Hb1.
  - rewrite Ha2. change (promises (set_trace _ _)) with (promises a1').
    rewrite Hpr. change (promises (set_clock_reads _ a1)) with (promises a1).
    rewrite Epr. apply lookup_insert_eq.
  - rewrite Ha2. exact Hentry.
  - rewrite Ha2. change (timers (set_trace _ _)) with (delete (next_timer a) (timers a1')).
    apply lookup_delete_eq.
  - rewrite Ha2. cbn [trace set_trace].
    exists (if debug (opts (bridge a1)) then [EConsole Log] else []).
    split.
    + unfold a1', logged.
      change (bridge (set_clock_reads (S (clock_reads a1)) a1)) with (bridge a1).
      destruct (debug (opts (bridge a1))); cbn [trace set_trace set_clock_reads];
        by rewrite <- ?app_assoc.
    + intros p err Hin. destruct (debug (opts (bridge a1)));
        [apply list_elem_of_singleton in Hin; discriminate|by apply elem_of_nil in Hin].
Qed.

End ErrorTrip.

Lemma handler_error_round_trip_witness :
  let a := new_SandboxBridge trusting_app_test in
  let b := @failing_ping frozen_host in
  let e := VObj [("message", VStr "boom")] in
  let id := @next_messageId frozen_host a in
  let stamp := @Date_now frozen_host (S (clock_reads a)) in
  let sent := @envelope frozen_host id stamp "https://app.test" ping true in
  let a1 := @step frozen_host a (CallPostMessage ping "https://app.test" true) in
  let b1 := @step frozen_host b (MessageEvent (@location_origin frozen_host) sent) in
  let received := set_clock_reads (S (clock_reads b)) b in
  let stamp' := @Date_now frozen_host (S (clock_reads received)) in
  let reply := @response_envelope frozen_host (@next_messageId frozen_host received)
                 (VStr id) stamp' (error_payload e) (VStr "error") in
  let a2 := @step frozen_host a1 (MessageEvent (@location_origin frozen_host) reply) in
  EPostMessage reply (VStr (@location_origin frozen_host)) ∈ trace b1 ∧
  promises a2 !! next_promise a = Some Pending ∧
  table a2 !! id = Some (entry_of (@request_of frozen_host a)) ∧
  timers a2 !! next_timer a = None ∧
  (∃ l, trace a2 = (trace a1 ++ l ++ [EClearTimeout (next_timer a);
                                      EUncaught ReferenceError])%list ∧
        ∀ p err, EReject p err ∉ l).
Proof.
  apply (handler_error_round_trip frozen_host frozen_host
           (new_SandboxBridge trusting_app_test) (@failing_ping frozen_host)
           ping "https://app.test" "ping" throwing_handler
           (VObj [("message", VStr "boom")])).
  - repeat split; [discriminate|]. vm_compute. discriminate.
  - reflexivity.
  - reflexivity.
  - discriminate.
  - discriminate.
  - reflexivity.
  - reflexivity.
  - reflexivity.
  - discriminate.
  - reflexivity.
  - reflexivity.
  - reflexivity.
  - discriminate.
  - vm_compute. split; discriminate.
  - discriminate.
  - vm_compute. split; discriminate.
Defined.

(* ===================================================================== *)
(** * Properties of the event emitter *)

Lemma filter_none {A} (P : A → Prop) `{!∀ x, Decision (P x)} (l : list A) :
  (∀ x, x ∈ l → ¬ P x) → filter P l = [].
Proof.
  induction l as [|x l IH]; intros Hl; [done|].
  rewrite filter_cons_False by (apply Hl; by left).
  apply IH. intros y Hy. apply Hl. by right.
Qed.

Lemma filter_all {A} (P : A → Prop) `{!∀ x, Decision (P x)} (l : list A) :
  (∀ x, x ∈ l → P x) → filter P l = l.
Proof.
  induction l as [|x l IH]; intros Hl; [done|].
  rewrite filter_cons_True by (apply Hl; by left).
  f_equal. apply IH. intros y Hy. apply Hl. by right.
Qed.

Section EmitterOrder.
Import Emitter.

Lemma insert_item_head (x : item) (l : list item) :
  Forall (fun y => (priority y ≤ priority x)%Z) l → insert_item x l = x :: l.
Proof.
  destruct l as [|y l]; [done|]. intros Hall. cbn [insert_item].
  apply Forall_cons in Hall as [Hy _].
  by destruct (Z.ltb_spec (priority x) (priority y)); [lia|].
Qed.

Lemma Forall_insert_item (P : item → Prop) (x : item) (l : list item) :
  P x → Forall P l → Forall P (insert_item x l).
Proof.
  intros Hx. induction 1 as [|y l Hy Hl IH]; cbn [insert_item].
  - by constructor.
  - destruct (priority x <? priority y)%Z; repeat constructor; done.
Qed.

Lemma insert_item_descending (x : item) (l : list item) :
  descending l → descending (insert_item x l).
Proof.
  induction l as [|y l IH]; intros Hl; cbn [insert_item].
  - by split.
  - destruct Hl as [Hy Hl].
    destruct (Z.ltb_spec (priority x) (priority y)).
    + split; [|by apply IH]. apply Forall_insert_item; [lia|done].
    + split; [|by split]. constructor; [lia|].
      eapply Forall_impl; [exact Hy|]. intros z Hz. simpl in Hz. lia.
Qed.

Lemma sort_items_descending (l : list item) : descending (sort_items l).
Proof.
  induction l as [|x l IH]; [done|]. by apply insert_item_descending.
Qed.

Lemma filter_descending (P : item → Prop) `{!∀ x, Decision (P x)} (l : list item) :
  descending l → descending (filter P l).
Proof.
  induction l as [|x l IH]; [done|]. intros [Hx Hl]. rewrite filter_cons.
  destruct (decide (P x)); [|by apply IH]. split; [|by apply IH].
  apply Forall_forall. intros y [_ Hy]%list_elem_of_filter.
  rewrite Forall_forall in Hx. by apply Hx.
Qed.

(** Where the sort puts a new entry: after the entries of priority no less
    than its own, before the entries of lower priority. *)
Lemma sort_items_snoc (x : item) (l : list item) :
  descending l →
  sort_items (l ++ [x])
  = (filter (fun y => (priority x ≤ priority y)%Z) l
     ++ x :: filter (fun y => (priority y < priority x)%Z) l)%list.
Proof.
  induction l as [|y l IH]; intros Hl; [done|]. destruct Hl as [Hy Hl].
  change (sort_items ((y :: l) ++ [x])) with (insert_item y (sort_items (l ++ [x]))).
  rewrite (IH Hl), !filter_cons. rewrite Forall_forall in Hy.
  destruct (decide (priority x ≤ priority y)%Z) as [Hle|Hgt].
  - destruct (decide (priority y < priority x)%Z); [lia|].
    rewrite insert_item_head; [done|].
    apply Forall_app. split.
    + apply Forall_forall. intros z [_ Hz]%list_elem_of_filter. by apply Hy.
    + constructor; [done|].
      apply Forall_forall. intros z [_ Hz]%list_elem_of_filter. by apply Hy.
  - destruct (decide (priority y < priority x)%Z); [|lia].
    rewrite (filter_none (fun z => (priority x ≤ priority z)%Z) l)
      by (intros z Hz; specialize (Hy z Hz); simpl in Hy; lia).
    rewrite (filter_all (fun z => (priority z < priority x)%Z) l)
      by (intros z Hz; specialize (Hy z Hz); simpl in Hy; lia).
    cbn [app insert_item].
    destruct (Z.ltb_spec (priority y) (priority x)); [|lia].
    rewrite insert_item_head; [done|]. by apply Forall_forall.
Qed.

End EmitterOrder.

Lemma inherited_name (name : string) :
  name ∈ Object_prototype_members ↔
  existsb (String.eqb name) Object_prototype_members = true.
Proof.
  rewrite existsb_exists. split.
  - intros Hin. exists name. split; [by apply list_elem_of_In|apply String.eqb_refl].
  - intros (x & Hin & Heq). apply String.eqb_eq in Heq. subst x.
    by apply list_elem_of_In.
Qed.

Lemma star_not_inherited : "*" ∉ Object_prototype_members.
Proof. intros Hin%inherited_name. discriminate. Qed.

Section EmitterRuns.
Import Emitter.
Variable behaviour : nat → list value → option value.

Lemma descending_split (p : Z) (l : list item) :
  descending l →
  (filter (fun y => (p ≤ priority y)%Z) l ++ filter (fun y => (priority y < p)%Z) l)%list
  = l.
Proof.
  induction l as [|y l IH]; intros Hl; [done|]. destruct Hl as [Hy Hl].
  rewrite !filter_cons. rewrite Forall_forall in Hy.
  destruct (decide (p ≤ priority y)%Z).
  - destruct (decide (priority y < p)%Z); [lia|]. simpl. by rewrite IH.
  - destruct (decide (priority y < p)%Z); [|lia].
    rewrite (filter_none (fun z => (p ≤ priority z)%Z) l)
      by (intros z Hz; specialize (Hy z Hz); simpl in Hy; lia).
    rewrite (filter_all (fun z => (priority z < p)%Z) l)
      by (intros z Hz; specialize (Hy z Hz); simpl in Hy; lia).
    done.
Qed.

Lemma call_emitter (f : nat) (args : list value) (s : state) :
  emitter (call behaviour f args s) = emitter s.
Proof. unfold call. by destruct (behaviour f args). Qed.

Lemma call_log (f : nat) (args : list value) (s : state) :
  log (call behaviour f args s) = (log s ++ reports behaviour f args)%list.
Proof.
  unfold call, reports. destruct (behaviour f args); simpl; [|done].
  by rewrite <- app_assoc.
Qed.

Lemma js_lookup_some {A} (m : gmap string A) (key : string) (a : A) :
  m !! key = Some a → js_lookup m key = Own a.
Proof. intros Hkey. unfold js_lookup. by rewrite Hkey. Qed.

Lemma js_lookup_none {A} (m : gmap string A) (key : string) :
  m !! key = None → key ∉ Object_prototype_members → js_lookup m key = Missing.
Proof.
  intros Hkey Hname. unfold js_lookup. rewrite Hkey.
  destruct (existsb _ _) eqn:Hex; [|done]. by apply inherited_name in Hex.
Qed.

Lemma js_lookup_inherited {A} (m : gmap string A) (key : string) :
  m !! key = None → key ∈ Object_prototype_members → js_lookup m key = Inherited.
Proof.
  intros Hkey Hname. unfold js_lookup. rewrite Hkey.
  apply inherited_name in Hname. by rewrite Hname.
Qed.

(** The loop over the listeners of an event that is a key of [events]. *)
Lemma call_each_run (event : string) (data : value) (copy current : list item)
    (s : state) :
  event ≠ "*" → events (emitter s) !! event = Some current →
  ∃ s',
    call_each behaviour event data copy s = (Ok tt, s') ∧
    log s' = (log s ++ flat_map (fun it => reports behaviour (listener it) [data])
                         copy)%list ∧
    events (emitter s')
    = <[event := filter (fun it => listener it ∉ one_shot_listeners copy) current]>
        (events (emitter s)) ∧
    wildcardListeners (emitter s') = wildcardListeners (emitter s) ∧
    maxListeners (emitter s') = maxListeners (emitter s).
Proof.
  intros Hstar. revert current s.
  induction copy as [|it rest IH]; intros current s Hcurrent.
  - exists s. split_and!; try done; [by rewrite app_nil_r|].
    rewrite filter_all by (intros; apply not_elem_of_nil).
    by rewrite insert_id.
  - cbn [call_each]. set (s1 := call behaviour (listener it) [data] s).
    assert (Hs1 : emitter s1 = emitter s) by apply call_emitter.
    assert (Hlog1 : log s1 = (log s ++ reports behaviour (listener it) [data])%list)
      by apply call_log.
    destruct (one_shot it) eqn:Honce.
    + unfold off. apply String.eqb_neq in Hstar as Hneq. rewrite Hneq.
      rewrite Hs1, (js_lookup_some _ _ _ Hcurrent).
      set (s2 := with_events _ s1).
      destruct (IH (filter (fun x => listener x ≠ listener it) current) s2)
        as (s' & Hrun & Hlog & Hevents & Hwild & Hmax).
      { subst s2. simpl. by rewrite lookup_insert_eq. }
      exists s'. split; [done|]. split_and!.
      * rewrite Hlog. subst s2. cbn [log with_events]. rewrite Hlog1.
        cbn [flat_map]. by rewrite <- app_assoc.
      * rewrite Hevents. subst s2. cbn [emitter with_events events].
        rewrite insert_insert_eq. f_equal.
        rewrite list_filter_filter. apply list_filter_iff. intros x.
        unfold one_shot_listeners. rewrite filter_cons_True by done.
        cbn [map]. rewrite not_elem_of_cons. tauto.
      * rewrite Hwild. subst s2. simpl. by rewrite Hs1.
      * rewrite Hmax. subst s2. simpl. by rewrite Hs1.
    + destruct (IH current s1) as (s' & Hrun & Hlog & Hevents & Hwild & Hmax).
      { by rewrite Hs1. }
      exists s'. split; [done|]. split_and!.
      * rewrite Hlog, Hlog1. cbn [flat_map]. by rewrite <- app_assoc.
      * rewrite Hevents, Hs1. f_equal. unfold one_shot_listeners.
        rewrite filter_cons_False; [done|]. by rewrite Honce.
      * by rewrite Hwild, Hs1.
      * by rewrite Hmax, Hs1.
Qed.

Lemma remove_first_skip (it : wildcard_item) (kept rest : list wildcard_item) :
  Forall (fun x => w_once x = false) kept → w_once it = true →
  remove_first it (kept ++ it :: rest) = (kept ++ rest)%list.
Proof.
  intros Hkept Honce. induction Hkept as [|x kept Hx _ IH]; cbn [app remove_first].
  - by rewrite decide_True.
  - rewrite decide_False by (intros [_ Heq]; congruence). by rewrite IH.
Qed.

(** The loop over the wildcard listeners. *)
Lemma call_each_wildcard_run (event : string) (data : value)
    (copy kept : list wildcard_item) (s : state) :
  wildcardListeners (emitter s) = (kept ++ copy)%list →
  Forall (fun x => w_once x = false) kept →
  let s' := call_each_wildcard behaviour event data copy s in
  log s' = (log s ++ flat_map (fun it => reports behaviour (w_listener it)
                                           [VStr event; data]) copy)%list ∧
  wildcardListeners (emitter s')
  = (kept ++ filter (fun x => w_once x = false) copy)%list ∧
  events (emitter s') = events (emitter s) ∧
  maxListeners (emitter s') = maxListeners (emitter s).
Proof.
  revert kept s. induction copy as [|it rest IH]; intros kept s Hlive Hkept.
  - simpl. rewrite !app_nil_r in *. done.
  - cbn [call_each_wildcard]. set (s1 := call behaviour (w_listener it) _ s).
    assert (Hs1 : emitter s1 = emitter s) by apply call_emitter.
    assert (Hlog1 : log s1 = (log s ++ reports behaviour (w_listener it)
                                         [VStr event; data])%list)
      by apply call_log.
    destruct (w_once it) eqn:Honce.
    + rewrite Hs1, Hlive, remove_first_skip by done.
      set (s2 := with_wildcardListeners _ s1).
      destruct (IH kept s2) as (Hlog & Hwild & Hevents & Hmax); [done..|].
      split_and!.
      * rewrite Hlog. subst s2. cbn [log with_wildcardListeners]. rewrite Hlog1.
        cbn [flat_map]. by rewrite <- app_assoc.
      * rewrite Hwild. rewrite filter_cons_False; [done|]. by rewrite Honce.
      * rewrite Hevents. subst s2. simpl. by rewrite Hs1.
      * rewrite Hmax. subst s2. simpl. by rewrite Hs1.
    + destruct (IH (kept ++ [it])%list s1) as (Hlog & Hwild & Hevents & Hmax).
      { by rewrite Hs1, Hlive, <- app_assoc. }
      { apply Forall_app. split; [done|]. by repeat constructor. }
      split_and!.
      * rewrite Hlog, Hlog1. cbn [flat_map]. by rewrite <- app_assoc.
      * rewrite Hwild, filter_cons_True by done. by rewrite <- app_assoc.
      * by rewrite Hevents, Hs1.
      * by rewrite Hmax, Hs1.
Qed.

(** What [emit] does under a name that plain objects do not inherit. *)
Lemma emit_run (event : string) (data : value) (s : state) :
  well_kept s → event ∉ Object_prototype_members →
  let array := default [] (events (emitter s) !! event) in
  let wild := wildcardListeners (emitter s) in
  ∃ s',
    emit behaviour event data s
    = (Ok (negb (length array =? 0)%nat || negb (length wild =? 0)%nat), s') ∧
    log s' = (log s
              ++ flat_map (fun it => reports behaviour (listener it) [data]) array
              ++ flat_map (fun it => reports behaviour (w_listener it)
                                       [VStr event; data]) wild)%list ∧
    events (emitter s')
    = match events (emitter s) !! event with
      | Some current =>
          <[event := filter (fun it => listener it ∉ one_shot_listeners current)
                       current]> (events (emitter s))
      | None => events (emitter s)
      end ∧
    wildcardListeners (emitter s') = filter (fun x => w_once x = false) wild ∧
    maxListeners (emitter s') = maxListeners (emitter s).
Proof.
  intros [Horder Hnames Hstar] Hname array wild. unfold emit.
  destruct (events (emitter s) !! event) as [current|] eqn:Hcurrent.
  - assert (Hne : event ≠ "*") by (intros ->; congruence).
    rewrite (js_lookup_some _ _ _ Hcurrent).
    destruct (call_each_run event data current current s Hne Hcurrent)
      as (s1 & Hrun & Hlog & Hevents & Hwild & Hmax).
    rewrite Hrun.
    destruct (call_each_wildcard_run event data (wildcardListeners (emitter s1)) [] s1)
      as (Hlog' & Hwild' & Hevents' & Hmax'); [done|done|].
    eexists. split; [reflexivity|]. subst array wild. cbn [default].
    split_and!.
    + by rewrite Hlog', Hlog, Hwild, <- app_assoc.
    + by rewrite Hevents', Hevents.
    + by rewrite Hwild', Hwild.
    + by rewrite Hmax', Hmax.
  - rewrite (js_lookup_none _ _ Hcurrent Hname). cbn [call_each].
    destruct (call_each_wildcard_run event data (wildcardListeners (emitter s)) [] s)
      as (Hlog' & Hwild' & Hevents' & Hmax'); [done|done|].
    eexists. split; [reflexivity|]. subst array wild. cbn [default flat_map app].
    done.
Qed.

Lemma new_EventEmitter_well_kept : well_kept new_EventEmitter.
Proof. split; simpl; intros; by rewrite ?lookup_empty in *. Qed.

Lemma on_well_kept (event : string) (l : option nat) (o : on_options) (s : state) :
  well_kept s → well_kept (on event l o s).2.
Proof.
  intros [Horder Hnames Hstar]. unfold on. destruct l as [f|]; [|done].
  destruct (String.eqb_spec event "*") as [->|Hne]; [done|].
  assert (Hkeep : ∀ s0, emitter s0 = emitter s →
            ∀ array, (events (emitter s) !! event = None →
                      event ∉ Object_prototype_members) →
            well_kept (with_events
                         (<[event := sort_items array]> (events (emitter s))) s0)).
  { intros s0 Hs0 array Hname. split; simpl.
    - intros e a [[<- <-]|[_ Ha]]%lookup_insert_Some;
        [apply sort_items_descending|by eapply Horder].
    - intros e He. rewrite lookup_insert_ne; [by apply Hnames|].
      intros <-. destruct (events (emitter s) !! event) eqn:Hev.
      + by rewrite (Hnames _ He) in Hev.
      + by apply Hname.
    - by rewrite lookup_insert_ne. }
  unfold js_lookup.
  destruct (events (emitter s) !! event) as [array|] eqn:Hev.
  - apply Hkeep; [by destruct (num_ge _ _)|done].
  - destruct (existsb _ _) eqn:Hex.
    + simpl. by destruct (num_ge _ _).
    + apply Hkeep; [by destruct (num_ge _ _)|].
      intros _ Hin%inherited_name. congruence.
Qed.

Lemma off_well_kept (event : string) (l : option nat) (s : state) :
  well_kept s → well_kept (off event l s).2.
Proof.
  intros [Horder Hnames Hstar]. unfold off.
  destruct (String.eqb_spec event "*") as [->|Hne]; [by destruct l|].
  unfold js_lookup.
  destruct (events (emitter s) !! event) as [array|] eqn:Hev.
  - destruct l as [f|]; split; simpl.
    + intros e a [[<- <-]|[_ Ha]]%lookup_insert_Some; [|by eapply Horder].
      apply filter_descending. by eapply Horder.
    + intros e He. rewrite lookup_insert_ne; [by apply Hnames|].
      intros <-. by rewrite (Hnames _ He) in Hev.
    + by rewrite lookup_insert_ne.
    + intros e a [_ Ha]%lookup_delete_Some. by eapply Horder.
    + intros e He. apply lookup_delete_None. right. by apply Hnames.
    + apply lookup_delete_None. by right.
  - destruct (existsb _ _); [by destruct l|done].
Qed.

Lemma emit_well_kept (event : string) (data : value) (s : state) :
  well_kept s → well_kept (emit behaviour event data s).2.
Proof.
  intros Hs. destruct (decide (event ∈ Object_prototype_members)) as [Hin|Hout].
  - unfold emit. rewrite js_lookup_inherited; [done|by apply (kept_names s)|done].
  - destruct (emit_run event data s Hs Hout) as (s' & -> & _ & Hevents & _).
    destruct Hs as [Horder Hnames Hstar]. cbn [snd].
    destruct (events (emitter s) !! event) as [current|] eqn:Hcurrent;
      split; rewrite Hevents; try done.
    + intros e a [[<- <-]|[_ Ha]]%lookup_insert_Some; [|by eapply Horder].
      apply filter_descending. by eapply Horder.
    + intros e He. rewrite lookup_insert_ne; [by apply Hnames|]. by intros <-.
    + rewrite lookup_insert_ne; [done|]. intros ->. congruence.
Qed.

Lemma step_well_kept (s : state) (o : op) :
  well_kept s → well_kept (step behaviour s o).
Proof.
  intros Hs. destruct o as [event l o|event l o|event l|event data|n|event];
    cbn [step].
  - by apply on_well_kept.
  - by apply on_well_kept.
  - by apply off_well_kept.
  - by apply emit_well_kept.
  - by destruct Hs.
  - destruct Hs as [Horder Hnames Hstar].
    assert (Hempty : well_kept (with_wildcardListeners [] (with_events ∅ s)))
      by (split; simpl; intros; by rewrite ?lookup_empty in * ).
    destruct event as [e|]; cbn [removeAllListeners]; [|done].
    destruct (String.eqb e ""); [done|]. split; simpl.
    + intros e' a [_ Ha]%lookup_delete_Some. by eapply Horder.
    + intros e' He. apply lookup_delete_None. right. by apply Hnames.
    + apply lookup_delete_None. by right.
Qed.

Lemma run_well_kept (ops : list op) (s : state) :
  well_kept s → well_kept (run behaviour s ops).
Proof.
  revert s. induction ops as [|o ops IH]; intros s Hs; [done|].
  apply IH. by apply step_well_kept.
Qed.

(** What [on] does in a state an emitter reaches, under a name that is
    neither the star nor inherited. *)
Lemma on_run (ops : list op) (event : string) (f : nat) (o : on_options) :
  let s := run behaviour new_EventEmitter ops in
  let array := default [] (events (emitter s) !! event) in
  let new := {| listener := f; one_shot := opt_once o; priority := opt_priority o |} in
  event ≠ "*" → event ∉ Object_prototype_members →
  descending array ∧
  (on event (Some f) o s).1 = Ok tt ∧
  events (emitter (on event (Some f) o s).2) !! event
  = Some (filter (fun y => (opt_priority o ≤ priority y)%Z) array
          ++ new :: filter (fun y => (priority y < opt_priority o)%Z) array)%list ∧
  wildcardListeners (emitter (on event (Some f) o s).2)
  = wildcardListeners (emitter s) ∧
  ∀ other, other ≠ event →
           events (emitter (on event (Some f) o s).2) !! other
           = events (emitter s) !! other.
Proof.
  intros s array new Hstar Hname.
  pose proof (run_well_kept ops _ new_EventEmitter_well_kept) as Hs. fold s in Hs.
  assert (Harray : descending array).
  { subst array. destruct (events (emitter s) !! event) as [a|] eqn:Ha; [|done].
    by apply (kept_order s Hs event). }
  split; [done|]. unfold on.
  apply String.eqb_neq in Hstar. rewrite Hstar.
  assert (Hfound : match js_lookup (events (emitter s)) event with
                   | Own a => a = array
                   | Inherited => False
                   | Missing => array = []
                   end).
  { subst array. destruct (events (emitter s) !! event) as [a|] eqn:Ha.
    - by rewrite (js_lookup_some _ _ _ Ha).
    - by rewrite (js_lookup_none _ _ Ha Hname). }
  destruct (js_lookup (events (emitter s)) event) as [a| |]; [subst a|done|];
    (split; [done|]); cbn [snd with_events emitter events wildcardListeners];
    (split_and!;
      [ rewrite lookup_insert_eq; rewrite ?Hfound;
        by rewrite <- (sort_items_snoc new) by (by rewrite <- ?Hfound)
      | by destruct (num_ge _ _)
      | intros other Hother; by rewrite lookup_insert_ne by done ]).
Qed.

(** X14.  Listeners are kept in priority order.  In every state an emitter
    reaches, the entries of every event are in descending priority; and
    [on] puts the new entry after the entries whose priority is no less
    than its own and before the entries of lower priority, without changing
    their order, whatever [maxListeners] is: reaching the limit only
    warns. *)
Theorem listeners_are_kept_in_priority_order (ops : list op) (event : string)
    (f : nat) (o : on_options) :
  let s := run behaviour new_EventEmitter ops in
  let array := default [] (events (emitter s) !! event) in
  let new := {| listener := f; one_shot := opt_once o; priority := opt_priority o |} in
  event ≠ "*" → event ∉ Object_prototype_members →
  descending array ∧
  (on event (Some f) o s).1 = Ok tt ∧
  events (emitter (on event (Some f) o s).2) !! event
  = Some (filter (fun y => (opt_priority o ≤ priority y)%Z) array
          ++ new :: filter (fun y => (priority y < opt_priority o)%Z) array)%list.
Proof.
  intros s array new Hstar Hname.
  destruct (on_run ops event f o Hstar Hname) as (? & ? & ? & _). done.
Qed.

(** X15.  [emit], under a name that plain objects do not inherit, calls
    every listener of the event with the data, in the order of the entries,
    and then every wildcard listener with the name and the data, in the
    order of registration.  A listener that throws stops nothing: the
    exception is logged and the next listener is called.  [emit] itself
    does not throw, and returns whether there was a listener. *)
Theorem emit_calls_every_listener (ops : list op) (event : string) (data : value) :
  let s := run behaviour new_EventEmitter ops in
  let array := default [] (events (emitter s) !! event) in
  let wild := wildcardListeners (emitter s) in
  event ∉ Object_prototype_members →
  ∃ s',
    emit behaviour event data s
    = (Ok (negb (length array =? 0)%nat || negb (length wild =? 0)%nat), s') ∧
    log s' = (log s
              ++ flat_map (fun it => reports behaviour (listener it) [data]) array
              ++ flat_map (fun it => reports behaviour (w_listener it)
                                       [VStr event; data]) wild)%list.
Proof.
  intros s array wild Hname.
  destruct (emit_run event data s (run_well_kept ops _ new_EventEmitter_well_kept)
              Hname) as (s' & Hrun & Hlog & _).
  by exists s'.
Qed.

(** X16.  After [emit], the one-shot listeners are gone, and more: for
    each one-shot entry of the event, every entry of the event with the
    same function is removed, one-shot or not; the other entries keep their
    order, and the event stays a key of [events] even when no entry is
    left.  Of the wildcard listeners exactly the one-shot entries are
    removed.  The entries of other events are untouched. *)
Theorem emit_removes_one_shot_listeners (ops : list op) (event : string)
    (data : value) (array : list item) :
  let s := run behaviour new_EventEmitter ops in
  let s' := (emit behaviour event data s).2 in
  events (emitter s) !! event = Some array →
  events (emitter s') !! event
  = Some (filter (fun it => listener it ∉ one_shot_listeners array) array) ∧
  wildcardListeners (emitter s')
  = filter (fun x => w_once x = false) (wildcardListeners (emitter s)) ∧
  ∀ other, other ≠ event →
           events (emitter s') !! other = events (emitter s) !! other.
Proof.
  intros s s' Harray.
  pose proof (run_well_kept ops _ new_EventEmitter_well_kept) as Hs. fold s in Hs.
  assert (Hname : event ∉ Object_prototype_members).
  { intros Hin. by rewrite (kept_names s Hs event Hin) in Harray. }
  destruct (emit_run event data s Hs Hname) as (s1 & Hrun & _ & Hevents & Hwild & _).
  subst s'. rewrite Hrun. cbn [snd]. rewrite Hevents, Harray, Hwild.
  split_and!; [by rewrite lookup_insert_eq|done|].
  intros other Hother. by rewrite lookup_insert_ne.
Qed.

(** X17.  [on] followed by [off] of the same function, under a name that
    is neither the star nor inherited, for a function that was not
    registered for the event: the entries of the event are what they were,
    in the same order, whatever the priority of the registration; but the
    event is then a key of [events] even if it was none before. *)
Theorem on_then_off_restores_the_listeners (ops : list op) (event : string)
    (f : nat) (o : on_options) :
  let s := run behaviour new_EventEmitter ops in
  let array := default [] (events (emitter s) !! event) in
  let s' := (off event (Some f) (on event (Some f) o s).2).2 in
  event ≠ "*" → event ∉ Object_prototype_members → f ∉ map listener array →
  events (emitter s') !! event = Some array ∧
  listeners event s' = Ok (map listener array) ∧
  wildcardListeners (emitter s') = wildcardListeners (emitter s) ∧
  ∀ other, other ≠ event →
           events (emitter s') !! other = events (emitter s) !! other.
Proof.
  intros s array s' Hstar Hname Hfresh.
  destruct (on_run ops event f o Hstar Hname)
    as (Harray & Hok & Hon & Hwild & Hothers).
  fold s in Hok, Hon, Hwild, Hothers. fold array in Harray, Hon.
  assert (Hoff : events (emitter s') !! event = Some array).
  { subst s'. unfold off. apply String.eqb_neq in Hstar as Hneq. rewrite Hneq.
    rewrite (js_lookup_some _ _ _ Hon). cbn [snd with_events emitter events].
    rewrite lookup_insert_eq. f_equal.
    rewrite filter_app, filter_cons_False by (simpl; tauto).
    rewrite !(filter_all (fun it => listener it ≠ f)).
    - by apply descending_split.
    - intros x [_ Hx]%list_elem_of_filter Heq. apply Hfresh.
      rewrite <- Heq. by apply list_elem_of_fmap_2.
    - intros x [_ Hx]%list_elem_of_filter Heq. apply Hfresh.
      rewrite <- Heq. by apply list_elem_of_fmap_2. }
  split_and!.
  - exact Hoff.
  - unfold listeners. apply String.eqb_neq in Hstar as Hneq. rewrite Hneq.
    by rewrite (js_lookup_some _ _ _ Hoff).
  - subst s'. unfold off. apply String.eqb_neq in Hstar as Hneq. rewrite Hneq.
    rewrite (js_lookup_some _ _ _ Hon). cbn [snd with_events emitter wildcardListeners].
    exact Hwild.
  - intros other Hother. subst s'. unfold off.
    apply String.eqb_neq in Hstar as Hneq. rewrite Hneq.
    rewrite (js_lookup_some _ _ _ Hon). cbn [snd with_events emitter events].
    rewrite lookup_insert_ne by done. by apply Hothers.
Qed.

(** X18.  Names that plain objects inherit cannot be used as event names.
    In every state an emitter reaches, under a name such as [toString] or
    [constructor], [on] throws a [TypeError] and registers nothing, [emit]
    throws a [TypeError] before any listener is called, the wildcard
    listeners included, and [off] with a function and [listeners] throw as
    well. *)
Theorem inherited_event_names_throw (ops : list op) (event : string) (f : nat)
    (o : on_options) (data : value) :
  let s := run behaviour new_EventEmitter ops in
  event ∈ Object_prototype_members →
  (on event (Some f) o s).1 = Threw TypeError ∧
  emitter (on event (Some f) o s).2 = emitter s ∧
  emit behaviour event data s = (Threw TypeError, s) ∧
  off event (Some f) s = (Threw TypeError, s) ∧
  listeners event s = Threw TypeError.
Proof.
  intros s Hname.
  pose proof (run_well_kept ops _ new_EventEmitter_well_kept) as Hs. fold s in Hs.
  assert (Hstar : String.eqb event "*" = false).
  { apply String.eqb_neq. intros ->. by apply star_not_inherited. }
  pose proof (js_lookup_inherited _ _ (kept_names s Hs event Hname) Hname) as Hfound.
  unfold on, emit, off, listeners. rewrite Hstar, Hfound. cbn [fst snd].
  split_and!; try done. by destruct (num_ge _ _).
Qed.

End EmitterRuns.

Section EmitterWitnesses.
Import Emitter.

Lemma tick_not_inherited : "tick" ∉ Object_prototype_members.
Proof. intros Hin%inherited_name. discriminate. Qed.

Lemma listeners_are_kept_in_priority_order_witness :
  let s := run second_throws new_EventEmitter registrations in
  let array := default [] (events (emitter s) !! "tick") in
  let o := {| opt_once := false; opt_priority := 5 |} in
  let new := {| listener := 7; one_shot := false; priority := 5 |} in
  descending array ∧
  (on "tick" (Some 7) o s).1 = Ok tt ∧
  events (emitter (on "tick" (Some 7) o s).2) !! "tick"
  = Some (filter (fun y => (opt_priority o ≤ priority y)%Z) array
          ++ new :: filter (fun y => (priority y < opt_priority o)%Z) array)%list.
Proof.
  apply (listeners_are_kept_in_priority_order second_throws registrations "tick" 7
           {| opt_once := false; opt_priority := 5 |}).
  - discriminate.
  - exact tick_not_inherited.
Defined.

Lemma emit_calls_every_listener_witness :
  let s := run second_throws new_EventEmitter registrations in
  let array := default [] (events (emitter s) !! "tick") in
  let wild := wildcardListeners (emitter s) in
  ∃ s',
    emit second_throws "tick" (VStr "data") s
    = (Ok (negb (length array =? 0)%nat || negb (length wild =? 0)%nat), s') ∧
    log s' = (log s
              ++ flat_map (fun it => reports second_throws (listener it) [VStr "data"])
                   array
              ++ flat_map (fun it => reports second_throws (w_listener it)
                                       [VStr "tick"; VStr "data"]) wild)%list.
Proof.
  apply (emit_calls_every_listener second_throws registrations "tick" (VStr "data")).
  exact tick_not_inherited.
Defined.

Lemma emit_removes_one_shot_listeners_witness :
  let s := run second_throws new_EventEmitter registrations in
  let s' := (emit second_throws "tick" (VStr "data") s).2 in
  let array := [ {| listener := 2; one_shot := true; priority := 5 |};
                 {| listener := 1; one_shot := false; priority := 0 |};
                 {| listener := 3; one_shot := false; priority := 0 |} ] in
  events (emitter s') !! "tick"
  = Some (filter (fun it => listener it ∉ one_shot_listeners array) array) ∧
  wildcardListeners (emitter s')
  = filter (fun x => w_once x = false) (wildcardListeners (emitter s)) ∧
  ∀ other, other ≠ "tick" →
           events (emitter s') !! other = events (emitter s) !! other.
Proof.
  apply (emit_removes_one_shot_listeners second_throws registrations "tick"
           (VStr "data")).
  vm_compute. reflexivity.
Defined.

Lemma on_then_off_restores_the_listeners_witness :
  let s := run second_throws new_EventEmitter registrations in
  let array := default [] (events (emitter s) !! "tick") in
  let o := {| opt_once := false; opt_priority := 5 |} in
  let s' := (off "tick" (Some 7) (on "tick" (Some 7) o s).2).2 in
  events (emitter s') !! "tick" = Some array ∧
  listeners "tick" s' = Ok (map listener array) ∧
  wildcardListeners (emitter s') = wildcardListeners (emitter s) ∧
  ∀ other, other ≠ "tick" →
           events (emitter s') !! other = events (emitter s) !! other.
Proof.
  apply (on_then_off_restores_the_listeners second_throws registrations "tick" 7
           {| opt_once := false; opt_priority := 5 |}).
  - discriminate.
  - exact tick_not_inherited.
  - intros Hin. apply list_elem_of_In in Hin. vm_compute in Hin.
    repeat (destruct Hin as [Hin|Hin]; [discriminate|]). done.
Defined.

Lemma inherited_event_names_throw_witness :
  let s := run second_throws new_EventEmitter registrations in
  (on "toString" (Some 7) no_on_options s).1 = Threw TypeError ∧
  emitter (on "toString" (Some 7) no_on_options s).2 = emitter s ∧
  emit second_throws "toString" (VStr "data") s = (Threw TypeError, s) ∧
  off "toString" (Some 7) s = (Threw TypeError, s) ∧
  listeners "toString" s = Threw TypeError.
Proof.
  apply (inherited_event_names_throw second_throws registrations "toString" 7
           no_on_options (VStr "data")).
  apply inherited_name. reflexivity.
Defined.

End EmitterWitnesses.

(* ===================================================================== *)
(** * Properties of the resource hub *)

Section HubRegistries.
Import Hub.
Context `{Host}.

Lemma valid_id_name (id : value) (name : string) :
  valid_id id = Some name → id = VStr name ∧ name ≠ "".
Proof.
  destruct id as [| | | |text| |]; try discriminate. simpl.
  destruct (String.eqb_spec text ""); [discriminate|]. by intros [= <-].
Qed.

Lemma read_assign (object : js_object) (key : string) (e : value) :
  read (assign object key e) key = e.
Proof.
  unfold read, assign. destruct (String.eqb key "__proto__"); simpl; [done|].
  by rewrite lookup_insert_eq.
Qed.

Lemma read_assign_ne (object : js_object) (key other : string) (e : value) :
  key ≠ "__proto__" → other ≠ key →
  read (assign object key e) other = read object other.
Proof.
  intros Hkey Hother. unfold read, assign.
  apply String.eqb_neq in Hkey. rewrite Hkey. simpl.
  destruct (String.eqb other "__proto__"); [done|].
  by rewrite lookup_insert_ne.
Qed.

Lemma entry_truthy (content : list (string * value)) (o : register_options)
    (s : state) :
  truthy (entry content o s) = true.
Proof. done. Qed.

Lemma entry_access (k : string) (v : value) (o : register_options) (s : state) :
  k ≠ "access" →
  get (entry [(k, v)] o s) "access" = js_or (given_access o) (VStr "public").
Proof.
  intros Hk. unfold entry, get. cbn [app assoc].
  apply not_eq_sym in Hk. apply String.eqb_neq in Hk. by rewrite Hk.
Qed.

Lemma existsb_snoc (name : string) (l : list string) :
  existsb (String.eqb name) (l ++ [name]) = true.
Proof. rewrite existsb_app. simpl. by rewrite String.eqb_refl, orb_true_r. Qed.


(** X20.  A component, a script and a data model that were registered are
    read back, and for them 'restricted' is enforced on every hub: the
    getter returns what was registered, unless the access asked for is
    'restricted' and the caller does not bypass the restriction; then it
    throws, whatever the permissions of the hub are, and what it throws is
    a [ReferenceError], the class of the [ACCESS_DENIED] error being
    unbound in the module. *)
Theorem resource_round_trip (id : value) (name : string) (component dataModel : value)
    (script : script_content) (content : value) (o : register_options)
    (bypassRestriction : bool) (s : state) :
  let denied := restricted o && negb bypassRestriction in
  let s1 := (registerComponent id component o s).2 in
  let s2 := (registerScript id script o s).2 in
  let s3 := (registerDataModel id dataModel o s).2 in
  valid_id id = Some name →
  truthy component = true → typeof_object component = true →
  valid_script script = Some content →
  truthy dataModel = true → typeof_object dataModel = true →
  getComponent name bypassRestriction s1
  = (if denied then (Threw ReferenceError, s1) else (Ok component, s1)) ∧
  getScript name bypassRestriction s2
  = (if denied then (Threw ReferenceError, s2) else (Ok content, s2)) ∧
  getDataModel name bypassRestriction s3
  = (if denied then (Threw ReferenceError, s3) else (Ok dataModel, s3)).
Proof.
  intros denied s1 s2 s3 Hid Hc Hco Hscript Hd Hdo. subst denied s1 s2 s3.
  unfold registerComponent, registerScript, registerDataModel.
  rewrite Hid, Hc, Hco, Hscript, Hd, Hdo. cbn [negb orb snd].
  unfold getComponent, getScript, getDataModel.
  cbn [hub components scripts dataModels with_components with_scripts with_dataModels].
  rewrite !read_assign, !entry_truthy, !entry_access by done.
  fold (restricted o). cbn [negb truthy].
  change (get (VObj (("content", content) :: _)) "access")
    with (js_or (given_access o) (VStr "public")).
  fold (restricted o).
  by destruct (restricted o), bypassRestriction.
Qed.

End HubRegistries.

Section HubFrames.
Import Hub.
Context `{Host}.

Lemma existsb_snoc_ne (other name : string) (l : list string) :
  other ≠ name →
  existsb (String.eqb other) (l ++ [name]) = existsb (String.eqb other) l.
Proof.
  intros Hne. rewrite existsb_app. simpl.
  apply String.eqb_neq in Hne. by rewrite Hne, !orb_false_r.
Qed.

(** The answer of a getter depends on what the registry reads under the
    id, on whether the id is restricted, and on nothing else. *)
Lemma getStyleVariable_answer (id : string) (b : bool) (s s' : state) :
  read (styleVariables (hub s')) id = read (styleVariables (hub s)) id →
  existsb (String.eqb id) (restrictedVars (permissions (hub s')))
  = existsb (String.eqb id) (restrictedVars (permissions (hub s))) →
  same_answer (getStyleVariable id b s).1 (getStyleVariable id b s').1.
Proof.
  intros Hread Hlisted. unfold getStyleVariable. rewrite Hread, Hlisted.
  destruct (negb _); [done|]. by destruct (_ && _).
Qed.

Lemma getComponent_answer (id : string) (b : bool) (s s' : state) :
  read (components (hub s')) id = read (components (hub s)) id →
  same_answer (getComponent id b s).1 (getComponent id b s').1.
Proof.
  intros Hread. unfold getComponent. rewrite Hread.
  destruct (negb _); [done|]. by destruct (_ && _).
Qed.

Lemma getScript_answer (id : string) (b : bool) (s s' : state) :
  read (scripts (hub s')) id = read (scripts (hub s)) id →
  same_answer (getScript id b s).1 (getScript id b s').1.
Proof.
  intros Hread. unfold getScript. rewrite Hread.
  destruct (negb _); [done|]. by destruct (_ && _).
Qed.

Lemma getDataModel_answer (id : string) (b : bool) (s s' : state) :
  read (dataModels (hub s')) id = read (dataModels (hub s)) id →
  same_answer (getDataModel id b s).1 (getDataModel id b s').1.
Proof.
  intros Hread. unfold getDataModel. rewrite Hread.
  destruct (negb _); [done|]. by destruct (_ && _).
Qed.

(** A getter leaves the hub as it is. *)
Lemma getter_hub (s : state) (id : string) (b : bool) :
  hub (getStyleVariable id b s).2 = hub s ∧ hub (getComponent id b s).2 = hub s ∧
  hub (getScript id b s).2 = hub s ∧ hub (getDataModel id b s).2 = hub s.
Proof.
  unfold getStyleVariable, getComponent, getScript, getDataModel.
  split_and!; (destruct (negb _); [done|]); by destruct (_ && _).
Qed.

(** What an operation leaves of the reads under another id. *)
Lemma step_reads (s : state) (o : op) (other : string) :
  registers o ≠ Some other → registers o ≠ Some "__proto__" →
  read (styleVariables (hub (step s o))) other = read (styleVariables (hub s)) other ∧
  read (components (hub (step s o))) other = read (components (hub s)) other ∧
  read (scripts (hub (step s o))) other = read (scripts (hub s)) other ∧
  read (dataModels (hub (step s o))) other = read (dataModels (hub s)) other ∧
  existsb (String.eqb other) (restrictedVars (permissions (hub (step s o))))
  = existsb (String.eqb other) (restrictedVars (permissions (hub s))).
Proof.
  intros Hother Hproto.
  destruct o as [id v o|id b|id c o|id b|id c o|id b|id d o|id b];
    cbn [step registers] in *;
    try (destruct (getter_hub s id b) as (Hv & Hc & Hs & Hd);
         by rewrite ?Hv, ?Hc, ?Hs, ?Hd).
  - unfold registerStyleVariable. destruct (valid_id id) as [name|]; [|done].
    cbn [snd hub styleVariables components scripts dataModels permissions
         with_styleVariables].
    rewrite read_assign_ne by congruence. split_and!; try done.
    destruct (_ && _); [|done]. cbn [restrictedVars].
    apply existsb_snoc_ne. congruence.
  - unfold registerComponent. destruct (valid_id id) as [name|]; [|done].
    destruct (_ || _); [done|].
    cbn [snd hub styleVariables components scripts dataModels permissions
         with_components].
    by rewrite read_assign_ne by congruence.
  - unfold registerScript. destruct (valid_id id) as [name|]; [|done].
    destruct (valid_script c); [|done].
    cbn [snd hub styleVariables components scripts dataModels permissions
         with_scripts].
    by rewrite read_assign_ne by congruence.
  - unfold registerDataModel. destruct (valid_id id) as [name|]; [|done].
    destruct (_ || _); [done|].
    cbn [snd hub styleVariables components scripts dataModels permissions
         with_dataModels].
    by rewrite read_assign_ne by congruence.
Qed.

(** X21.  Registrations do not interfere.  Whatever operation is made on a
    hub, the four getters answer for an id as they did before, with the
    same value or the same exception, unless the operation registers under
    that very id, or under [__proto__]. *)
Theorem other_ids_are_left_alone (s : state) (o : op) (other : string)
    (bypassRestriction : bool) :
  registers o ≠ Some other → registers o ≠ Some "__proto__" →
  same_answer (getStyleVariable other bypassRestriction s).1
              (getStyleVariable other bypassRestriction (step s o)).1 ∧
  same_answer (getComponent other bypassRestriction s).1
              (getComponent other bypassRestriction (step s o)).1 ∧
  same_answer (getScript other bypassRestriction s).1
              (getScript other bypassRestriction (step s o)).1 ∧
  same_answer (getDataModel other bypassRestriction s).1
              (getDataModel other bypassRestriction (step s o)).1.
Proof.
  intros Hother Hproto.
  destruct (step_reads s o other Hother Hproto) as (Hv & Hc & Hs & Hd & Hl).
  split_and!.
  - by apply getStyleVariable_answer.
  - by apply getComponent_answer.
  - by apply getScript_answer.
  - by apply getDataModel_answer.
Qed.

(** X22.  A registration under [__proto__] is the exception.  It adds no
    key to the registry, so the statistics do not count it; it is read
    back; and it changes what the registry reads under ids that were never
    registered: [getStyleVariable("createdAt")], which answered [null] on
    a registry whose prototype was untouched, then answers [undefined]. *)
Theorem prototype_registration_leaks (v : value) (o : register_options)
    (bypassRestriction : bool) (s : state) :
  let s1 := (registerStyleVariable (VStr "__proto__") v o s).2 in
  own (styleVariables (hub s)) !! "createdAt" = None →
  proto (styleVariables (hub s)) = None →
  count_keys (styleVariables (hub s1)) = count_keys (styleVariables (hub s)) ∧
  getStyleVariable "createdAt" bypassRestriction s = (Ok VNull, s) ∧
  getStyleVariable "createdAt" bypassRestriction s1 = (Ok VUndefined, s1).
Proof.
  intros s1 Hown Hproto. subst s1.
  unfold registerStyleVariable, getStyleVariable. cbn [valid_id String.eqb snd].
  cbn [hub styleVariables with_styleVariables]. unfold assign, read.
  cbn [String.eqb Ascii.eqb Bool.eqb andb own proto]. rewrite Hown, Hproto.
  split_and!; done.
Qed.

End HubFrames.

Section HubGrowth.
Import Hub.
Context `{Host}.

Lemma keeps_keys_refl (t : js_object) : keeps_keys t t.
Proof. by split. Qed.

Lemma keeps_keys_trans (t1 t2 t3 : js_object) :
  keeps_keys t1 t2 → keeps_keys t2 t3 → keeps_keys t1 t3.
Proof. intros [H1 ?] [H2 ?]. split; [auto|lia]. Qed.

Lemma assign_keeps_keys (t : js_object) (key : string) (e : value) :
  keeps_keys t (assign t key e).
Proof.
  unfold assign. destruct (String.eqb key "__proto__"); [by split|]. split; simpl.
  - intros k Hk. destruct (decide (k = key)) as [->|Hne].
    + by rewrite lookup_insert_eq.
    + by rewrite lookup_insert_ne.
  - rewrite map_size_insert. destruct (own t !! key); simpl; lia.
Qed.

Lemma grows_refl (s : state) : grows s s.
Proof. split; try apply keeps_keys_refl; [|done]. exists []. by rewrite app_nil_r. Qed.

Lemma grows_trans (s1 s2 s3 : state) : grows s1 s2 → grows s2 s3 → grows s1 s3.
Proof.
  intros [? ? ? ? [l1 E1] A1] [? ? ? ? [l2 E2] A2].
  split; try (by eapply keeps_keys_trans); [|congruence].
  exists (l1 ++ l2)%list. by rewrite E2, E1, app_assoc.
Qed.

Lemma grows_same_hub (s s' : state) : hub s' = hub s → grows s s'.
Proof.
  intros Hhub. split; rewrite Hhub; try apply keeps_keys_refl; [|done].
  exists []. by rewrite app_nil_r.
Qed.

Lemma step_grows (s : state) (o : op) : grows s (step s o).
Proof.
  destruct o as [id v o|id b|id c o|id b|id c o|id b|id d o|id b]; cbn [step];
    try (destruct (getter_hub s id b) as (Hv & Hc & Hs & Hd);
         by apply grows_same_hub).
  - unfold registerStyleVariable.
    destruct (valid_id id) as [name|]; [|by apply grows_same_hub].
    split; cbn [snd hub styleVariables components scripts dataModels permissions
                with_styleVariables];
      try apply keeps_keys_refl; [apply assign_keeps_keys| |];
      destruct (_ && _); cbn [restrictedVars allowGlobalAccess]; try done;
      [by eexists|exists []; by rewrite app_nil_r].
  - unfold registerComponent.
    destruct (valid_id id) as [name|]; [|by apply grows_same_hub].
    destruct (_ || _); [by apply grows_same_hub|].
    split; cbn [snd hub styleVariables components scripts dataModels permissions
                with_components];
      try apply keeps_keys_refl; [apply assign_keeps_keys| |done].
    exists []. by rewrite app_nil_r.
  - unfold registerScript.
    destruct (valid_id id) as [name|]; [|by apply grows_same_hub].
    destruct (valid_script c); [|by apply grows_same_hub].
    split; cbn [snd hub styleVariables components scripts dataModels permissions
                with_scripts];
      try apply keeps_keys_refl; [apply assign_keeps_keys| |done].
    exists []. by rewrite app_nil_r.
  - unfold registerDataModel.
    destruct (valid_id id) as [name|]; [|by apply grows_same_hub].
    destruct (_ || _); [by apply grows_same_hub|].
    split; cbn [snd hub styleVariables components scripts dataModels permissions
                with_dataModels];
      try apply keeps_keys_refl; [apply assign_keeps_keys| |done].
    exists []. by rewrite app_nil_r.
Qed.

Lemma run_grows (ops : list op) (s : state) : grows s (run s ops).
Proof.
  revert s. induction ops as [|o ops IH]; intros s; [apply grows_refl|].
  eapply grows_trans; [apply step_grows|apply IH].
Qed.

Lemma new_hub_built_ins (given : option Permissions) (name : string) :
  name ∈ built_in_names →
  is_Some (own (styleVariables (hub (new_GlobalResourceHub given))) !! name).
Proof.
  intros Hin. apply list_elem_of_In in Hin. simpl in Hin.
  destruct Hin as [<-|[<-|[<-|[]]]]; by eexists.
Qed.

Lemma new_hub_count (given : option Permissions) :
  size (own (styleVariables (hub (new_GlobalResourceHub given)))) = 3.
Proof.
  unfold new_GlobalResourceHub, _initBuiltInVariables, registerStyleVariable.
  cbn [valid_id String.eqb fst snd hub styleVariables with_styleVariables].
  unfold assign. cbn [String.eqb Ascii.eqb Bool.eqb andb own empty_object].
  rewrite !map_size_insert_None, map_size_empty; [done|..];
    by rewrite ?lookup_insert_ne, ?lookup_empty.
Qed.


End HubGrowth.

Section HubWitnesses.
Import Hub.


Lemma resource_round_trip_witness :
  let s := new_GlobalResourceHub None in
  let o := no_register_options in
  let denied := restricted o && negb false in
  let s1 := (registerComponent (VStr "card") pong o s).2 in
  let s2 := (registerScript (VStr "card") (ScriptFunction 1) o s).2 in
  let s3 := (registerDataModel (VStr "card") ping o s).2 in
  getComponent "card" false s1
  = (if denied then (Threw ReferenceError, s1) else (Ok pong, s1)) ∧
  getScript "card" false s2
  = (if denied then (Threw ReferenceError, s2) else (Ok (Function_object 1), s2)) ∧
  getDataModel "card" false s3
  = (if denied then (Threw ReferenceError, s3) else (Ok ping, s3)).
Proof.
  apply (resource_round_trip (H := reference_host)); reflexivity.
Defined.

Lemma other_ids_are_left_alone_witness :
  let s := new_GlobalResourceHub None in
  let o := RegisterStyleVariable (VStr "--brand") (VStr "#fff") no_register_options in
  same_answer (getStyleVariable "--unicanvas-text-color" false s).1
              (getStyleVariable "--unicanvas-text-color" false (step s o)).1 ∧
  same_answer (getComponent "--unicanvas-text-color" false s).1
              (getComponent "--unicanvas-text-color" false (step s o)).1 ∧
  same_answer (getScript "--unicanvas-text-color" false s).1
              (getScript "--unicanvas-text-color" false (step s o)).1 ∧
  same_answer (getDataModel "--unicanvas-text-color" false s).1
              (getDataModel "--unicanvas-text-color" false (step s o)).1.
Proof.
  apply (other_ids_are_left_alone (H := reference_host)); discriminate.
Defined.

Lemma prototype_registration_leaks_witness :
  let s := new_GlobalResourceHub None in
  let s1 := (registerStyleVariable (VStr "__proto__") (VStr "#fff")
               no_register_options s).2 in
  count_keys (styleVariables (hub s1)) = count_keys (styleVariables (hub s)) ∧
  getStyleVariable "createdAt" false s = (Ok VNull, s) ∧
  getStyleVariable "createdAt" false s1 = (Ok VUndefined, s1).
Proof.
  apply (prototype_registration_leaks (H := reference_host)); reflexivity.
Defined.

End HubWitnesses.

Section HubEdges.
Import Hub.
Context `{Host}.

Lemma assign_proto (t : js_object) (key : string) (e : value) :
  key ≠ "__proto__" → proto (assign t key e) = proto t.
Proof. intros Hkey%String.eqb_neq. unfold assign. by rewrite Hkey. Qed.

Lemma step_plain (s : state) (o : op) :
  registers o ≠ Some "__proto__" → plain s → plain (step s o).
Proof.
  intros Hproto Hs. unfold plain, registries in *.
  inversion Hs as [|? ? Hp1 Hs1]; subst. inversion Hs1 as [|? ? Hp2 Hs2]; subst.
  inversion Hs2 as [|? ? Hp3 Hs3]; subst. inversion Hs3 as [|? ? Hp4 _]; subst.
  destruct o as [id v o|id b|id c o|id b|id c o|id b|id d o|id b];
    cbn [step registers] in *;
    try (destruct (getter_hub s id b) as (Hv & Hc & Hs' & Hd);
         by rewrite ?Hv, ?Hc, ?Hs', ?Hd).
  - unfold registerStyleVariable, fail. destruct (valid_id id) as [name|]; [|done].
    simpl. repeat constructor; try done. rewrite assign_proto; [done|congruence].
  - unfold registerComponent, fail. destruct (valid_id id) as [name|]; [|done].
    destruct (_ || _); [done|].
    simpl. repeat constructor; try done. rewrite assign_proto; [done|congruence].
  - unfold registerScript, fail. destruct (valid_id id) as [name|]; [|done].
    destruct (valid_script c); [|done].
    simpl. repeat constructor; try done. rewrite assign_proto; [done|congruence].
  - unfold registerDataModel, fail. destruct (valid_id id) as [name|]; [|done].
    destruct (_ || _); [done|].
    simpl. repeat constructor; try done. rewrite assign_proto; [done|congruence].
Qed.

Lemma run_plain (ops : list op) (s : state) :
  Forall (fun o => registers o ≠ Some "__proto__") ops → plain s → plain (run s ops).
Proof.
  revert s. induction ops as [|o ops IH]; intros s Hops Hs; [done|].
  inversion Hops; subst. apply IH; [done|]. by apply step_plain.
Qed.

Lemma new_hub_plain (given : option Permissions) : plain (new_GlobalResourceHub given).
Proof.
  unfold plain, registries, new_GlobalResourceHub, _initBuiltInVariables,
    registerStyleVariable.
  cbn [valid_id String.eqb fst snd hub styleVariables components scripts dataModels
       with_styleVariables].
  by repeat constructor.
Qed.

(** What a registry with its own prototype reads under a name that is no
    key of it. *)
Lemma read_unregistered (t : js_object) (id : string) :
  proto t = None → own t !! id = None →
  read t id = if decide (id ∈ Object_prototype_members) then inherited_member
              else VUndefined.
Proof.
  intros Hproto Hown. unfold read. rewrite Hproto, Hown. cbn [default].
  destruct (String.eqb_spec id "__proto__") as [->|_].
  - rewrite decide_True; [done|]. apply inherited_name. reflexivity.
  - destruct (existsb _ _) eqn:Hex.
    + rewrite decide_True; [done|]. by apply inherited_name.
    + rewrite decide_False; [done|]. intros Hin%inherited_name. congruence.
Qed.

(** X28.  Ids that were never registered.  On a hub under which nothing
    was registered as [__proto__], a getter asked for an id that is no key
    of its registry answers [null], and throws nothing, whatever the
    permissions; except under a name that plain objects inherit from
    [Object.prototype], such as [constructor] or [toString]: there it finds
    the inherited member and answers [undefined]. *)
Theorem unregistered_ids_read_null (given : option Permissions) (ops : list op)
    (id : string) (bypassRestriction : bool) :
  let s := run (new_GlobalResourceHub given) ops in
  let nothing := if decide (id ∈ Object_prototype_members) then VUndefined else VNull in
  Forall (fun o => registers o ≠ Some "__proto__") ops →
  (own (styleVariables (hub s)) !! id = None →
   getStyleVariable id bypassRestriction s = (Ok nothing, s)) ∧
  (own (components (hub s)) !! id = None →
   getComponent id bypassRestriction s = (Ok nothing, s)) ∧
  (own (scripts (hub s)) !! id = None →
   getScript id bypassRestriction s = (Ok nothing, s)) ∧
  (own (dataModels (hub s)) !! id = None →
   getDataModel id bypassRestriction s = (Ok nothing, s)).
Proof.
  intros s nothing Hops.
  pose proof (run_plain ops _ Hops (new_hub_plain given)) as Hplain. fold s in Hplain.
  unfold plain, registries in Hplain.
  inversion Hplain as [|? ? Hp1 Hs1]; subst. inversion Hs1 as [|? ? Hp2 Hs2]; subst.
  inversion Hs2 as [|? ? Hp3 Hs3]; subst. inversion Hs3 as [|? ? Hp4 _]; subst.
  subst nothing.
  unfold getStyleVariable, getComponent, getScript, getDataModel.
  split_and!; intros Hown; rewrite read_unregistered by done;
    by destruct (decide (id ∈ Object_prototype_members)).
Qed.


End HubEdges.

Section HubEdgeWitnesses.
Import Hub.

Lemma unregistered_ids_read_null_witness :
  let s := run (new_GlobalResourceHub None)
             [RegisterComponent (VStr "card") pong no_register_options] in
  getStyleVariable "constructor" false s = (Ok VUndefined, s) ∧
  getComponent "button" false s = (Ok VNull, s).
Proof.
  destruct (unregistered_ids_read_null (H := reference_host) None
              [RegisterComponent (VStr "card") pong no_register_options]
              "constructor" false) as (Hstyle & _).
  { repeat constructor. discriminate. }
  destruct (unregistered_ids_read_null (H := reference_host) None
              [RegisterComponent (VStr "card") pong no_register_options]
              "button" false) as (_ & Hcomponent & _).
  { repeat constructor. discriminate. }
  split; [by apply Hstyle|by apply Hcomponent].
Defined.


End HubEdgeWitnesses.

(* ===================================================================== *)
(** * Properties of the error handler *)

Section ErrorHistory.
Import ErrorHandling.
Context `{Host}.
Variable behaviour : nat → error_object → option value.

Lemma pop_is_take {A} (x : A) (l : list A) :
  (length l ≤ 50)%nat →
  (if (50 <? Z.of_nat (length (x :: l)))%Z then removelast (x :: l) else x :: l)
  = take 50 (x :: l).
Proof.
  intros Hlen. destruct (Z.ltb_spec 50 (Z.of_nat (length (x :: l)))) as [Hover|Hfits].
  - rewrite removelast_firstn_len. simpl in Hover |- *.
    by replace (length l) with 50%nat by lia.
  - rewrite take_ge; [done|]. simpl in Hfits |- *. lia.
Qed.

Lemma addToHistory_bounded (r : nat) (s : state) :
  bounded s →
  bounded (_addToHistory r s) ∧
  errorHistory (handler (_addToHistory r s)) = take 50 (r :: errorHistory (handler s)).
Proof.
  intros [Hmax Hlen]. unfold _addToHistory, bounded.
  cbn [handler with_handler errorHistory maxHistorySize]. rewrite Hmax.
  rewrite pop_is_take by done. split_and!; [done| |done].
  rewrite length_take. lia.
Qed.

Lemma handleError_history (error : handled) (context : value) (s : state) :
  bounded s →
  bounded (handleError behaviour error context s).2 ∧
  ∀ r s', handleError behaviour error context s = (Returned r, s') →
          errorHistory (handler s') = take 50 (r :: errorHistory (handler s)).
Proof.
  intros Hs. unfold handleError.
  assert (Hgo : ∀ r0 s1, bounded s1 →
            errorHistory (handler s1) = errorHistory (handler s) →
            let result := match store s1 !! r0 with
                 | None => (Thrown EngineTypeError, s1)
                 | Some e =>
                     let e' := {| name := name e; code := code e; message := message e;
                                  details := VObj (put "context"
                                     (match context with VUndefined => VObj [] | c => c end)
                                     (spread (details e)));
                                  timestamp := timestamp e |} in
                     let s2 := {| store := <[r0 := e']> (store s1);
                                  next_error := next_error s1;
                                  handler := handler s1; reads := reads s1;
                                  log := log s1 |} in
                     (Returned r0, _notifyListeners behaviour r0 e' (_addToHistory r0 s2))
                 end in
            bounded result.2 ∧
            ∀ r s', result = (Returned r, s') →
                    errorHistory (handler s') = take 50 (r :: errorHistory (handler s))).
  { intros r0 s1 Hs1 Hsame result. subst result.
    destruct (store s1 !! r0) as [e|]; [|by split]. cbv zeta.
    match goal with
    | |- context [_addToHistory r0 ?s2] =>
        destruct (addToHistory_bounded r0 s2 Hs1) as [Hb Hh]
    end.
    split; [exact Hb|].
    intros r s' [= <- <-]. cbn [_notifyListeners handler with_log].
    rewrite Hh. cbn [handler]. by rewrite Hsame. }
  destruct error as [r0|v]; [by apply Hgo|].
  destruct v; try (by split); by apply Hgo.
Qed.

Lemma step_bounded (s : state) (o : op) : bounded s → bounded (step behaviour s o).
Proof.
  intros Hs. destruct o as [error context|l|f|]; cbn [step].
  - by apply handleError_history.
  - by destruct l.
  - done.
  - destruct Hs as [Hmax _]. split; [done|simpl; lia].
Qed.

Lemma run_bounded (ops : list op) (s : state) :
  bounded s → bounded (run behaviour s ops).
Proof.
  revert s. induction ops as [|o ops IH]; intros s Hs; [done|].
  apply IH. by apply step_bounded.
Qed.

Lemma new_ErrorHandler_bounded : bounded new_ErrorHandler.
Proof. split; [done|simpl; lia]. Qed.

(** X24.  The history holds the newest errors.  In every state a handler
    reaches, the history is at most 50 long; [handleError], when it
    returns, puts the error first and keeps the 49 most recent of the
    others, so the one removal it makes is enough; [getHistory(limit)] with
    a limit that is not negative returns the [limit] most recent, newest
    first; and [handleError(null)] throws a [TypeError] before anything is
    recorded or reported. *)
Theorem history_holds_the_newest (ops : list op) (error : handled) (context : value) :
  let s := run behaviour new_ErrorHandler ops in
  let history := errorHistory (handler s) in
  (length history ≤ 50)%nat ∧
  (∀ r s', handleError behaviour error context s = (Returned r, s') →
           errorHistory (handler s') = take 50 (r :: history)) ∧
  (∀ limit, (0 ≤ limit)%Z → getHistory (Some limit) s = take (Z.to_nat limit) history) ∧
  handleError behaviour (Other VNull) context s = (Thrown EngineTypeError, s).
Proof.
  intros s history.
  pose proof (run_bounded ops _ new_ErrorHandler_bounded) as Hs. fold s in Hs.
  split_and!.
  - by destruct Hs.
  - by apply handleError_history.
  - intros limit Hlimit. unfold getHistory, slice_to. simpl.
    destruct (Z.ltb_spec limit 0); [lia|done].
  - done.
Qed.

Lemma assoc_put (key k : string) (v : value) (fields : list (string * value)) :
  assoc k (put key v fields) = if String.eqb k key then Some v else assoc k fields.
Proof.
  induction fields as [|[k' x] fields IH]; cbn [put assoc].
  - by destruct (String.eqb k key).
  - destruct (String.eqb_spec key k') as [->|Hne]; cbn [assoc].
    + by destruct (String.eqb k k').
    + rewrite IH. destruct (String.eqb_spec k k') as [->|_]; [|done].
      by destruct (String.eqb_spec k' key); [congruence|].
Qed.

(** X25.  [handleError] changes the error it is given in place.  For an
    instance of [UniCanvasError] whose details are an object, it returns
    the same instance; the details of the instance then hold the context
    under [context], in place of a context recorded before, and every other
    member of the details as it was; name, code, message and timestamp are
    unchanged, and so is every other instance.  Entries of the history are
    references: an entry that refers to the instance shows the new
    context. *)
Theorem context_is_set_in_place (r : nat) (e : error_object)
    (fields : list (string * value)) (context : value) (s : state) :
  store s !! r = Some e → details e = VObj fields →
  ∃ s' e',
    handleError behaviour (Instance r) context s = (Returned r, s') ∧
    store s' !! r = Some e' ∧
    get (details e') "context"
    = match context with VUndefined => VObj [] | c => c end ∧
    (∀ k, k ≠ "context" → get (details e') k = get (details e) k) ∧
    name e' = name e ∧ code e' = code e ∧ message e' = message e ∧
    timestamp e' = timestamp e ∧
    ∀ r', r' ≠ r → store s' !! r' = store s !! r'.
Proof.
  intros Hr Hdetails. unfold handleError. rewrite Hr, Hdetails. cbn [spread].
  eexists _, _. split; [reflexivity|].
  cbn [_notifyListeners _addToHistory with_log with_handler store].
  split; [by rewrite lookup_insert_eq|]. cbn [details name code message timestamp].
  split_and!; try done.
  - unfold get. by rewrite assoc_put.
  - intros k Hk. unfold get. rewrite assoc_put.
    by destruct (String.eqb_spec k "context").
  - intros r' Hr'. by rewrite lookup_insert_ne.
Qed.

Lemma remove_first_absent (f : nat) (l : list nat) :
  f ∉ l → remove_first f l = l.
Proof.
  induction l as [|g l IH]; [done|]. intros Hf. cbn [remove_first].
  apply not_elem_of_cons in Hf as [Hne Hf].
  destruct (Nat.eqb_spec g f); [congruence|]. by rewrite IH.
Qed.

Lemma remove_first_snoc (f : nat) (l : list nat) :
  remove_first f (l ++ [f])
  = if decide (f ∈ l) then (remove_first f l ++ [f])%list else l.
Proof.
  induction l as [|g l IH]; cbn [app remove_first].
  - by rewrite Nat.eqb_refl.
  - destruct (Nat.eqb_spec g f) as [->|Hne].
    + rewrite decide_True; [done|by left].
    + rewrite IH. destruct (decide (f ∈ l)) as [Hin|Hout].
      * rewrite decide_True; [done|by right].
      * rewrite decide_False; [done|].
        intros [?|?]%elem_of_cons; [congruence|done].
Qed.

(** X26.  [removeListener] removes one registration, the oldest.  After
    [addListener(f)] and [removeListener(f)] the listeners are what they
    were if [f] was not registered before; if it was, it is the earlier
    registration that goes and the new one that stays, at the end of the
    list: [f] is still notified, and after the listeners it used to
    precede.  History and store are untouched. *)
Theorem add_then_remove_listener (f : nat) (s : state) :
  let s' := removeListener f (addListener (Some f) s).2 in
  let before := errorListeners (handler s) in
  errorListeners (handler s')
  = (if decide (f ∈ before) then (remove_first f before ++ [f])%list else before) ∧
  (f ∈ before → length (errorListeners (handler s')) = length before
                ∧ f ∈ errorListeners (handler s')) ∧
  errorHistory (handler s') = errorHistory (handler s) ∧ store s' = store s.
Proof.
  intros s' before. subst s'. unfold removeListener, addListener.
  cbn [snd handler with_handler errorListeners errorHistory store].
  fold before. rewrite remove_first_snoc. split_and!; try done.
  intros Hin. rewrite decide_True by done. split.
  - rewrite length_app. simpl.
    assert (Hlen : ∀ l, f ∈ l → S (length (remove_first f l)) = length l).
    { induction l as [|g l IH]; [by intros ?%elem_of_nil|].
      intros Hl. cbn [remove_first]. destruct (Nat.eqb_spec g f) as [->|Hne]; [done|].
      apply elem_of_cons in Hl as [?|Hl]; [congruence|]. simpl. by rewrite IH. }
    specialize (Hlen before Hin). lia.
  - apply elem_of_app. right. by apply list_elem_of_singleton.
Qed.

End ErrorHistory.

Section ErrorWitnesses.
Import ErrorHandling.

Lemma context_is_set_in_place_witness :
  let e := {| name := "UniCanvasError"; code := VStr "E_BROKEN"; message := "broken";
              details := VObj [("part", VStr "wheel"); ("context", VStr "old")];
              timestamp := 1700000000000 |} in
  ∃ s' e',
    handleError silent (Instance 0) (VStr "new") one_error = (Returned 0, s') ∧
    store s' !! 0 = Some e' ∧
    get (details e') "context" = VStr "new" ∧
    (∀ k, k ≠ "context" → get (details e') k = get (details e) k) ∧
    name e' = name e ∧ code e' = code e ∧ message e' = message e ∧
    timestamp e' = timestamp e ∧
    ∀ r', r' ≠ 0 → store s' !! r' = store one_error !! r'.
Proof.
  apply (context_is_set_in_place (H := reference_host) silent 0 _
           [("part", VStr "wheel"); ("context", VStr "old")] (VStr "new") one_error);
    reflexivity.
Defined.

Lemma history_holds_the_newest_witness :
  let s := run silent new_ErrorHandler [HandleError (Other (VStr "first")) VUndefined] in
  ∃ r s',
    handleError silent (Other (VObj [("message", VStr "boom")])) VUndefined s
    = (Returned r, s') ∧
    errorHistory (handler s') = take 50 (r :: errorHistory (handler s)).
Proof.
  destruct (history_holds_the_newest (H := reference_host) silent
              [HandleError (Other (VStr "first")) VUndefined]
              (Other (VObj [("message", VStr "boom")])) VUndefined)
    as (_ & Hnewest & _).
  eexists _, _. split; [reflexivity|]. apply Hnewest. reflexivity.
Defined.

Lemma add_then_remove_listener_witness :
  let s := run silent new_ErrorHandler [AddListener (Some 1); AddListener (Some 2)] in
  let s' := removeListener 1 (addListener (Some 1) s).2 in
  1 ∈ errorListeners (handler s) ∧
  length (errorListeners (handler s')) = length (errorListeners (handler s)) ∧
  1 ∈ errorListeners (handler s').
Proof.
  destruct (add_then_remove_listener (H := reference_host) 1
              (run silent new_ErrorHandler [AddListener (Some 1); AddListener (Some 2)]))
    as (_ & Hstays & _).
  assert (Hin : 1 ∈ errorListeners
                      (handler (run silent new_ErrorHandler
                                  [AddListener (Some 1); AddListener (Some 2)])))
    by (apply list_elem_of_In; simpl; auto).
  split; [exact Hin|]. exact (Hstays Hin).
Defined.

End ErrorWitnesses.
